(** * KKBK voicebot: the carrier media pipeline, embedded and verified

    A shallow embedding of the JavaScript sources of the voicebot
    (server.js, utils/aiService.js, utils/audioConverter.js,
    utils/knowledgebaseMongo.js) together with the properties its
    specification states about them.

    Conventions.
    - A JavaScript string is the list of its UTF-16 code units
      ([jsstring]); indices and lengths are [Z], as the source computes
      with them (an index may be [-1]).
    - A Node [Buffer] is a list of bytes.
    - JavaScript numbers that hold counts, indices and sizes are [Z];
      the one place where the 2^53 limit of exact doubles matters
      (the frame counter) writes it out.
    - [async] functions are cut at their [await]s: the code that runs
      between two suspension points is one function of the state, and
      the suspended activation is stored as data (see [Task], [Job]). *)

From Stdlib Require Import ZArith NArith Lia List Bool Ascii String.
From Stdlib.Strings Require Import Byte.
From Stdlib Require Import Sorting.Sorted.
From stdpp Require Import base option list gmap strings.

Local Open Scope Z_scope.

(* ================================================================== *)
(** * JavaScript strings *)
(* ================================================================== *)

Definition jsstring := list N.

(** A string literal of the source, as code units. *)
Definition js (s : string) : jsstring :=
  map N_of_ascii (list_ascii_of_string s).

Definition jslen (s : jsstring) : Z := Z.of_nat (length s).

(** ECMAScript WhiteSpace and LineTerminator code points: what
    [String.prototype.trim] strips and what [\s] matches. *)
Definition is_whitespace (c : N) : bool :=
  ((9 <=? c) && (c <=? 13) || (c =? 32) || (c =? 160) || (c =? 5760)
   || (8192 <=? c) && (c <=? 8202) || (c =? 8232) || (c =? 8233)
   || (c =? 8239) || (c =? 8287) || (c =? 12288) || (c =? 65279))%N.

(** Regular-expression word characters, [\w] = [[A-Za-z0-9_]]. *)
Definition is_word_char (c : N) : bool :=
  ((48 <=? c) && (c <=? 57) || (65 <=? c) && (c <=? 90)
   || (c =? 95) || (97 <=? c) && (c <=? 122))%N.

Fixpoint trimStart (s : jsstring) : jsstring :=
  match s with
  | [] => []
  | c :: s' => if is_whitespace c then trimStart s' else s
  end.

Definition trimEnd (s : jsstring) : jsstring :=
  rev (trimStart (rev s)).

Definition trim (s : jsstring) : jsstring := trimEnd (trimStart s).

(** [toLowerCase] on the ASCII letters. Code units outside ASCII are
    kept as they are: Unicode case mapping is not part of the model. *)
Definition lower_char (c : N) : N :=
  (if (65 <=? c) && (c <=? 90) then c + 32 else c)%N.

Definition toLowerCase (s : jsstring) : jsstring := map lower_char s.

Fixpoint isPrefix (p s : jsstring) : bool :=
  match p, s with
  | [], _ => true
  | _ :: _, [] => false
  | a :: p', b :: s' => (a =? b)%N && isPrefix p' s'
  end.

Definition startsWith (s p : jsstring) : bool := isPrefix p s.

Definition endsWith (s p : jsstring) : bool := isPrefix (rev p) (rev s).

(** [s.includes(p)]. *)
Fixpoint includes (s p : jsstring) : bool :=
  isPrefix p s ||
  match s with
  | [] => false
  | _ :: s' => includes s' p
  end.

(** Truthiness of a value that is a string, or [null] / [undefined]. *)
Definition truthy (v : option jsstring) : bool :=
  match v with Some (_ :: _) => true | _ => false end.

(** [a || b] on such values. *)
Definition or_else (a b : option jsstring) : option jsstring :=
  if truthy a then a else b.

Definition clamp (lo hi x : Z) : Z := Z.max lo (Z.min hi x).

(** [s.substring(a, b)]: both ends clamped to [0, length], swapped
    when out of order. *)
Definition substring (s : jsstring) (a b : Z) : jsstring :=
  let a' := clamp 0 (jslen s) a in
  let b' := clamp 0 (jslen s) b in
  let lo := Z.min a' b' in
  let hi := Z.max a' b' in
  take (Z.to_nat (hi - lo)) (drop (Z.to_nat lo) s).

(** The index that [slice] derives from a possibly negative argument. *)
Definition slice_index (len x : Z) : Z :=
  if x <? 0 then Z.max 0 (len + x) else Z.min x len.

(** [s.slice(a, b)]; [None] for an omitted [b]. *)
Definition slice {A} (s : list A) (a : Z) (b : option Z) : list A :=
  let len := Z.of_nat (length s) in
  let lo := slice_index len a in
  let hi := match b with Some b => slice_index len b | None => len end in
  take (Z.to_nat (hi - lo)) (drop (Z.to_nat lo) s).

(** [s.lastIndexOf(p, pos)]: the largest index [k <= max pos 0] at
    which [p] occurs in [s], [-1] when there is none. One pass from
    the left, remembering the last occurrence seen. *)
Fixpoint lastIndexOf_go (p s : jsstring) (k limit best : Z) : Z :=
  match s with
  | [] => if (k <=? limit) && isPrefix p [] then k else best
  | _ :: s' =>
      lastIndexOf_go p s' (k + 1) limit
        (if (k <=? limit) && isPrefix p s then k else best)
  end.

Definition lastIndexOf (s p : jsstring) (pos : Z) : Z :=
  lastIndexOf_go p s 0 (Z.max pos 0) (-1).

(** The maximal runs of non-whitespace: what [split(/\s+/)] returns on
    a trimmed, non-empty string. *)
Fixpoint words_go (s cur : jsstring) : list jsstring :=
  match s with
  | [] => match cur with [] => [] | _ => [rev cur] end
  | c :: s' =>
      if is_whitespace c
      then match cur with [] => words_go s' [] | _ => rev cur :: words_go s' [] end
      else words_go s' (c :: cur)
  end.

Definition words (s : jsstring) : list jsstring := words_go s [].

(* ================================================================== *)
(** * Buffers and the audio codec (utils/audioConverter.js) *)
(* ================================================================== *)

Definition Buffer := list byte.

Definition buflen (b : Buffer) : Z := Z.of_nat (length b).

(** The [for] loop of [chunkPCM]:
    [for (let i = 0; i < pcmBuffer.length; i += chunkSize)
       chunks.push(pcmBuffer.slice(i, Math.min(i + chunkSize, pcmBuffer.length)))].
    [fuel] bounds the number of iterations; [None] is a loop that has
    not ended when the fuel is spent. *)
Fixpoint chunkPCM_loop (fuel : nat) (pcmBuffer : Buffer) (chunkSize i : Z)
    (chunks : list Buffer) : option (list Buffer) :=
  if i <? buflen pcmBuffer then
    match fuel with
    | O => None
    | S fuel' =>
        chunkPCM_loop fuel' pcmBuffer chunkSize (i + chunkSize)
          (chunks ++ [slice pcmBuffer i (Some (Z.min (i + chunkSize) (buflen pcmBuffer)))])
    end
  else Some chunks.

(** [chunkPCM(pcmBuffer, chunkSize)]. With a positive chunk size the
    loop runs at most [length pcmBuffer] times; with [chunkSize <= 0]
    on a non-empty buffer the source never leaves the loop, and the
    model answers [None]. *)
Definition chunkPCM (pcmBuffer : Buffer) (chunkSize : Z) : option (list Buffer) :=
  chunkPCM_loop (length pcmBuffer) pcmBuffer chunkSize 0 [].

(* ================================================================== *)
(** * Knowledge base (utils/knowledgebaseMongo.js) *)
(* ================================================================== *)

Module KB.

(** ** chunkText *)

(** The end of the window that starts at [start]: [start + chunkSize]
    cut at the end of the text, moved back to just after the last ['.']
    or blank line at or before it when that lies beyond the middle of
    the window. [bestBreak > start + chunkSize * 0.5] is compared after
    doubling both sides. *)
Definition window_end (text : jsstring) (chunkSize start : Z) : Z :=
  let textLength := jslen text in
  let end_ := Z.min (start + chunkSize) textLength in
  if end_ <? textLength then
    let sentenceEnd := lastIndexOf text [46%N] end_ in
    let paragraphEnd := lastIndexOf text [10%N; 10%N] end_ in
    let bestBreak := Z.max sentenceEnd paragraphEnd in
    if 2 * start + chunkSize <? 2 * bestBreak then bestBreak + 1 else end_
  else end_.

(** [Math.ceil(textLength / Math.max(1, chunkSize - overlap)) + 100]. *)
Definition maxChunks (text : jsstring) (chunkSize overlap : Z) : Z :=
  let d := Z.max 1 (chunkSize - overlap) in
  (jslen text + d - 1) / d + 100.

(** The [while] loop of [chunkText]. Next to [chunks], the array the
    source builds, the model keeps the list of the windows
    [(start, end)] it has cut, which the source does not store. *)
Fixpoint chunkText_loop (fuel : nat) (text : jsstring) (chunkSize overlap start : Z)
    (windows : list (Z * Z)) (chunks : list jsstring)
    : option (list (Z * Z) * list jsstring) :=
  if (start <? jslen text) && (Z.of_nat (length chunks) <? maxChunks text chunkSize overlap) then
    match fuel with
    | O => None
    | S fuel' =>
        let end_ := window_end text chunkSize start in
        let chunk := trim (substring text start end_) in
        let chunks' := if 0 <? jslen chunk then chunks ++ [chunk] else chunks in
        let windows' := windows ++ [(start, end_)] in
        if jslen text <=? end_ then Some (windows', chunks')
        else chunkText_loop fuel' text chunkSize overlap
               (Z.max (start + 1) (end_ - overlap)) windows' chunks'
    end
  else Some (windows, chunks).

(** [chunkText(text, chunkSize, overlap)] with its windows. [start]
    grows by at least one per iteration, so [length text] iterations
    are enough fuel (see [chunkText_total]). *)
Definition chunkText_trace (text : jsstring) (chunkSize overlap : Z)
    : option (list (Z * Z) * list jsstring) :=
  if jslen (trim text) =? 0 then Some ([], [])
  else chunkText_loop (length text) text chunkSize overlap 0 [] [].

Definition chunkText (text : jsstring) (chunkSize overlap : Z) : option (list jsstring) :=
  snd <$> chunkText_trace text chunkSize overlap.

(** Position [p] of the text lies in one of the windows. *)
Definition covered (windows : list (Z * Z)) (p : Z) : Prop :=
  Exists (fun w => fst w <= p < snd w) windows.

Definition coveredb (windows : list (Z * Z)) (p : Z) : bool :=
  existsb (fun w => (fst w <=? p) && (p <? snd w)) windows.

(** The chunks that a list of windows contributes: the trimmed text of
    each window, when not empty. *)
Definition chunks_of (text : jsstring) (windows : list (Z * Z)) : list jsstring :=
  filter (fun c => c <> []) (map (fun w => trim (substring text (fst w) (snd w))) windows).

(** ** getRelevantChunks *)

(** Characters with a meaning of their own in a regular expression
    pattern: [\ ^ $ . | ? * + ( ) [ ] { }]. *)
Definition is_regex_special (c : N) : bool :=
  existsb (N.eqb c) [92; 94; 36; 46; 124; 63; 42; 43; 40; 41; 91; 93; 123; 125]%N.

(** A query word that [new RegExp(`\\b${word}\\b`, 'gi')] reads as the
    literal word between two word boundaries. *)
Definition regex_literal (word : jsstring) : bool :=
  forallb (fun c => negb (is_regex_special c)) word.

Definition word_at (c : option N) : bool :=
  match c with Some c => is_word_char c | None => false end.

(** [\b] between two neighbouring positions (none at the ends). *)
Definition boundary (before after : option N) : bool :=
  xorb (word_at before) (word_at after).

(** [\bword\b] matches at the head of [s], [prev] being the character
    before it. *)
Definition matches_here (word : jsstring) (prev : option N) (s : jsstring) : bool :=
  boundary prev (head s) && isPrefix word s
  && boundary (last word) (head (drop (length word) s)).

(** [(text.match(wordRegex) || []).length]: the matches of the global
    regular expression, left to right, the search resuming after each
    match ([skip] counts the characters of the current match still to
    pass). *)
Fixpoint count_matches (word : jsstring) (prev : option N) (s : jsstring) (skip : nat) : Z :=
  match s with
  | [] => 0
  | c :: s' =>
      match skip with
      | S k => count_matches word (Some c) s' k
      | O =>
          if matches_here word prev s
          then 1 + count_matches word (Some c) s' (length word - 1)
          else count_matches word (Some c) s' 0
      end
  end.

Fixpoint after_hashes (s : jsstring) : jsstring :=
  match s with
  | 35%N :: s' => after_hashes s'
  | _ => s
  end.

(** [/^#+\s|:$/.test(chunk)]. *)
Definition heading_like (chunk : jsstring) : bool :=
  match chunk with
  | 35%N :: _ => match after_hashes chunk with c :: _ => is_whitespace c | [] => false end
  | _ => false
  end || endsWith chunk [58%N].

Record Scored := mkScored { chunk : jsstring; score : Z; idx : Z }.

(** The sum of the word counts of a chunk. *)
Definition token_matches (queryWords : list jsstring) (text : jsstring) : Z :=
  foldl (fun acc word => acc + count_matches word None text 0) 0 queryWords.

(** The callback of [allChunks.map]. *)
Definition score_chunk (q : jsstring) (queryWords : list jsstring)
    (chunk : jsstring) (idx : Z) : Scored :=
  let text := toLowerCase chunk in
  let score := token_matches queryWords text in
  let score := if includes text q then score + 5 else score in
  let score := if heading_like chunk then score + 1 else score in
  mkScored chunk score idx.

Fixpoint map_indexed {A B} (f : A -> Z -> B) (i : Z) (l : list A) : list B :=
  match l with
  | [] => []
  | x :: l' => f x i :: map_indexed f (i + 1) l'
  end.

(** The comparator given to [scored.sort]: score descending, then
    index ascending. *)
Definition compare_scored (a b : Scored) : Z :=
  if negb (score b =? score a) then score b - score a else idx a - idx b.

(** [Array.prototype.sort] with a comparator: a stable sort; written as
    insertion of each element in front of the sorted rest. *)
Fixpoint insert_scored (x : Scored) (l : list Scored) : list Scored :=
  match l with
  | [] => [x]
  | y :: l' => if compare_scored x y <=? 0 then x :: l else y :: insert_scored x l'
  end.

Fixpoint sort_scored (l : list Scored) : list Scored :=
  match l with
  | [] => []
  | x :: l' => insert_scored x (sort_scored l')
  end.

(** The lowercased, trimmed query and its words of two characters or
    more. *)
Definition query_phrase (query : jsstring) : jsstring := trim (toLowerCase query).

Definition query_words (query : jsstring) : list jsstring :=
  filter (fun word => 2 <= jslen word) (words (query_phrase query)).

(** The scored chunks after [sort]. *)
Definition ranking (allChunks : list jsstring) (query : jsstring) : list Scored :=
  sort_scored (map_indexed (score_chunk (query_phrase query) (query_words query)) 0 allChunks).

(** [scored.filter(item => item.score > 0).slice(0, maxChunks)]. *)
Definition top_entries (allChunks : list jsstring) (query : jsstring) (maxChunks : Z)
    : list Scored :=
  slice (filter (fun item => 0 < score item) (ranking allChunks query)) 0 (Some maxChunks).

(** [getRelevantChunks(query, maxChunks)] on the chunks that
    [loadAllChunks] returned. [None] when a query word is not a literal
    pattern: what the regular expression built from it matches, or that
    building it throws, is outside the model. *)
Definition getRelevantChunks (allChunks : list jsstring) (query : jsstring) (maxChunks : Z)
    : option (list jsstring) :=
  if jslen (trim query) =? 0 then Some []
  else if Z.of_nat (length allChunks) =? 0 then Some []
  else if Z.of_nat (length (query_words query)) =? 0 then Some []
  else if forallb regex_literal (query_words query) then
    Some (map chunk (top_entries allChunks query maxChunks))
  else None.




(** [a] stands before [b] in [l]. *)
Definition before {A} (a b : A) (l : list A) : Prop :=
  exists l1 l2 l3, l = l1 ++ a :: l2 ++ b :: l3.

End KB.

(* ================================================================== *)
(** * Reply post-processing and prompts (utils/aiService.js) *)
(* ================================================================== *)

Module AI.

Definition nl : jsstring := [10%N].

(** The characters of the class [[.!?]]. *)
Definition is_sentence_ender (c : N) : bool :=
  ((c =? 46) || (c =? 33) || (c =? 63))%N.

(** The characters that [.] does not match. *)
Definition is_line_terminator (c : N) : bool :=
  ((c =? 10) || (c =? 13) || (c =? 8232) || (c =? 8233))%N.

(** The lazy group [(.*?)] followed by the literal [close]: the
    shortest run of characters, none a line terminator, after which
    [close] stands; with the text after [close]. *)
Fixpoint lazy_until (close s : jsstring) : option (jsstring * jsstring) :=
  if isPrefix close s then Some ([], drop (length close) s)
  else
    match s with
    | [] => None
    | c :: s' =>
        if is_line_terminator c then None
        else (fun r => (c :: fst r, snd r)) <$> lazy_until close s'
    end.

(** [s.replace(/open(.*?)close/g, '$1')] for literal delimiters. Each
    step leaves a shorter text, so [length s] steps suffice. *)
Fixpoint replace_delimited (fuel : nat) (open close s : jsstring) : jsstring :=
  match fuel, s with
  | O, _ => s
  | _, [] => []
  | S fuel', c :: s' =>
      if isPrefix open s then
        match lazy_until close (drop (length open) s) with
        | Some (inner, rest) => inner ++ replace_delimited fuel' open close rest
        | None => c :: replace_delimited fuel' open close s'
        end
      else c :: replace_delimited fuel' open close s'
  end.

(** After a ['[']: the group of [\[(.*?)\]\(.*?\)] and the text after
    the closing [')']. *)
Fixpoint link_match (s : jsstring) : option (jsstring * jsstring) :=
  let extend :=
    match s with
    | [] => None
    | c :: s' =>
        if is_line_terminator c then None
        else (fun r => (c :: fst r, snd r)) <$> link_match s'
    end in
  if isPrefix [93%N; 40%N] s then
    match lazy_until [41%N] (drop 2 s) with
    | Some (_, rest) => Some ([], rest)
    | None => extend
    end
  else extend.

(** [s.replace(/\[(.*?)\]\(.*?\)/g, '$1')]. *)
Fixpoint replace_links (fuel : nat) (s : jsstring) : jsstring :=
  match fuel, s with
  | O, _ => s
  | _, [] => []
  | S fuel', c :: s' =>
      if (c =? 91)%N then
        match link_match s' with
        | Some (text, rest) => text ++ replace_links fuel' rest
        | None => c :: replace_links fuel' s'
        end
      else c :: replace_links fuel' s'
  end.

Fixpoint count_hashes (s : jsstring) : nat :=
  match s with
  | 35%N :: s' => S (count_hashes s')
  | _ => O
  end.

(** [s.replace(/#{1,6}\s/g, '')]: a run of one to six ['#'] and the
    white space after it. *)
Fixpoint strip_headers (fuel : nat) (s : jsstring) : jsstring :=
  match fuel, s with
  | O, _ => s
  | _, [] => []
  | S fuel', c :: s' =>
      let r := count_hashes s in
      if (1 <=? r)%nat && (r <=? 6)%nat
         && match drop r s with w :: _ => is_whitespace w | [] => false end
      then strip_headers fuel' (drop (S r) s)
      else c :: strip_headers fuel' s'
  end.

Fixpoint span (p : N -> bool) (s : jsstring) : jsstring * jsstring :=
  match s with
  | [] => ([], [])
  | c :: s' => if p c then let r := span p s' in (c :: fst r, snd r) else ([], s)
  end.

(** [s.match(/[^.!?]+[.!?]+/g)]; the empty list where [match] answers
    [null]. *)
Fixpoint sentences (fuel : nat) (s : jsstring) : list jsstring :=
  match fuel, s with
  | O, _ => []
  | _, [] => []
  | S fuel', c :: s' =>
      if is_sentence_ender c then sentences fuel' s'
      else
        let body := span (fun c => negb (is_sentence_ender c)) s in
        let marks := span is_sentence_ender (snd body) in
        match fst marks with
        | [] => []
        | _ => (fst body ++ fst marks) :: sentences fuel' (snd marks)
        end
  end.

(** The loop that joins sentences while the result stays within 300
    characters. *)
Fixpoint join_sentences (truncated : jsstring) (l : list jsstring) : jsstring :=
  match l with
  | [] => truncated
  | sentence :: l' =>
      if jslen (truncated ++ sentence) <=? 300
      then join_sentences (truncated ++ sentence) l'
      else truncated
  end.

(** [postProcessReply(reply)]. *)
Definition postProcessReply (reply : jsstring) : jsstring :=
  match reply with
  | [] => reply
  | _ =>
      let bold := replace_delimited (length reply) [42%N; 42%N] [42%N; 42%N] reply in
      let italic := replace_delimited (length bold) [42%N] [42%N] bold in
      let code := replace_delimited (length italic) [96%N] [96%N] italic in
      let headers := strip_headers (length code) code in
      let processed := trim (replace_links (length headers) headers) in
      let processed :=
        if 300 <? jslen processed then
          match sentences (length processed) processed with
          | [] => substring processed 0 300
          | l =>
              match join_sentences [] l with
              | [] => substring processed 0 300
              | truncated => truncated
              end
          end
        else processed in
      let processed :=
        match last processed with
        | Some c => if is_sentence_ender c then processed else processed ++ [46%N]
        | None => processed
        end in
      trim processed
  end.

(** [custom_parameters]: an object whose fields are strings. *)
Abbreviation Params := (gmap string jsstring).

(** [generateSystemPrompt(customParams)]; [None] is [null]. *)
Definition generateSystemPrompt (customParams : Params) : option jsstring :=
  if bool_decide (customParams = ∅) then None
  else
    let has k := truthy (customParams !! k) in
    let get k := default [] (customParams !! k) in
    let intro :=
      if has "persona_name" then
        js "You are " ++ get "persona_name"
        ++ (if has "persona_age" then js ", " ++ get "persona_age" ++ js " years old" else [])
        ++ (if has "tone" then js ", a " ++ get "tone" else [])
        ++ (if has "gender" then js " " ++ get "gender" else [])
        ++ (if has "city" then js " from " ++ get "city" else [])
        ++ js "." ++ nl ++ nl
      else [] in
    let lang :=
      if has "language" then
        (if includes (toLowerCase (get "language")) (js "hindi")
            || includes (toLowerCase (get "language")) (js "hi")
         then js "Baat karo Hinglish mein (mix of Hindi and English)."
         else js "Speak in " ++ get "language" ++ js ".")
        ++ nl ++ nl
      else [] in
    let docs :=
      if has "documents"
      then js "Sirf in documents se jawab do:" ++ nl ++ get "documents" ++ nl ++ nl
      else [] in
    let customer :=
      if has "customer_name"
      then js "Customer ka naam: " ++ get "customer_name" ++ nl ++ nl
      else [] in
    let systemPrompt := intro ++ lang ++ docs ++ customer in
    let systemPrompt :=
      match trim systemPrompt with
      | [] => js "You are a helpful assistant."
      | _ => systemPrompt
      end in
    Some (trim systemPrompt).

Inductive Role := system | user | assistant.

Global Instance Role_eq_dec : EqDecision Role.
Proof. solve_decision. Defined.

(** An entry of [conversationHistory]. *)
Record Message := mkMessage { role : Role; content : jsstring }.

(** The persona entry: a system message that is not a block of
    relevant context. *)
Definition is_persona (msg : Message) : bool :=
  bool_decide (role msg = system) && negb (includes (content msg) (js "Relevant context")).

Fixpoint set_first_persona (personaContent : jsstring) (history : list Message)
    : list Message :=
  match history with
  | [] => []
  | msg :: rest =>
      if is_persona msg then mkMessage (role msg) personaContent :: rest
      else msg :: set_first_persona personaContent rest
  end.

(** [ensureSystemMessage(session)] on the history, [mongoPersona] being
    what [loadPersonaFromMongo()] answers when it is asked. *)
Definition ensureSystemMessage (customParameters : Params) (mongoPersona : jsstring)
    (history : list Message) : list Message :=
  let personaContent :=
    match generateSystemPrompt customParameters with
    | Some (c :: p) => c :: p
    | _ => mongoPersona
    end in
  match history with
  | [] => [mkMessage system personaContent]
  | _ =>
      if negb (existsb is_persona history)
      then mkMessage system personaContent :: history
      else set_first_persona personaContent history
  end.

(** The prompt that [generateWithGeminiStreaming] sends. *)
Definition build_prompt (history : list Message) (contextChunks : list jsstring)
    (userText : jsstring) : jsstring :=
  let contextText :=
    match contextChunks with
    | [] => []
    | c :: rest => foldl (fun acc x => acc ++ nl ++ nl ++ x) c rest
    end in
  let systemPrompt :=
    match filter (fun m => is_persona m = true) history with
    | systemMsg :: _ => content systemMsg
    | [] => js "You are a helpful assistant."
    end in
  let recentMessages :=
    slice (filter (fun m => negb (bool_decide (role m = system))
                            || includes (content m) (js "Relevant context") = true) history)
          (-10) None in
  let fullPrompt := systemPrompt ++ nl ++ nl in
  let fullPrompt :=
    match contextText with
    | [] => fullPrompt
    | _ => fullPrompt ++ js "Relevant context:" ++ nl ++ contextText ++ nl ++ nl
    end in
  let fullPrompt :=
    foldl (fun acc msg =>
             match role msg with
             | user => acc ++ js "User: " ++ content msg ++ nl
             | assistant => acc ++ js "Assistant: " ++ content msg ++ nl
             | system => acc
             end) fullPrompt recentMessages in
  fullPrompt ++ js "User: " ++ trim userText ++ nl ++ js "Assistant:".

End AI.

(* ================================================================== *)
(** * The outbound-call endpoint (server.js, [app.post('/call')]) *)
(* ================================================================== *)

Module CallEndpoint.

(** The variables of [process.env] that the handler reads; [None] is
    [undefined]. *)
Record Env := mkEnv {
  EXOTEL_API_KEY : option jsstring;
  EXOTEL_API_TOKEN : option jsstring;
  EXOTEL_SID : option jsstring;
  EXOTEL_SUBDOMAIN : option jsstring;
  EXOTEL_APP_ID : option jsstring;
  EXOTEL_CALLER_ID : option jsstring
}.

(** A field of the JSON body: missing, a string, or another JSON value
    (of which only the truthiness matters before [startsWith] throws). *)
Inductive Field :=
| Absent
| Str (s : jsstring)
| NonString (truthy : bool).

Record Body := mkBody { to : Field; from : Field }.

Record Config := mkConfig {
  apiKey : option jsstring;
  apiToken : option jsstring;
  sid : option jsstring;
  subdomain : jsstring;
  appId : option jsstring;
  callerId : option jsstring
}.

(** What [await caller.makeCall(targetNumber, from)] produced. The
    caller class is not part of this model; its answer is an input. *)
Inductive CallResult :=
| CallSucceeded (callSid data : jsstring)
| CallFailed (error status : jsstring)
| CallThrew (message : jsstring).

Inductive Payload :=
| ConfigurationError (error : jsstring) (required : list jsstring)
| InvalidNumber (error : jsstring)
| CallInitiated (message callSid data : jsstring)
| CallNotInitiated (message error status : jsstring)
| InternalError (error : jsstring).

Record Response := mkResponse { status : Z; payload : Payload }.

(** The [success] field of each payload. *)
Definition success (p : Payload) : bool :=
  match p with CallInitiated _ _ _ => true | _ => false end.

Definition default_number : jsstring := js "+919324606985".

(** [to || '+919324606985']. *)
Definition targetNumber (body : Body) : Field :=
  match to body with
  | Str (c :: s) => Str (c :: s)
  | NonString true => NonString true
  | _ => Str default_number
  end.

Definition read_config (env : Env) : Config :=
  {| apiKey := EXOTEL_API_KEY env;
     apiToken := EXOTEL_API_TOKEN env;
     sid := EXOTEL_SID env;
     subdomain := if truthy (EXOTEL_SUBDOMAIN env)
                  then default (js "api.exotel.com") (EXOTEL_SUBDOMAIN env)
                  else js "api.exotel.com";
     appId := EXOTEL_APP_ID env;
     callerId := EXOTEL_CALLER_ID env |}.

(** The array literal of the [required] field. *)
Definition required_keys : list jsstring :=
  [js "EXOTEL_API_KEY"; js "EXOTEL_API_TOKEN"; js "EXOTEL_SID";
   js "EXOTEL_APP_ID"; js "EXOTEL_CALLER_ID"].

(** The required keys that the environment does not set. *)
Definition missing_keys (env : Env) : list jsstring :=
  (if truthy (EXOTEL_API_KEY env) then [] else [js "EXOTEL_API_KEY"])
  ++ (if truthy (EXOTEL_API_TOKEN env) then [] else [js "EXOTEL_API_TOKEN"])
  ++ (if truthy (EXOTEL_SID env) then [] else [js "EXOTEL_SID"])
  ++ (if truthy (EXOTEL_APP_ID env) then [] else [js "EXOTEL_APP_ID"])
  ++ (if truthy (EXOTEL_CALLER_ID env) then [] else [js "EXOTEL_CALLER_ID"]).

(** The handler of [POST /call]. *)
Definition post_call (env : Env) (body : Body)
    (makeCall : Config -> jsstring -> Field -> CallResult) : Response :=
  let config := read_config env in
  if negb (truthy (apiKey config)) || negb (truthy (apiToken config))
     || negb (truthy (sid config)) || negb (truthy (appId config))
     || negb (truthy (callerId config))
  then mkResponse 400
         (ConfigurationError
            (js "Missing Exotel configuration. Please set environment variables.")
            required_keys)
  else
    match targetNumber body with
    | Str number =>
        if negb (startsWith number (js "+"))
        then mkResponse 400
               (InvalidNumber (js "Invalid phone number. Must start with + (e.g., +919324606985)"))
        else
          match makeCall config number (from body) with
          | CallSucceeded callSid data =>
              mkResponse 200
                (CallInitiated (js "Call initiated successfully to " ++ number) callSid data)
          | CallFailed error status =>
              mkResponse 500
                (CallNotInitiated (js "Failed to initiate call to " ++ number) error status)
          | CallThrew message => mkResponse 500 (InternalError message)
          end
    | _ =>
        (* [targetNumber.startsWith] is not a function: the [catch] answers *)
        mkResponse 500 (InternalError (js "targetNumber.startsWith is not a function"))
    end.

(** The target number of a request starts with ['+']. *)
Definition starts_with_plus (body : Body) : bool :=
  match targetNumber body with
  | Str number => startsWith number (js "+")
  | _ => false
  end.

End CallEndpoint.

(* ================================================================== *)
(** * The WebSocket session (server.js) *)
(* ================================================================== *)

Module Server.

Import AI.

(** ** Data *)

(** The session object that the connection handler creates. [callId]
    (used in log lines only) and [ws] (the socket of the surrounding
    [World]) are left out. [sampleRate] is the integer that [parseInt]
    read from the query ([NaN], from a parameter that is no number, is
    not modelled). *)
Record Session := mkSession {
  streamSid : option jsstring;
  sampleRate : Z;
  audioBuffer : list Buffer;
  conversationHistory : list Message;
  customParameters : Params;
  sequenceNumber : Z;
  isActive : bool;
  pendingClear : bool;
  processingAudio : bool;
  greetingSent : bool;
  greetingInProgress : bool;
  outboundTrackLogged : bool;
  inboundTrackLogged : bool
}.

(** A frame handed to [ws.send]. [payload] is the chunk of which the
    frame carries the base64 text; [sequence_number] the number of
    which it carries the decimal string. *)
Inductive Frame :=
| MediaFrame (stream_sid : option jsstring) (sequence_number : Z) (payload : Buffer)
| MarkFrame (stream_sid : option jsstring) (name : jsstring).

(** What is chained on the promise of a [streamTTSAudio] call: the
    [.then/.catch] of a greeting, or the [.catch] whose promise a turn
    keeps in [pendingTTS]. *)
Inductive Owner :=
| OwnGreeting
| OwnFragment (turn : nat).

(** An activation of an [async] function, suspended at the [await] of
    an outside completion. *)
Inductive Task :=
| StreamSynth (sendMark : bool) (owner : Owner)
    (* streamTTSAudio at [await ttsService.synthesize] *)
| StreamResample (sendMark : bool) (owner : Owner)
    (* streamTTSAudio at [await audioConverter.resamplePCM] *)
| StreamPace (chunks : list Buffer) (i : nat) (sendMark : bool) (owner : Owner)
    (* streamTTSAudio at the 10 ms pause that ends iteration [i] *)
| SilencePace (rest : list Buffer)
    (* sendFallbackSilence at its pause, [rest] still to send *)
| TurnStt (combinedAudio : Buffer)
    (* processUserAudio at [await sttService.transcribePCM] *)
| LlmSetup (userText : jsstring)
    (* generateWithGeminiStreaming before the request is sent *)
| LlmStream (fullReply : jsstring).
    (* generateWithGeminiStreaming at [await reader.read()] *)

(** A continuation that waits its turn in the microtask queue. *)
Inductive Job :=
| JStartFragment (turn : nat) (textToSpeak : jsstring)
    (* onToken after [await pendingTTS] of a flush *)
| JStartFinal (turn : nat) (remainingText : jsstring)
    (* onToken after the first [await pendingTTS] of the final chunk *)
| JFinalDone (turn : nat)
    (* onToken after the [await pendingTTS] of the final chunk itself *)
| JGreetingThen
| JGreetingCatch
| JTurnFinally.

(** The variables that [onToken] closes over. *)
Record Closure := mkClosure {
  textBuffer : jsstring;
  pendingTTS : option nat
}.

(** Calls to the outside services, in the order they are made. *)
Inductive Call :=
| Synthesize (id : nat) (text voice : jsstring) (rate : Z)
| Resample (id : nat) (pcm : Buffer) (from to : Z)
| Transcribe (id : nat) (pcm : Buffer) (rate : Z)
| Generate (id : nat) (prompt : jsstring).

Record Env := mkEnv {
  GREETING_TEXT : option jsstring;
  GEMINI_API_KEY : option jsstring
}.

(** One connection: the session, the socket, and the activations in
    flight. [wire] lists the frames sent, each with the id of the
    activation that sent it; [tasks], [waiters] on a [pendingTTS]
    promise (named by the id of its [streamTTSAudio] activation, pending
    while that activation is in [tasks]) and [jobs], the microtask
    queue, hold the suspended code. *)
Record World := mkWorld {
  env : Env;
  session : Session;
  readyState : Z;
  wire : list (nat * Frame);
  calls : list Call;
  tasks : list (nat * Task);
  waiters : list (nat * Job);
  jobs : list Job;
  closures : list (nat * Closure);
  nextId : nat
}.

(** ** The state monad of the handlers *)

Definition M (A : Type) : Type := World -> A * World.

#[global] Instance M_ret : MRet M := fun A a w => (a, w).
#[global] Instance M_bind : MBind M := fun A B f m w => let r := m w in f (fst r) (snd r).

Definition gets {A} (f : World -> A) : M A := fun w => (f w, w).
Definition modify (f : World -> World) : M unit := fun w => (tt, f w).
Definition exec {A} (m : M A) (w : World) : World := snd (m w).

Definition skip : M unit := mret tt.

Fixpoint for_each {A} (l : list A) (body : A -> M unit) : M unit :=
  match l with
  | [] => skip
  | x :: l' => body x;; for_each l' body
  end.

Definition with_session (f : Session -> Session) : M unit :=
  modify (fun w => mkWorld (env w) (f (session w)) (readyState w) (wire w) (calls w)
                           (tasks w) (waiters w) (jobs w) (closures w) (nextId w)).

Definition set_streamSid v := with_session (fun s =>
  mkSession v (sampleRate s) (audioBuffer s) (conversationHistory s) (customParameters s)
    (sequenceNumber s) (isActive s) (pendingClear s) (processingAudio s) (greetingSent s)
    (greetingInProgress s) (outboundTrackLogged s) (inboundTrackLogged s)).
Definition set_audioBuffer v := with_session (fun s =>
  mkSession (streamSid s) (sampleRate s) v (conversationHistory s) (customParameters s)
    (sequenceNumber s) (isActive s) (pendingClear s) (processingAudio s) (greetingSent s)
    (greetingInProgress s) (outboundTrackLogged s) (inboundTrackLogged s)).
(** [session.conversationHistory] becomes [f session]. *)
Definition update_history (f : Session -> list Message) := with_session (fun s =>
  mkSession (streamSid s) (sampleRate s) (audioBuffer s) (f s) (customParameters s)
    (sequenceNumber s) (isActive s) (pendingClear s) (processingAudio s) (greetingSent s)
    (greetingInProgress s) (outboundTrackLogged s) (inboundTrackLogged s)).
Definition set_customParameters v := with_session (fun s =>
  mkSession (streamSid s) (sampleRate s) (audioBuffer s) (conversationHistory s) v
    (sequenceNumber s) (isActive s) (pendingClear s) (processingAudio s) (greetingSent s)
    (greetingInProgress s) (outboundTrackLogged s) (inboundTrackLogged s)).
Definition set_sequenceNumber v := with_session (fun s =>
  mkSession (streamSid s) (sampleRate s) (audioBuffer s) (conversationHistory s)
    (customParameters s) v (isActive s) (pendingClear s) (processingAudio s) (greetingSent s)
    (greetingInProgress s) (outboundTrackLogged s) (inboundTrackLogged s)).
Definition set_isActive v := with_session (fun s =>
  mkSession (streamSid s) (sampleRate s) (audioBuffer s) (conversationHistory s)
    (customParameters s) (sequenceNumber s) v (pendingClear s) (processingAudio s)
    (greetingSent s) (greetingInProgress s) (outboundTrackLogged s) (inboundTrackLogged s)).
Definition set_pendingClear v := with_session (fun s =>
  mkSession (streamSid s) (sampleRate s) (audioBuffer s) (conversationHistory s)
    (customParameters s) (sequenceNumber s) (isActive s) v (processingAudio s)
    (greetingSent s) (greetingInProgress s) (outboundTrackLogged s) (inboundTrackLogged s)).
Definition set_processingAudio v := with_session (fun s =>
  mkSession (streamSid s) (sampleRate s) (audioBuffer s) (conversationHistory s)
    (customParameters s) (sequenceNumber s) (isActive s) (pendingClear s) v
    (greetingSent s) (greetingInProgress s) (outboundTrackLogged s) (inboundTrackLogged s)).
Definition set_greetingSent v := with_session (fun s =>
  mkSession (streamSid s) (sampleRate s) (audioBuffer s) (conversationHistory s)
    (customParameters s) (sequenceNumber s) (isActive s) (pendingClear s) (processingAudio s)
    v (greetingInProgress s) (outboundTrackLogged s) (inboundTrackLogged s)).
Definition set_greetingInProgress v := with_session (fun s =>
  mkSession (streamSid s) (sampleRate s) (audioBuffer s) (conversationHistory s)
    (customParameters s) (sequenceNumber s) (isActive s) (pendingClear s) (processingAudio s)
    (greetingSent s) v (outboundTrackLogged s) (inboundTrackLogged s)).
Definition set_outboundTrackLogged v := with_session (fun s =>
  mkSession (streamSid s) (sampleRate s) (audioBuffer s) (conversationHistory s)
    (customParameters s) (sequenceNumber s) (isActive s) (pendingClear s) (processingAudio s)
    (greetingSent s) (greetingInProgress s) v (inboundTrackLogged s)).
Definition set_inboundTrackLogged v := with_session (fun s =>
  mkSession (streamSid s) (sampleRate s) (audioBuffer s) (conversationHistory s)
    (customParameters s) (sequenceNumber s) (isActive s) (pendingClear s) (processingAudio s)
    (greetingSent s) (greetingInProgress s) (outboundTrackLogged s) v).

Definition set_readyState v := modify (fun w =>
  mkWorld (env w) (session w) v (wire w) (calls w) (tasks w) (waiters w) (jobs w)
          (closures w) (nextId w)).
Definition set_wire v := modify (fun w =>
  mkWorld (env w) (session w) (readyState w) v (calls w) (tasks w) (waiters w) (jobs w)
          (closures w) (nextId w)).
Definition set_calls v := modify (fun w =>
  mkWorld (env w) (session w) (readyState w) (wire w) v (tasks w) (waiters w) (jobs w)
          (closures w) (nextId w)).
Definition set_tasks v := modify (fun w =>
  mkWorld (env w) (session w) (readyState w) (wire w) (calls w) v (waiters w) (jobs w)
          (closures w) (nextId w)).
Definition set_waiters v := modify (fun w =>
  mkWorld (env w) (session w) (readyState w) (wire w) (calls w) (tasks w) v (jobs w)
          (closures w) (nextId w)).
Definition set_jobs v := modify (fun w =>
  mkWorld (env w) (session w) (readyState w) (wire w) (calls w) (tasks w) (waiters w) v
          (closures w) (nextId w)).
Definition set_closures v := modify (fun w =>
  mkWorld (env w) (session w) (readyState w) (wire w) (calls w) (tasks w) (waiters w)
          (jobs w) v (nextId w)).
Definition set_nextId v := modify (fun w =>
  mkWorld (env w) (session w) (readyState w) (wire w) (calls w) (tasks w) (waiters w)
          (jobs w) (closures w) v).

(** ** Suspended activations *)

Definition fresh : M nat :=
  id ← gets nextId; set_nextId (S id);; mret id.

Definition lookup_id {A} (id : nat) (l : list (nat * A)) : option A :=
  snd <$> find (fun e => Nat.eqb (fst e) id) l.

Definition remove_id {A} (id : nat) (l : list (nat * A)) : list (nat * A) :=
  filter (fun e => fst e <> id) l.

(** The activation [id] stops at an [await]. *)
Definition suspend (id : nat) (t : Task) : M unit :=
  ts ← gets tasks; set_tasks (remove_id id ts ++ [(id, t)]).

(** The activation [id] resumes or ends. *)
Definition release (id : nat) : M unit :=
  ts ← gets tasks; set_tasks (remove_id id ts).

Definition enqueue (j : Job) : M unit :=
  js ← gets jobs; set_jobs (js ++ [j]).

Definition record_call (c : Call) : M unit :=
  cs ← gets calls; set_calls (cs ++ [c]).

(** [await p] for a [pendingTTS] promise [p]: the continuation [j] runs
    as a microtask once [p] is settled. *)
Definition await_promise (p : nat) (j : Job) : M unit :=
  ts ← gets tasks;
  match lookup_id p ts with
  | Some _ => ws ← gets waiters; set_waiters (ws ++ [(p, j)])
  | None => enqueue j
  end.

(** The promise [p] settles: its waiters enter the microtask queue in
    the order in which they started to wait. *)
Definition settle_promise (p : nat) : M unit :=
  ws ← gets waiters;
  js ← gets jobs;
  set_jobs (js ++ map snd (filter (fun e => fst e = p) ws));;
  set_waiters (remove_id p ws).

Definition get_closure (turn : nat) : M Closure :=
  cs ← gets closures; mret (default (mkClosure [] None) (lookup_id turn cs)).

Definition set_closure (turn : nat) (c : Closure) : M unit :=
  cs ← gets closures; set_closures (remove_id turn cs ++ [(turn, c)]).

Definition set_textBuffer (turn : nat) (v : jsstring) : M unit :=
  c ← get_closure turn; set_closure turn (mkClosure v (pendingTTS c)).

Definition set_pendingTTS (turn : nat) (v : option nat) : M unit :=
  c ← get_closure turn; set_closure turn (mkClosure (textBuffer c) v).

(** ** Sending *)

(** The largest count that [sequenceNumber++] still steps over: from
    2^53 on, adding one to a double gives the same double. *)
Definition max_exact : Z := 2 ^ 53.

Definition increment (n : Z) : Z := if n <? max_exact then n + 1 else n.

Definition ws_send (origin : nat) (f : Frame) : M unit :=
  fs ← gets wire; set_wire (fs ++ [(origin, f)]).

(** [ws.send(JSON.stringify(message)); session.sequenceNumber++] for a
    [media] message. *)
Definition send_media (origin : nat) (chunk : Buffer) : M unit :=
  s ← gets session;
  ws_send origin (MediaFrame (streamSid s) (sequenceNumber s) chunk);;
  set_sequenceNumber (increment (sequenceNumber s)).

Definition send_mark (origin : nat) (name : jsstring) : M unit :=
  s ← gets session;
  ws_send origin (MarkFrame (streamSid s) name).

(** [session.sampleRate === 8000 ? 3200 : 6400]. *)
Definition chunk_size (s : Session) : Z :=
  if sampleRate s =? 8000 then 3200 else 6400.

(** ** streamTTSAudio *)

(** The promise of [streamTTSAudio] settles; [ok] tells fulfilled from
    rejected. A greeting runs its [.then] or [.catch]; a fragment's
    [.catch] only logs, and [pendingTTS] is fulfilled either way. *)
Definition stream_settled (id : nat) (owner : Owner) (ok : bool) : M unit :=
  match owner with
  | OwnGreeting => enqueue (if ok then JGreetingThen else JGreetingCatch)
  | OwnFragment _ => settle_promise id
  end.

(** After the loop: the mark, when asked for, the socket open and no
    clear pending. *)
Definition stream_after_loop (id : nat) (sendMark : bool) (owner : Owner) : M unit :=
  s ← gets session;
  rs ← gets readyState;
  (if sendMark && (rs =? 1) && negb (pendingClear s)
   then send_mark id (js "assistant_reply_done")
   else skip);;
  stream_settled id owner true.

(** The loop [for (let i = 0; i < chunks.length; i++)] from the test of
    its condition at [i] to the next pause or to the end of
    [streamTTSAudio]. *)
Definition stream_loop (id : nat) (chunks : list Buffer) (i : nat)
    (sendMark : bool) (owner : Owner) : M unit :=
  if (i <? length chunks)%nat then
    rs ← gets readyState;
    if negb (rs =? 1) then stream_after_loop id sendMark owner
    else
      s ← gets session;
      if pendingClear s then
        set_pendingClear false;;
        stream_after_loop id sendMark owner
      else
        send_media id (default [] (chunks !! i));;
        suspend id (StreamPace chunks i sendMark owner)
  else stream_after_loop id sendMark owner.

(** From the PCM at the session rate to the first pause. *)
Definition stream_chunks (id : nat) (pcmBuffer : Buffer) (sendMark : bool) (owner : Owner)
    : M unit :=
  s ← gets session;
  match chunkPCM pcmBuffer (chunk_size s) with
  | Some chunks => stream_loop id chunks 0 sendMark owner
  | None => skip (* not reached: the chunk size is 3200 or 6400 *)
  end.

(** The call [streamTTSAudio(ws, session, text, sendMark)] up to its
    first [await]; answers the id that names the activation and its
    promise. *)
Definition streamTTSAudio (text : jsstring) (sendMark : bool) (owner : Owner) : M nat :=
  id ← fresh;
  match trim text with
  | [] => stream_settled id owner true;; mret id
  | _ =>
      s ← gets session;
      let voice := default (js "nova") (or_else (customParameters s !! "voice_id") (Some (js "nova"))) in
      record_call (Synthesize id text voice (sampleRate s));;
      suspend id (StreamSynth sendMark owner);;
      mret id
  end.

(** ** sendFallbackSilence *)

Definition silence_mark (id : nat) : M unit :=
  rs ← gets readyState;
  if rs =? 1 then send_mark id (js "fallback_silence_done") else skip.

(** The loop [for (const chunk of chunks)] from one chunk to the next
    pause or to the end. *)
Definition silence_loop (id : nat) (rest : list Buffer) : M unit :=
  match rest with
  | [] => silence_mark id
  | chunk :: rest' =>
      rs ← gets readyState;
      if negb (rs =? 1) then silence_mark id
      else send_media id chunk;; suspend id (SilencePace rest')
  end.

(** [sendFallbackSilence(ws, session)] up to its first pause. A
    negative length makes [Buffer.alloc] throw, which the caller's
    [.catch] logs. *)
Definition sendFallbackSilence : M unit :=
  s ← gets session;
  rs ← gets readyState;
  if negb (isActive s) then skip
  else if negb (rs =? 1) then skip
  else if negb (truthy (streamSid s)) then skip
  else
    let silenceLength := sampleRate s * 2 * 1 in
    if silenceLength <? 0 then skip
    else
      match chunkPCM (repeat Byte.x00 (Z.to_nat silenceLength)) (chunk_size s) with
      | Some chunks => id ← fresh; silence_loop id chunks
      | None => skip
      end.

(** ** Greeting *)

(** [cleanGreetingText(text)] for a non-empty text. *)
Definition cleanGreetingText (text : jsstring) : jsstring :=
  let text :=
    if startsWith text (js "GREETING_TEXT=") then
      let text := substring text (jslen (js "GREETING_TEXT=")) (jslen text) in
      if (startsWith text [34%N] && endsWith text [34%N])
         || (startsWith text [39%N] && endsWith text [39%N])
      then slice text 1 (Some (-1))
      else text
    else text in
  trim text.

(** [session.customParameters?.greeting || process.env.GREETING_TEXT || "Hello! ..."],
    cleaned. *)
Definition greeting_text (w : World) : jsstring :=
  cleanGreetingText
    (default (js "Hello! Thank you for calling. How can I help you today?")
       (or_else (customParameters (session w) !! "greeting")
          (or_else (GREETING_TEXT (env w))
             (Some (js "Hello! Thank you for calling. How can I help you today?"))))).

(** The greeting is started: both flags set, and
    [streamTTSAudio(ws, session, greeting).then(...).catch(...)]. *)
Definition start_greeting : M unit :=
  greeting ← gets greeting_text;
  set_greetingInProgress true;;
  set_greetingSent true;;
  streamTTSAudio greeting true OwnGreeting;;
  skip.

(** ** The turn: processUserAudio *)

Definition readInt16LE (lo hi : byte) : Z :=
  let u := Z.of_N (Byte.to_N lo) + 256 * Z.of_N (Byte.to_N hi) in
  if u <? 32768 then u else u - 65536.

(** [nonZeroSamples] after the loop over the samples; [None] when
    [readInt16LE] throws on a last byte without a partner. *)
Fixpoint count_loud (pcm : Buffer) : option Z :=
  match pcm with
  | [] => Some 0
  | [_] => None
  | lo :: hi :: rest =>
      (fun n => (if 100 <? Z.abs (readInt16LE lo hi) then 1 else 0) + n) <$> count_loud rest
  end.

(** [silenceRatio > 0.95] with [silenceRatio = 1 - nonZeroSamples / sampleCount].
    Without samples the ratio is [NaN] and the test is false; otherwise
    it is decided on the exact quotient, [sampleCount > 20 * nonZeroSamples],
    with which the double arithmetic agrees for every buffer that fits
    in memory. *)
Definition mostly_silence (nonZeroSamples sampleCount : Z) : bool :=
  negb (sampleCount =? 0) && (20 * nonZeroSamples <? sampleCount).

(** The promise of [processUserAudio] settles: the [.finally] of its
    caller will clear [processingAudio]. *)
Definition turn_settled : M unit := enqueue JTurnFinally.

(** [processUserAudio(session)] up to its first [await]. *)
Definition processUserAudio : M unit :=
  s ← gets session;
  match audioBuffer s with
  | [] => turn_settled
  | _ =>
      if pendingClear s then
        set_audioBuffer [];;
        set_pendingClear false;;
        turn_settled
      else
        let combinedAudio := concat (audioBuffer s) in
        set_audioBuffer [];;
        match count_loud combinedAudio with
        | None => turn_settled (* the catch logs the RangeError *)
        | Some nonZeroSamples =>
            if mostly_silence nonZeroSamples (buflen combinedAudio / 2) then turn_settled
            else
              id ← fresh;
              record_call (Transcribe id combinedAudio (sampleRate s));;
              suspend id (TurnStt combinedAudio)
        end
  end.

(** The anchored match of [textBuffer.match]: a run of characters
    other than [.!?], one of [.!?], and the white space after it; with
    the text that follows. *)
Fixpoint sentence_match (s : jsstring) : option (jsstring * jsstring) :=
  match s with
  | [] => None
  | c :: s' =>
      if is_sentence_ender c
      then let r := span is_whitespace s' in Some (c :: fst r, snd r)
      else (fun r => (c :: fst r, snd r)) <$> sentence_match s'
  end.

(** [textBuffer.trim().split(/\s+/).length]. *)
Definition word_count (textBuffer : jsstring) : Z :=
  match trim textBuffer with
  | [] => 1
  | t => Z.of_nat (length (words t))
  end.

(** What a flush takes from the buffer and what it leaves. When the
    buffer holds a sentence mark, the anchored match succeeds (see
    [sentence_match_some]), so the source's fallback on [split] is never
    taken. *)
Definition split_flush (textBuffer : jsstring) (hasSentenceEnd : bool)
    : jsstring * jsstring :=
  if hasSentenceEnd then
    match sentence_match textBuffer with
    | Some (m, rest) => (trim m, rest)
    | None => ([], [])
    end
  else
    let wordBoundary := lastIndexOf textBuffer [32%N] 100 in
    if 20 <? wordBoundary
    then (trim (substring textBuffer 0 wordBoundary),
          trim (slice textBuffer wordBoundary None))
    else ([], []).

(** [onToken(token, false)]. *)
Definition onToken (turn : nat) (token : jsstring) : M unit :=
  match token with
  | [] => skip
  | _ =>
      c ← get_closure turn;
      let textBuffer := textBuffer c ++ token in
      set_textBuffer turn textBuffer;;
      let hasSentenceEnd := existsb is_sentence_ender textBuffer in
      let hasEnoughWords := 8 <=? word_count textBuffer in
      if hasSentenceEnd || (hasEnoughWords && (50 <? jslen textBuffer)) then
        let '(textToSpeak, remainingBuffer) := split_flush textBuffer hasSentenceEnd in
        if 3 <? jslen textToSpeak then
          set_textBuffer turn remainingBuffer;;
          match pendingTTS c with
          | Some p => await_promise p (JStartFragment turn textToSpeak)
          | None =>
              p ← streamTTSAudio textToSpeak false (OwnFragment turn);
              set_pendingTTS turn (Some p)
          end
        else skip
      else skip
  end.

(** The final chunk from [pendingTTS = streamTTSAudio(..., true)] to
    [await pendingTTS]. *)
Definition start_final (turn : nat) (remainingText : jsstring) : M unit :=
  p ← streamTTSAudio remainingText true (OwnFragment turn);
  set_pendingTTS turn (Some p);;
  await_promise p (JFinalDone turn).

(** [onToken('', true)]. *)
Definition onToken_complete (turn : nat) : M unit :=
  c ← get_closure turn;
  match trim (textBuffer c) with
  | [] => skip
  | remainingText =>
      set_textBuffer turn [];;
      match pendingTTS c with
      | Some p => await_promise p (JStartFinal turn remainingText)
      | None => start_final turn remainingText
      end
  end.

(** A microtask runs. *)
Definition run_job (j : Job) : M unit :=
  match j with
  | JStartFragment turn textToSpeak =>
      p ← streamTTSAudio textToSpeak false (OwnFragment turn);
      set_pendingTTS turn (Some p)
  | JStartFinal turn remainingText => start_final turn remainingText
  | JFinalDone turn => set_pendingTTS turn None
  | JGreetingThen => set_greetingInProgress false
  | JGreetingCatch =>
      set_greetingSent false;;
      set_greetingInProgress false;;
      sendFallbackSilence
  | JTurnFinally => set_processingAudio false
  end.

(** ** Messages of the carrier *)

Record Media := mkMedia { payload : option jsstring; track : option jsstring }.

(** A message after [JSON.parse]. [stream_sid] is the value of
    [message.stream_sid || message.streamSid]; [custom_parameters]
    that of [message.<event>?.custom_parameters || message.custom_parameters]. *)
Inductive Inbound :=
| Clear
| Connected (stream_sid : option jsstring) (custom_parameters : option Params)
| Start (stream_sid : option jsstring) (custom_parameters : option Params)
| MediaMsg (stream_sid : option jsstring) (media : option Media)
| Stop
| Mark
| Unhandled.

(** The value of a base64 character, in either alphabet. *)
Definition sextet (c : N) : option N :=
  (if (65 <=? c) && (c <=? 90) then Some (c - 65)
   else if (97 <=? c) && (c <=? 122) then Some (c - 71)
   else if (48 <=? c) && (c <=? 57) then Some (c + 4)
   else if (c =? 43) || (c =? 45) then Some 62
   else if (c =? 47) || (c =? 95) then Some 63
   else None)%N.

Fixpoint sextets (s : jsstring) : list N :=
  match s with
  | [] => []
  | c :: s' =>
      if (c =? 61)%N then []
      else match sextet c with Some v => v :: sextets s' | None => sextets s' end
  end.

Definition byte_of (n : N) : byte := default Byte.x00 (Byte.of_N (n mod 256)).

Fixpoint bytes_of_sextets (l : list N) : Buffer :=
  match l with
  | a :: b :: c :: d :: rest =>
      byte_of (a * 4 + b / 16) :: byte_of (b mod 16 * 16 + c / 4)
      :: byte_of (c mod 4 * 64 + d) :: bytes_of_sextets rest
  | [a; b; c] => [byte_of (a * 4 + b / 16); byte_of (b mod 16 * 16 + c / 4)]
  | [a; b] => [byte_of (a * 4 + b / 16)]
  | _ => []
  end%N.

(** [Buffer.from(payload, 'base64')]: RFC 4648 decoding up to the
    padding, characters outside the alphabet passed over. *)
Definition Buffer_from_base64 (payload : jsstring) : Buffer :=
  bytes_of_sextets (sextets payload).

Definition handleClearEvent : M unit :=
  set_pendingClear true;;
  set_audioBuffer [].

Definition handleConnectedEvent (stream_sid : option jsstring)
    (custom_parameters : option Params) : M unit :=
  (if truthy stream_sid then set_streamSid stream_sid else skip);;
  match custom_parameters with Some p => set_customParameters p | None => skip end;;
  set_isActive true;;
  s ← gets session;
  if truthy (streamSid s) && negb (greetingSent s) && negb (greetingInProgress s)
  then start_greeting
  else skip.

Definition handleStartEvent (stream_sid : option jsstring)
    (custom_parameters : option Params) : M unit :=
  (if truthy stream_sid then set_streamSid stream_sid else skip);;
  match custom_parameters with Some p => set_customParameters p | None => skip end;;
  set_isActive true;;
  s ← gets session;
  if truthy (streamSid s) && negb (greetingSent s) && negb (greetingInProgress s)
  then start_greeting
  else skip.

(** The first block of [handleMediaEvent]: the stream id of a media
    frame is kept when none is known yet, and the greeting started if
    it is still due. *)
Definition capture_stream_sid (stream_sid : option jsstring) : M unit :=
  s ← gets session;
  if negb (truthy (streamSid s)) && truthy stream_sid then
    set_streamSid stream_sid;;
    if negb (greetingSent s) && negb (greetingInProgress s) && isActive s
    then start_greeting
    else skip
  else skip.

(** The rest of [handleMediaEvent]: the echo track is dropped, any
    other payload is decoded and pushed, and a turn started at the
    threshold. *)
Definition buffer_audio (media : Media) : M unit :=
  if bool_decide (track media = Some (js "outbound")) then
    set_outboundTrackLogged true
  else
    let audioChunk := Buffer_from_base64 (default [] (payload media)) in
    set_inboundTrackLogged true;;
    s ← gets session;
    set_audioBuffer (audioBuffer s ++ [audioChunk]);;
    s ← gets session;
    let threshold := sampleRate s * 2 * 2 in
    if (0 <? Z.of_nat (length (audioBuffer s))) && negb (processingAudio s) then
      let totalBytes := foldl (fun sum buf => sum + buflen buf) 0 (audioBuffer s) in
      if threshold <=? totalBytes then
        set_processingAudio true;;
        processUserAudio
      else skip
    else skip.

Definition handleMediaEvent (stream_sid : option jsstring) (media : option Media) : M unit :=
  match media with
  | None => skip
  | Some media =>
      if negb (truthy (payload media)) then skip
      else capture_stream_sid stream_sid;; buffer_audio media
  end.

Definition handleStopEvent : M unit :=
  set_isActive false;;
  s ← gets session;
  (if (0 <? Z.of_nat (length (audioBuffer s))) && negb (processingAudio s) then
     set_processingAudio true;;
     processUserAudio
   else skip);;
  rs ← gets readyState;
  if rs =? 1 then set_readyState 2 else skip.

(** The ['message'] listener of the socket. *)
Definition on_message (m : Inbound) : M unit :=
  match m with
  | Clear => handleClearEvent
  | Connected sid params => handleConnectedEvent sid params
  | Start sid params => handleStartEvent sid params
  | MediaMsg sid media => handleMediaEvent sid media
  | Stop => handleStopEvent
  | Mark => skip
  | Unhandled => skip
  end.

(** ** Completions from outside *)

(** [ttsService.synthesize] settles: [Some (buffer, sourceSampleRate)]
    or a rejection, which [streamTTSAudio] logs and rethrows. *)
Definition on_synthesized (id : nat) (result : option (Buffer * Z)) : M unit :=
  ts ← gets tasks;
  match lookup_id id ts with
  | Some (StreamSynth sendMark owner) =>
      release id;;
      match result with
      | None => stream_settled id owner false
      | Some (audioBuffer, sourceSampleRate) =>
          s ← gets session;
          if negb (sourceSampleRate =? sampleRate s) then
            record_call (Resample id audioBuffer sourceSampleRate (sampleRate s));;
            suspend id (StreamResample sendMark owner)
          else stream_chunks id audioBuffer sendMark owner
      end
  | _ => skip
  end.

Definition on_resampled (id : nat) (result : option Buffer) : M unit :=
  ts ← gets tasks;
  match lookup_id id ts with
  | Some (StreamResample sendMark owner) =>
      release id;;
      match result with
      | None => stream_settled id owner false
      | Some pcmBuffer => stream_chunks id pcmBuffer sendMark owner
      end
  | _ => skip
  end.

(** A 10 ms pause ends. *)
Definition on_timer (id : nat) : M unit :=
  ts ← gets tasks;
  match lookup_id id ts with
  | Some (StreamPace chunks i sendMark owner) =>
      release id;;
      stream_loop id chunks (S i) sendMark owner
  | Some (SilencePace rest) =>
      release id;;
      silence_loop id rest
  | _ => skip
  end.

(** [sttService.transcribePCM] answers a text or [null]. Then
    [processUserAudio] goes on to the first [await] inside
    [generateWithGeminiStreaming]. *)
Definition on_transcribed (id : nat) (transcribedText : option jsstring) : M unit :=
  ts ← gets tasks;
  match lookup_id id ts with
  | Some (TurnStt _) =>
      release id;;
      match trim (default [] transcribedText) with
      | [] => turn_settled
      | userText =>
          set_closure id (mkClosure [] None);;
          key ← gets (fun w => GEMINI_API_KEY (env w));
          if negb (truthy key) then turn_settled
          else suspend id (LlmSetup userText)
      end
  | _ => skip
  end.

(** The persona (asked from the store when the custom parameters give
    none) and the knowledge-base chunks have arrived: the system
    message is ensured, the prompt built and the request sent. *)
Definition on_llm_setup (id : nat) (mongoPersona : jsstring)
    (contextChunks : list jsstring) : M unit :=
  ts ← gets tasks;
  match lookup_id id ts with
  | Some (LlmSetup userText) =>
      update_history (fun s =>
        ensureSystemMessage (customParameters s) mongoPersona (conversationHistory s));;
      s ← gets session;
      record_call (Generate id (build_prompt (conversationHistory s) contextChunks userText));;
      suspend id (LlmStream [])
  | _ => skip
  end.

(** The deltas of one [reader.read()], each given to [onToken] at
    once. *)
Definition read_deltas (id : nat) (fullReply : jsstring) (deltas : list jsstring) : M unit :=
  for_each (filter (fun d => d <> []) deltas) (onToken id);;
  suspend id (LlmStream (fullReply ++ concat deltas)).

Definition on_llm_read (id : nat) (deltas : list jsstring) : M unit :=
  ts ← gets tasks;
  match lookup_id id ts with
  | Some (LlmStream fullReply) => read_deltas id fullReply deltas
  | _ => skip
  end.

(** The stream is done: the delta left in the line buffer, if any, the
    completion signal, and the assistant entry. *)
Definition on_llm_done (id : nat) (lastDelta : option jsstring) : M unit :=
  ts ← gets tasks;
  match lookup_id id ts with
  | Some (LlmStream fullReply) =>
      release id;;
      let fullReply := fullReply ++ default [] lastDelta in
      onToken id (default [] lastDelta);;
      match fullReply with
      | [] => skip
      | _ => onToken_complete id
      end;;
      match trim fullReply with
      | [] => skip
      | replyText =>
          update_history (fun s =>
            conversationHistory s ++ [mkMessage assistant (postProcessReply replyText)])
      end;;
      turn_settled
  | _ => skip
  end.

(** The request or the stream fails: the [catch] signals completion and
    answers [null]. *)
Definition on_llm_failed (id : nat) : M unit :=
  ts ← gets tasks;
  match lookup_id id ts with
  | Some (LlmSetup _) | Some (LlmStream _) =>
      release id;;
      onToken_complete id;;
      turn_settled
  | _ => skip
  end.

(** The first microtask of the queue runs. *)
Definition on_tick : M unit :=
  js ← gets jobs;
  match js with
  | [] => skip
  | j :: rest => set_jobs rest;; run_job j
  end.

(** ** The event loop

    Node runs one callback at a time and, when it has returned, the
    queued microtasks, one after the other, before the next callback.
    An [Event] is such a callback (a message of the carrier, the close
    of the socket, the completion of a request or of a pause) or the
    run of one microtask ([EvTick]); [enabled] says which events can
    come next. The continuations that wait for a promise are queued in
    the order in which they began to wait, as the reactions of a
    promise are; the jobs by which the promise machinery passes a
    settlement along a [.then/.catch] chain carry no code of the
    program and are not counted. *)

Inductive Event :=
| EvMessage (m : Inbound)
| EvClose
| EvSynthesized (id : nat) (result : option (Buffer * Z))
| EvResampled (id : nat) (result : option Buffer)
| EvTimer (id : nat)
| EvTranscribed (id : nat) (transcribedText : option jsstring)
| EvLlmSetup (id : nat) (mongoPersona : jsstring) (contextChunks : list jsstring)
| EvLlmRead (id : nat) (deltas : list jsstring)
| EvLlmDone (id : nat) (lastDelta : option jsstring)
| EvLlmFailed (id : nat)
| EvTick.

Definition handle (e : Event) : M unit :=
  match e with
  | EvMessage m => on_message m
  | EvClose => set_readyState 3
  | EvSynthesized id result => on_synthesized id result
  | EvResampled id result => on_resampled id result
  | EvTimer id => on_timer id
  | EvTranscribed id text => on_transcribed id text
  | EvLlmSetup id persona chunks => on_llm_setup id persona chunks
  | EvLlmRead id deltas => on_llm_read id deltas
  | EvLlmDone id lastDelta => on_llm_done id lastDelta
  | EvLlmFailed id => on_llm_failed id
  | EvTick => on_tick
  end.

Definition step (w : World) (e : Event) : World := exec (handle e) w.

Definition run (w : World) (events : list Event) : World := foldl step w events.

(** An event can happen: a microtask only when one is queued, anything
    else only once the queue is empty; a message while the socket is
    open or closing; a completion for an activation that waits for
    it. *)
Definition enabled (w : World) (e : Event) : bool :=
  match e with
  | EvTick => match jobs w with [] => false | _ => true end
  | _ =>
      match jobs w with
      | [] =>
          match e with
          | EvMessage _ => (readyState w =? 1) || (readyState w =? 2)
          | EvClose => negb (readyState w =? 3)
          | EvSynthesized id _ =>
              match lookup_id id (tasks w) with Some (StreamSynth _ _) => true | _ => false end
          | EvResampled id _ =>
              match lookup_id id (tasks w) with Some (StreamResample _ _) => true | _ => false end
          | EvTimer id =>
              match lookup_id id (tasks w) with
              | Some (StreamPace _ _ _ _) | Some (SilencePace _) => true
              | _ => false
              end
          | EvTranscribed id _ =>
              match lookup_id id (tasks w) with Some (TurnStt _) => true | _ => false end
          | EvLlmSetup id _ _ =>
              match lookup_id id (tasks w) with Some (LlmSetup _) => true | _ => false end
          | EvLlmRead id _ | EvLlmDone id _ =>
              match lookup_id id (tasks w) with Some (LlmStream _) => true | _ => false end
          | EvLlmFailed id =>
              match lookup_id id (tasks w) with
              | Some (LlmSetup _) | Some (LlmStream _) => true
              | _ => false
              end
          | EvTick => false
          end
      | _ => false
      end
  end.

(** Every event of the list can happen when its turn comes. *)
Fixpoint feasible (w : World) (events : list Event) : bool :=
  match events with
  | [] => true
  | e :: rest => enabled w e && feasible (step w e) rest
  end.

(** The world when the carrier has connected: the session as the
    ['connection'] handler creates it, the socket open. *)
Definition connect (env : Env) (sampleRate : Z) : World :=
  mkWorld env
    (mkSession None sampleRate [] [] ∅ 0 false false false false false false false)
    1 [] [] [] [] [] [] 0.

(** ** Observations on the wire *)

Definition media_numbers (fs : list (nat * Frame)) : list Z :=
  omap (fun f => match snd f with MediaFrame _ n _ => Some n | _ => None end) fs.

(** The activations whose [media] frames are on the wire, in the order
    of the frames. *)
Definition media_origins (fs : list (nat * Frame)) : list nat :=
  omap (fun f => match snd f with MediaFrame _ _ _ => Some (fst f) | _ => None end) fs.

Definition marks (fs : list (nat * Frame)) : list jsstring :=
  omap (fun f => match snd f with MarkFrame _ name => Some name | _ => None end) fs.

Definition transcribed (cs : list Call) : list Buffer :=
  omap (fun c => match c with Transcribe _ pcm _ => Some pcm | _ => None end) cs.

Definition prompts (cs : list Call) : list jsstring :=
  omap (fun c => match c with Generate _ prompt => Some prompt | _ => None end) cs.

Definition synthesized (cs : list Call) : list (nat * jsstring) :=
  omap (fun c => match c with Synthesize id text _ _ => Some (id, text) | _ => None end) cs.

(** ** What a session maintains *)

(** The number on the [k]-th media frame of a session (counting from
    0). *)
Definition counter (k : nat) : Z := Z.min (Z.of_nat k) max_exact.

(** The media frames on the wire are numbered by [counter], and the
    session holds the number of the next one. *)
Definition numbered (fs : list (nat * Frame)) (next : Z) : Prop :=
  media_numbers fs = map counter (seq 0 (length (media_numbers fs)))
  /\ next = counter (length (media_numbers fs)).

(** No entry of the history is a user entry. *)
Definition no_user (history : list Message) : Prop :=
  Forall (fun m => role m <> user) history.

Definition Inv (w : World) : Prop :=
  numbered (wire w) (sequenceNumber (session w))
  /\ no_user (conversationHistory (session w)).

Definition Preserves {A} (m : M A) : Prop := forall w, Inv w -> Inv (snd (m w)).

(** The part of the session that decides what happens to inbound
    audio. *)
Definition audio_state (w : World) : list Buffer * bool * Z * bool :=
  (audioBuffer (session w), processingAudio (session w), sampleRate (session w),
   pendingClear (session w)).

End Server.

(* ================================================================== *)
(** * Event sequences used in the examples *)
(* ================================================================== *)

Module Scenario.

Import AI Server.

Definition env0 : Env := mkEnv None (Some (js "key")).

Definition S1 : jsstring := js "S1".

(** 32004 bytes of loud audio (each sample is [0x8080]) in base64: two
    seconds at 8 kHz. *)
Definition loud_payload : jsstring := concat (repeat (js "gICA") (Z.to_nat 10668)).

Definition inbound (p : jsstring) : Event :=
  EvMessage (MediaMsg None (Some (mkMedia (Some p) (Some (js "inbound"))))).

(** Synthesized speech of [n] bytes at 8 kHz. *)
Definition speech (n : Z) : option (Buffer * Z) := Some (repeat Byte.x01 (Z.to_nat n), 8000).

(** The carrier connects with a stream id, and the greeting (one chunk)
    is streamed to its end. *)
Definition greeted : list Event :=
  [EvMessage (Connected (Some S1) None); EvSynthesized 0 (speech 3200);
   EvTimer 0; EvTick].

(** Then two seconds of speech arrive, are transcribed, and the request
    to the language model is sent. *)
Definition asked : list Event :=
  greeted ++
  [inbound loud_payload; EvTranscribed 1 (Some (js "what is the price"));
   EvLlmSetup 1 (js "You are Parvati.") []].

(** The model answers two words; the final chunk is synthesized to two
    frames; after the first of them the carrier sends [clear]. *)
Definition barge_in : list Event :=
  asked ++
  [EvLlmRead 1 [js "Sure thing"]; EvLlmDone 1 None; EvTick;
   EvSynthesized 2 (speech 6400); EvMessage Clear].

(** The model answers three sentences while the first is still being
    synthesized; the audio of the second and the third takes two frames
    each. *)
Definition three_sentences : list Event :=
  asked ++
  [EvLlmRead 1 [js "First sentence here. "];
   EvLlmRead 1 [js "Second sentence here. "];
   EvLlmRead 1 [js "Third sentence here. "];
   EvSynthesized 2 (speech 3200); EvTimer 2; EvTick; EvTick;
   EvSynthesized 3 (speech 6400); EvSynthesized 4 (speech 6400);
   EvTimer 3; EvTimer 4].

(** As [three_sentences], with audio of three frames for the second and
    the third sentence and a [clear] after the first frame of each. *)
Definition clear_between_two : list Event :=
  asked ++
  [EvLlmRead 1 [js "First sentence here. "];
   EvLlmRead 1 [js "Second sentence here. "];
   EvLlmRead 1 [js "Third sentence here. "];
   EvSynthesized 2 (speech 3200); EvTimer 2; EvTick; EvTick;
   EvSynthesized 3 (speech 9600); EvSynthesized 4 (speech 9600);
   EvMessage Clear].

(** The model answers two sentences; the second waits until the two
    frames of the first are out. *)
Definition two_sentences : list Event :=
  asked ++
  [EvLlmRead 1 [js "First sentence here. "];
   EvLlmRead 1 [js "Second sentence here. "];
   EvSynthesized 2 (speech 6400); EvTimer 2; EvTimer 2; EvTick;
   EvSynthesized 3 (speech 6400); EvTimer 3; EvTimer 3].

(** A turn that is answered, and the start of the next one. *)
Definition two_turns : list Event :=
  asked ++
  [EvLlmRead 1 [js "It costs ten rupees."]; EvLlmDone 1 None; EvTick;
   inbound loud_payload; EvTranscribed 3 (Some (js "and the discount"));
   EvLlmSetup 3 (js "You are Parvati.") []].

End Scenario.

(* ================================================================== *)
(** * Base64 text of a buffer ([chunk.toString('base64')], server.js) *)
(* ================================================================== *)

Module Base64.

(** The character of a six-bit value in the standard alphabet. *)
Definition base64_char (v : N) : N :=
  (if v <? 26 then v + 65
   else if v <? 52 then v + 71
   else if v <? 62 then v - 4
   else if v =? 62 then 43
   else 47)%N.

(** [buffer.toString('base64')]: RFC 4648 with padding; three bytes
    give four characters, a rest of two or one byte is padded with
    ['=']. This is the text that the [payload] of a media frame
    carries. *)
Fixpoint toString_base64 (b : Buffer) : jsstring :=
  match b with
  | x :: y :: z :: rest =>
      let x := Byte.to_N x in let y := Byte.to_N y in let z := Byte.to_N z in
      (base64_char (x / 4) :: base64_char (x mod 4 * 16 + y / 16)
       :: base64_char (y mod 16 * 4 + z / 64) :: base64_char (z mod 64)
       :: toString_base64 rest)%N
  | [x; y] =>
      let x := Byte.to_N x in let y := Byte.to_N y in
      [base64_char (x / 4); base64_char (x mod 4 * 16 + y / 16);
       base64_char (y mod 16 * 4); 61]%N
  | [x] =>
      let x := Byte.to_N x in
      [base64_char (x / 4); base64_char (x mod 4 * 16); 61; 61]%N
  | [] => []
  end.

End Base64.

(* ================================================================== *)
(** * Properties of a session, stated on the event loop *)
(* ================================================================== *)

Module SessionProps.

Import AI Server.

(** Every run of [m] relates the world before to the world after by
    [R]. *)
Definition Keeps (R : World -> World -> Prop) {A} (m : M A) : Prop :=
  forall w, R w (snd (m w)).

(** From [P] before to [Q] after. *)
Definition Hoare (P : World -> Prop) {A} (m : M A) (Q : World -> Prop) : Prop :=
  forall w, P w -> Q (snd (m w)).

(** A socket that has left the state OPEN stays so, and nothing is
    sent on it. *)
Definition quiet (w w' : World) : Prop :=
  readyState w <> 1 -> readyState w' <> 1 /\ wire w' = wire w.

(** The activations of [processUserAudio]: waiting for the
    transcription, for the model, or for the [.finally] of the caller. *)
Definition is_turn_task (t : Task) : bool :=
  match t with
  | TurnStt _ | LlmSetup _ | LlmStream _ => true
  | _ => false
  end.

Definition is_turn_job (j : Job) : bool :=
  match j with JTurnFinally => true | _ => false end.

Definition turn_tasks (w : World) : list (nat * Task) :=
  filter (fun e => is_turn_task (snd e) = true) (tasks w).

Definition turn_jobs (w : World) : list Job :=
  filter (fun j => is_turn_job j = true) (jobs w).

(** The number of turns that have been started and whose
    [processingAudio = false] has not run yet. *)
Definition turns_in_flight (w : World) : nat :=
  length (turn_tasks w) + length (turn_jobs w).

(** No continuation of a turn's end waits for a [pendingTTS] promise. *)
Definition plain_waiters (w : World) : Prop :=
  Forall (fun e => is_turn_job (snd e) = false) (waiters w).

(** Nothing of a turn is started or ended. *)
Definition harmless (w w' : World) : Prop :=
  plain_waiters w ->
  plain_waiters w'
  /\ turn_tasks w' `sublist_of` turn_tasks w
  /\ turn_jobs w' `sublist_of` turn_jobs w
  /\ processingAudio (session w') = processingAudio (session w).

Definition one_turn (w : World) : Prop :=
  plain_waiters w
  /\ (turns_in_flight w <= 1)%nat
  /\ (processingAudio (session w) = false -> turns_in_flight w = 0%nat).

(** The flag is set and no turn is in flight: where a turn starts, and
    where it goes on after its activation was released. *)
Definition clean (w : World) : Prop :=
  plain_waiters w /\ turn_tasks w = [] /\ turn_jobs w = []
  /\ processingAudio (session w) = true.

(** The flag is set and the turn in flight, if any, is the activation
    [id]. *)
Definition mine (id : nat) (w : World) : Prop :=
  plain_waiters w /\ Forall (fun e => fst e = id) (turn_tasks w) /\ turn_jobs w = []
  /\ processingAudio (session w) = true.

(** The chunks of audio on the wire. *)
Definition media_payloads (fs : list (nat * Frame)) : list Buffer :=
  omap (fun f => match snd f with MediaFrame _ _ payload => Some payload | _ => None end) fs.

End SessionProps.

(* ================================================================== *)
(** * The WAV file sent to the transcription service
      (utils/sttService.js, [pcmToWavFile]; the same header is written
      by [resamplePCM] in utils/audioConverter.js) *)
(* ================================================================== *)

Module Wav.

(** [Buffer.alloc(n)]. *)
Definition alloc (n : nat) : Buffer := repeat Byte.x00 n.

(** The bytes of [buf] from [off] on overwritten by [bytes]. *)
Definition write_at (buf : Buffer) (off : nat) (bytes : Buffer) : Buffer :=
  take off buf ++ bytes ++ drop (off + length bytes) buf.

(** The bytes of an ASCII literal. *)
Definition ascii_bytes (s : string) : Buffer :=
  map byte_of_ascii (list_ascii_of_string s).

(** [buf.write(string, offset)]: as many bytes of the string as fit. *)
Definition write (buf : Buffer) (s : string) (off : nat) : Buffer :=
  write_at buf off (take (length buf - off) (ascii_bytes s)).

(** The [n] low bytes of [v], lowest first. *)
Definition le_bytes (n : nat) (v : Z) : Buffer :=
  map (fun k => Server.byte_of (Z.to_N ((v / 256 ^ Z.of_nat k) mod 256))) (seq 0 n).

(** [buf.writeUInt32LE(value, offset)]; [None] where Node throws a
    [RangeError]: a value outside [0, 2^32 - 1] or an offset at which
    four bytes do not fit. *)
Definition writeUInt32LE (buf : Buffer) (value : Z) (off : nat) : option Buffer :=
  if (0 <=? value) && (value <=? 4294967295) && (off + 4 <=? length buf)%nat
  then Some (write_at buf off (le_bytes 4 value))
  else None.

(** [buf.writeUInt16LE(value, offset)]. *)
Definition writeUInt16LE (buf : Buffer) (value : Z) (off : nat) : option Buffer :=
  if (0 <=? value) && (value <=? 65535) && (off + 2 <=? length buf)%nat
  then Some (write_at buf off (le_bytes 2 value))
  else None.

(** The header that [pcmToWavFile] builds for [dataSize] bytes of
    16-bit mono PCM. *)
Definition wavHeader (sampleRate dataSize : Z) : option Buffer :=
  let numChannels := 1 in
  let bitsPerSample := 16 in
  let byteRate := sampleRate * numChannels * (bitsPerSample / 8) in
  let blockAlign := numChannels * (bitsPerSample / 8) in
  let fileSize := 36 + dataSize in
  let wavHeader := alloc 44 in
  let wavHeader := write wavHeader "RIFF" 0 in
  wavHeader ← writeUInt32LE wavHeader fileSize 4;
  let wavHeader := write wavHeader "WAVE" 8 in
  let wavHeader := write wavHeader "fmt " 12 in
  wavHeader ← writeUInt32LE wavHeader 16 16;
  wavHeader ← writeUInt16LE wavHeader 1 20;
  wavHeader ← writeUInt16LE wavHeader numChannels 22;
  wavHeader ← writeUInt32LE wavHeader sampleRate 24;
  wavHeader ← writeUInt32LE wavHeader byteRate 28;
  wavHeader ← writeUInt16LE wavHeader blockAlign 32;
  wavHeader ← writeUInt16LE wavHeader bitsPerSample 34;
  let wavHeader := write wavHeader "data" 36 in
  writeUInt32LE wavHeader dataSize 40.

(** The contents of the file that [pcmToWavFile] writes:
    [Buffer.concat([wavHeader, pcmBuffer])]. *)
Definition pcmToWavFile (pcmBuffer : Buffer) (sampleRate : Z) : option Buffer :=
  wavHeader ← wavHeader sampleRate (buflen pcmBuffer);
  Some (wavHeader ++ pcmBuffer).

(** How a reader of the format takes a field: an unsigned integer of
    [n] bytes at [off], lowest byte first. *)
Definition le_value (bytes : Buffer) : Z :=
  foldr (fun b acc => Z.of_N (Byte.to_N b) + 256 * acc) 0 bytes.

Definition readUIntLE (buf : Buffer) (off n : nat) : option Z :=
  if (off + n <=? length buf)%nat then Some (le_value (take n (drop off buf))) else None.

End Wav.

(* ================================================================== *)
(** * Speech synthesis: retries and the fallback provider
      (utils/ttsService.js, [synthesizeOpenAI] and [synthesize]) *)
(* ================================================================== *)

Module Tts.

(** What [synthesizeOpenAI] reads of the error of a failed request. *)
Record RequestError := mkRequestError {
  status : option Z;               (* error.response?.status *)
  reason : jsstring;               (* errorData?.error?.message || error.message || '' *)
  errorType : option jsstring;     (* errorData?.error?.type *)
  retryAfter : option (option Z);  (* the retry-after header: [None] when absent or
                                      empty, else what parseInt reads of it, [Some None]
                                      being NaN *)
  detail : jsstring                (* the text that the last block derives from
                                      response.data or from the message, 'Unknown error'
                                      when the error has neither *)
}.

(** The answer to one request. *)
Inductive Response :=
| Audio (pcm : Buffer)
| Failed (error : RequestError).

(** An error object, as the [catch] of [synthesize] reads it. *)
Record Thrown := mkThrown {
  thrown_status : option Z;      (* error.response?.status || error.status *)
  thrown_message : jsstring;     (* error.message || String(error) *)
  thrown_type : option jsstring  (* errorData?.error?.type *)
}.

(** [new Error(message)]. *)
Definition new_Error (message : jsstring) : Thrown := mkThrown None message None.

Inductive Outcome :=
| Returned (pcm : Buffer)
| Threw (error : Thrown).

Definition mentions_quota (message : jsstring) (type : option jsstring) : bool :=
  includes (toLowerCase message) (js "quota")
  || includes (toLowerCase message) (js "billing")
  || bool_decide (type = Some (js "insufficient_quota")).

(** [Math.min(1000 * Math.pow(2, attempt), cap)]. *)
Definition backoff (attempt : nat) (cap : Z) : Z :=
  Z.min (1000 * 2 ^ Z.of_nat attempt) cap.

(** How the retry loop ends: with the audio, or past the loop with the
    last error. *)
Inductive LoopEnd :=
| Return (pcmBuffer : Buffer)
| Exit (lastError : option RequestError).

(** [requests] counts the requests sent; [waits] are the delays slept
    between them, in milliseconds ([None]: NaN). *)
Record Trace (R : Type) := mkTrace {
  ending : R;
  requests : nat;
  waits : list (option Z)
}.
Arguments mkTrace {R}.
Arguments ending {R}.
Arguments requests {R}.
Arguments waits {R}.

(** The loop [for (attempt = 0; attempt <= maxRetries; attempt++)];
    [iterations] is the number of values of [attempt] left. *)
Fixpoint retry_loop (answer : nat -> Response) (maxRetries : Z) (iterations attempt : nat)
    (lastError : option RequestError) (slept : list (option Z)) : Trace LoopEnd :=
  match iterations with
  | O => mkTrace (Exit lastError) attempt slept
  | S iterations' =>
      match answer attempt with
      | Audio pcmBuffer => mkTrace (Return pcmBuffer) (S attempt) slept
      | Failed error =>
          let statusCode := status error in
          if bool_decide (statusCode = Some 429) then
            if mentions_quota (reason error) (errorType error) then
              mkTrace (Exit (Some error)) (S attempt) slept
            else
              let waitTime :=
                match retryAfter error with
                | Some seconds => (fun n => n * 1000) <$> seconds
                | None => Some (backoff attempt 30000)
                end in
              if Z.of_nat attempt <? maxRetries then
                retry_loop answer maxRetries iterations' (S attempt) (Some error)
                  (slept ++ [waitTime])
              else
                retry_loop answer maxRetries iterations' (S attempt) (Some error) slept
          else if match statusCode with
                  | Some s => (500 <=? s) && (s <? 600)
                  | None => false
                  end then
            let waitTime := backoff attempt 10000 in
            if Z.of_nat attempt <? maxRetries then
              retry_loop answer maxRetries iterations' (S attempt) (Some error)
                (slept ++ [Some waitTime])
            else
              retry_loop answer maxRetries iterations' (S attempt) (Some error) slept
          else
            mkTrace (Exit (Some error)) (S attempt) slept
      end
  end.

(** The decimal digits of a number that is not negative. *)
Fixpoint digits (fuel : nat) (n : Z) (acc : jsstring) : jsstring :=
  let acc' := Z.to_N (48 + n mod 10) :: acc in
  match fuel with
  | O => acc'
  | S fuel' => if n <? 10 then acc' else digits fuel' (n / 10) acc'
  end.

(** An integer in a template literal. *)
Definition number_text (n : Z) : jsstring :=
  if n <? 0 then 45%N :: digits (Z.to_nat (- n)) (- n) []
  else digits (Z.to_nat n) n [].

(** [synthesizeOpenAI(text, voice, sampleRate, maxRetries)], the
    answers of the service being [answer 0], [answer 1], ... *)
Definition synthesizeOpenAI (openaiApiKey : option jsstring) (answer : nat -> Response)
    (maxRetries : Z) : Trace Outcome :=
  if negb (truthy openaiApiKey) then
    mkTrace (Threw (new_Error (js "OPENAI_API_KEY not configured"))) 0 []
  else
    let t := retry_loop answer maxRetries (Z.to_nat (maxRetries + 1)) 0 None [] in
    match ending t with
    | Return pcmBuffer => mkTrace (Returned pcmBuffer) (requests t) (waits t)
    | Exit lastError =>
        let errorMessage :=
          match lastError with
          | Some error => detail error
          | None => js "Unknown error"
          end in
        mkTrace
          (Threw (new_Error (js "OpenAI TTS failed after " ++ number_text (maxRetries + 1)
                             ++ js " attempts: " ++ errorMessage)))
          (requests t) (waits t)
    end.

Inductive Provider := OpenAI | Deepgram.

Inductive Synthesis :=
| Speech (buffer : Buffer) (sourceSampleRate : Z)
| Error (error : Thrown).

(** The end of [synthesize] when it turns to Deepgram, whose
    [synthesizeDeepgram] returns PCM at the rate asked or throws. *)
Definition from_deepgram (deepgram : Outcome) (sampleRate : Z) : Synthesis :=
  match deepgram with
  | Returned buffer => Speech buffer sampleRate
  | Threw error => Error error
  end.

(** [synthesize(text, voice, sampleRate)], with the providers asked, in
    order. [synthesizeOpenAI] is called without [maxRetries], which is
    then 3. *)
Definition synthesize (openaiApiKey deepgramApiKey : option jsstring)
    (answer : nat -> Response) (deepgram : Outcome) (sampleRate : Z)
  : Synthesis * list Provider :=
  if truthy openaiApiKey then
    match ending (synthesizeOpenAI openaiApiKey answer 3) with
    | Returned buffer => (Speech buffer 24000, [OpenAI])
    | Threw error =>
        let isQuotaError :=
          bool_decide (thrown_status error = Some 429)
          || mentions_quota (thrown_message error) (thrown_type error) in
        if isQuotaError && truthy deepgramApiKey then
          (from_deepgram deepgram sampleRate, [OpenAI; Deepgram])
        else (Error error, [OpenAI])
    end
  else if truthy deepgramApiKey then
    (from_deepgram deepgram sampleRate, [Deepgram])
  else
    (Error (new_Error
       (js "No TTS provider configured. Please set OPENAI_API_KEY or DEEPGRAM_API_KEY.")),
     []).

(** The errors after which the loop of [synthesizeOpenAI] goes on, if
    attempts are left: a 429 that does not speak of quota, and the 5xx. *)
Definition retried (error : RequestError) : bool :=
  match status error with
  | Some s =>
      if s =? 429 then negb (mentions_quota (reason error) (errorType error))
      else (500 <=? s) && (s <? 600)
  | None => false
  end.

(** The delay slept after such an error, at [attempt]. *)
Definition slept_after (error : RequestError) (attempt : nat) : option Z :=
  if bool_decide (status error = Some 429) then
    match retryAfter error with
    | Some seconds => (fun n => n * 1000) <$> seconds
    | None => Some (backoff attempt 30000)
    end
  else Some (backoff attempt 10000).

End Tts.

(* ================================================================== *)
(** * Uploaded documents: the filter of the route and the type of the
      file (routes/documentRoutes.js, [fileFilter];
      utils/fileParser.js, [getFileType]) *)
(* ================================================================== *)

Module FileParser.

Inductive FileType := txt | md | docx | pdf.

(** [s.split('.').pop()]: what follows the last dot of [s], all of [s]
    when it has none. *)
Fixpoint last_segment_go (s cur : jsstring) : jsstring :=
  match s with
  | [] => rev cur
  | c :: s' =>
      if (c =? 46)%N then last_segment_go s' [] else last_segment_go s' (c :: cur)
  end.

Definition last_segment (s : jsstring) : jsstring := last_segment_go s [].

(** The tests of [getFileType] on a mimetype that is not empty. *)
Definition type_of_mimetype (mimetype : jsstring) : option FileType :=
  if bool_decide (mimetype = js "text/plain") || includes mimetype (js "text/plain")
  then Some txt
  else if bool_decide (mimetype = js "text/markdown") || includes mimetype (js "markdown")
  then Some md
  else if bool_decide
            (mimetype = js "application/vnd.openxmlformats-officedocument.wordprocessingml.document")
          || includes mimetype (js "wordprocessingml")
          || includes mimetype (js "docx")
  then Some docx
  else if bool_decide (mimetype = js "application/pdf") || includes mimetype (js "pdf")
  then Some pdf
  else None.

(** The [switch] on the extension; [None] for its [default], which
    throws. *)
Definition type_of_extension (ext : jsstring) : option FileType :=
  if bool_decide (ext = js "txt") then Some txt
  else if bool_decide (ext = js "md") || bool_decide (ext = js "markdown") then Some md
  else if bool_decide (ext = js "docx") then Some docx
  else if bool_decide (ext = js "pdf") then Some pdf
  else None.

(** [getFileType(mimetype, filename)]; [None] when it throws
    "Unsupported file extension". *)
Definition getFileType (mimetype : option jsstring) (filename : jsstring)
  : option FileType :=
  match (if truthy mimetype then type_of_mimetype (default [] mimetype) else None) with
  | Some fileType => Some fileType
  | None => type_of_extension (last_segment (toLowerCase filename))
  end.

Definition allowedMimes : list jsstring :=
  [ js "text/plain"; js "text/markdown";
    js "application/vnd.openxmlformats-officedocument.wordprocessingml.document";
    js "application/pdf" ].

Definition allowedExts : list jsstring :=
  [ js ".txt"; js ".md"; js ".docx"; js ".pdf" ].

(** The [fileFilter] of the upload route: whether the file is accepted. *)
Definition fileFilter (mimetype originalname : jsstring) : bool :=
  let ext := js "." ++ toLowerCase (last_segment originalname) in
  bool_decide (mimetype ∈ allowedMimes) || bool_decide (ext ∈ allowedExts).

End FileParser.

(* ================================================================== *)
(** * The knowledge base read from a file (utils/knowledgebase.js,
      [findRelevantSections]) *)
(* ================================================================== *)

Module FileKB.

Import KB.

(** [s.split(/\s+/)]: the pieces between the runs of whitespace, the
    empty pieces before a leading run and after a trailing one among
    them. *)
Fixpoint split_whitespace_go (s cur : jsstring) (in_run : bool) : list jsstring :=
  match s with
  | [] => [rev cur]
  | c :: s' =>
      if is_whitespace c then
        if in_run then split_whitespace_go s' cur true
        else rev cur :: split_whitespace_go s' [] true
      else split_whitespace_go s' (c :: cur) false
  end.

Definition split_whitespace (s : jsstring) : list jsstring :=
  split_whitespace_go s [] false.

(** The callback of [q.split(/\s+/).forEach], on twice the score. *)
Definition count_word (text : jsstring) (score : Z) (word : jsstring) : Z :=
  if negb (truthy (Some word)) || (jslen word <? 2) then score
  else if includes text word then score + 2
  else score.

(** The callback of [kbSections.map]. The source adds 1 for a word and
    0.5 for a heading; [score] holds twice that sum, which orders and
    filters the sections in the same way. *)
Definition score_section (q : jsstring) (section : jsstring) (idx : Z) : Scored :=
  let text := toLowerCase section in
  let score := foldl (count_word text) 0 (split_whitespace q) in
  let score := if heading_like section then score + 1 else score in
  mkScored section score idx.

(** [findRelevantSections(query, maxSections)] on the sections that
    [loadKnowledgebase] returned. *)
Definition findRelevantSections (kbSections : list jsstring) (query : option jsstring)
    (maxSections : Z) : list jsstring :=
  if (Z.of_nat (length kbSections) =? 0) || negb (truthy query) then []
  else
    let q := toLowerCase (default [] query) in
    let scored := sort_scored (map_indexed (score_section q) 0 kbSections) in
    map chunk (slice (filter (fun item => 0 < score item) scored) 0 (Some maxSections)).

(** A section holds, in any case, a word of the query of two
    characters or more. *)
Definition holds_word (query section : jsstring) : Prop :=
  exists word, word ∈ split_whitespace (toLowerCase query)
               /\ 2 <= jslen word
               /\ includes (toLowerCase section) word = true.

End FileKB.

(* ================================================================== *)
(** * The log buffer of the monitoring service
      (utils/monitoringService.js, [addLog] and [getRecentLogs];
      routes/monitoringRoutes.js, GET /monitoring/logs) *)
(* ================================================================== *)

Module Monitoring.

Record LogEntry := mkLogEntry {
  timestamp : Z;                          (* new Date(), in milliseconds *)
  callId : jsstring;
  level : jsstring;
  message : jsstring;
  metadata : list (jsstring * jsstring)   (* the object, as its entries *)
}.

Definition maxLogBufferSize : Z := 1000.

(** [logBuffer.push(logEntry)], then [logBuffer.shift()] when the
    buffer has grown past its size. *)
Definition push_log (logBuffer : list LogEntry) (logEntry : LogEntry) : list LogEntry :=
  let logBuffer := logBuffer ++ [logEntry] in
  if maxLogBufferSize <? Z.of_nat (length logBuffer) then drop 1 logBuffer else logBuffer.

(** [addLog(callId, level, message, metadata)] at the time [now]. *)
Definition addLog (logBuffer : list LogEntry) (now : Z) (callId : option jsstring)
    (level message : jsstring) (metadata : list (jsstring * jsstring)) : list LogEntry :=
  let logEntry :=
    mkLogEntry now (if truthy callId then default [] callId else js "system")
      level message metadata in
  push_log logBuffer logEntry.

(** [Array.prototype.sort] with a comparator: a stable sort; written as
    insertion of each element in front of the sorted rest. *)
Fixpoint insert_with {A} (compare : A -> A -> Z) (x : A) (l : list A) : list A :=
  match l with
  | [] => [x]
  | y :: l' => if compare x y <=? 0 then x :: l else y :: insert_with compare x l'
  end.

Fixpoint sort_with {A} (compare : A -> A -> Z) (l : list A) : list A :=
  match l with
  | [] => []
  | x :: l' => insert_with compare x (sort_with compare l')
  end.

(** [getRecentLogs(limit, callId)]. *)
Definition getRecentLogs (logBuffer : list LogEntry) (limit : Z) (callId : option jsstring)
  : list LogEntry :=
  let logs := logBuffer in
  let logs :=
    if truthy callId then filter (fun log => Monitoring.callId log = default [] callId) logs
    else logs in
  let logs := sort_with (fun a b => timestamp b - timestamp a) logs in
  slice logs 0 (Some limit).

(** The logs that GET /monitoring/logs answers with: [limit] is what
    [parseInt] reads of the query parameter ([None]: NaN), and
    [parseInt(...) || 100] turns NaN and 0 into 100. *)
Definition logs_route (logBuffer : list LogEntry) (limit : option Z)
    (callId : option jsstring) : list LogEntry :=
  let limit :=
    match limit with
    | Some n => if n =? 0 then 100 else n
    | None => 100
    end in
  let callId := if truthy callId then callId else None in
  getRecentLogs logBuffer limit callId.

(** The entries of the buffer that a request for [callId] is about. *)
Definition asked_for (callId : option jsstring) (logBuffer : list LogEntry) : list LogEntry :=
  filter (fun log => truthy callId = true -> Monitoring.callId log = default [] callId)
    logBuffer.

(** [a] may stand before [b] in a list that is newest first. *)
Definition newest_first_rel (a b : LogEntry) : Prop := timestamp b <= timestamp a.

End Monitoring.

(* ================================================================== *)
(** * The stream of the language model, line by line
      (utils/aiService.js, the read loop of
      [generateWithGeminiStreaming]) *)
(* ================================================================== *)

Module Sse.

Section ReadLoop.

(** What the body of the loop hands to [onToken] for the data of one
    line: the text of each part of the first candidate that has one;
    nothing when the data is not JSON, when there is no candidate or
    when the candidate has a [finishReason]. *)
Variable line_tokens : jsstring -> list jsstring.

(** What the block after the loop hands to [onToken] for the data left
    in the buffer: [candidate?.content?.parts?.[0]?.text], when there
    is one. *)
Variable last_token : jsstring -> option jsstring.

(** [s.split('\n')]. *)
Fixpoint split_newline_go (s cur : jsstring) : list jsstring :=
  match s with
  | [] => [rev cur]
  | c :: s' =>
      if (c =? 10)%N then rev cur :: split_newline_go s' []
      else split_newline_go s' (c :: cur)
  end.

Definition split_newline (s : jsstring) : list jsstring := split_newline_go s [].

(** The data of a line that has some: [line.slice(6).trim()] of a line
    that starts with "data: ", unless it is empty or the marker
    [[DONE]]. *)
Definition data_of (line : jsstring) : option jsstring :=
  if startsWith line (js "data: ") then
    let dataStr := trim (slice line 6 None) in
    if negb (truthy (Some dataStr)) || bool_decide (dataStr = js "[DONE]") then None
    else Some dataStr
  else None.

Definition tokens_of_line (line : jsstring) : list jsstring :=
  match data_of line with
  | Some dataStr => line_tokens dataStr
  | None => []
  end.

(** One turn of the loop, for the decoded text [value] of a read: the
    tokens handed over and the buffer kept. *)
Definition read (buffer value : jsstring) : list jsstring * jsstring :=
  let buffer := buffer ++ value in
  let lines := split_newline buffer in
  let buffer := default [] (last lines) in
  let lines := removelast lines in
  (flat_map tokens_of_line lines, buffer).

(** The loop, until the reader is done. *)
Fixpoint read_all (buffer : jsstring) (values : list jsstring)
  : list jsstring * jsstring :=
  match values with
  | [] => ([], buffer)
  | value :: rest =>
      let '(tokens, buffer) := read buffer value in
      let '(more, buffer) := read_all buffer rest in
      (tokens ++ more, buffer)
  end.

(** The block after the loop, on what the buffer still holds. *)
Definition remaining (buffer : jsstring) : list jsstring :=
  if truthy (Some (trim buffer)) && startsWith buffer (js "data: ") then
    let dataStr := trim (slice buffer 6 None) in
    if truthy (Some dataStr) && negb (bool_decide (dataStr = js "[DONE]")) then
      match last_token dataStr with
      | Some deltaText => [deltaText]
      | None => []
      end
    else []
  else [].

(** The tokens handed to [onToken], in order, for a response that
    arrives as the pieces [values]. *)
Definition stream_tokens (values : list jsstring) : list jsstring :=
  let '(tokens, buffer) := read_all [] values in
  tokens ++ remaining buffer.

End ReadLoop.

End Sse.

(* ================================================================== *)
(** * Transcription (utils/sttService.js, [transcribePCM] and
      [transcribeWithDeepgram]) *)
(* ================================================================== *)

Module Stt.

(** What comes back from the request to the transcription service. *)
Inductive Answer :=
| Results (transcript : option jsstring)  (* a response that has results;
                                             channels?.[0]?.alternatives?.[0]?.transcript *)
| NoResults                               (* a response without data or results *)
| RequestFailed.                          (* the request throws *)

(** [transcribeWithDeepgram(pcmBuffer, sampleRate, language)]: the text
    returned ([None]: null) and the bodies of the requests sent. The
    temporary file is read back as it was written. *)
Definition transcribeWithDeepgram (deepgramApiKey : option jsstring)
    (deepgram : Buffer -> Answer) (pcmBuffer : Buffer) (sampleRate : Z)
  : option jsstring * list Buffer :=
  if negb (truthy deepgramApiKey) then (None, [])
  else if buflen pcmBuffer =? 0 then (None, [])
  else
    match Wav.pcmToWavFile pcmBuffer sampleRate with
    | None => (None, [])
    | Some audioBuffer =>
        (match deepgram audioBuffer with
         | Results transcription =>
             let transcribedText := or_else (trim <$> transcription) None in
             if truthy transcribedText then transcribedText else None
         | NoResults => None
         | RequestFailed => None
         end,
         [audioBuffer])
    end.

(** [transcribePCM(pcmBuffer, sampleRate, language)]. *)
Definition transcribePCM (deepgramApiKey : option jsstring)
    (deepgram : Buffer -> Answer) (pcmBuffer : Buffer) (sampleRate : Z)
  : option jsstring * list Buffer :=
  if negb (truthy deepgramApiKey) then (None, [])
  else if buflen pcmBuffer =? 0 then (None, [])
  else transcribeWithDeepgram deepgramApiKey deepgram pcmBuffer sampleRate.

End Stt.

(* ================================================================== *)
(** * The cache of the knowledge base (utils/knowledgebaseMongo.js,
      [loadAllChunks] and [clearKnowledgebaseCache]) *)
(* ================================================================== *)

Module ChunkCache.

Import KB.

(** What [loadAllChunks] reads of a stored document. *)
Record Document := mkDocument {
  chunks : option (list jsstring);
  content : option jsstring
}.

(** What the store answers: [Unavailable] when connecting or the query
    throws. *)
Inductive Store :=
| Unavailable
| Found (documents : list Document).

(** The two variables of the module. *)
Record Cache := mkCache {
  cachedChunks : option (list jsstring);
  cacheTimestamp : option Z
}.

Definition CACHE_TTL_MS : Z := 10 * 60 * 1000.

(** [cachedChunks && cacheTimestamp &&
     (Date.now() - cacheTimestamp) < CACHE_TTL_MS]; an array, even an
    empty one, is truthy, and a timestamp is unless it is 0. *)
Definition fresh (cache : Cache) (now : Z) : bool :=
  match cachedChunks cache, cacheTimestamp cache with
  | Some _, Some timestamp => negb (timestamp =? 0) && (now - timestamp <? CACHE_TTL_MS)
  | _, _ => false
  end.

(** The chunks that one document adds: its own when it has some, else
    those that its content is cut into. *)
Definition document_chunks (doc : Document) : option (list jsstring) :=
  match chunks doc with
  | Some (c :: cs) => Some (c :: cs)
  | _ =>
      if truthy (content doc) then chunkText (default [] (content doc)) 1000 200
      else Some []
  end.

(** The loop over the documents. *)
Fixpoint combine_chunks (documents : list Document) (allChunks : list jsstring)
  : option (list jsstring) :=
  match documents with
  | [] => Some allChunks
  | doc :: rest =>
      docChunks ← document_chunks doc;
      combine_chunks rest (allChunks ++ docChunks)
  end.

(** [loadAllChunks()] called at the time [now], the store answering
    [store] and the cache being written at the time [later]: the chunks
    returned, the cache left, and whether the store was asked. *)
Definition loadAllChunks (cache : Cache) (now : Z) (store : Store) (later : Z)
  : option (list jsstring * Cache * bool) :=
  if fresh cache now then Some (default [] (cachedChunks cache), cache, false)
  else
    match store with
    | Unavailable => Some ([], mkCache (Some []) (Some later), true)
    | Found documents =>
        if Z.of_nat (length documents) =? 0 then
          Some ([], mkCache (Some []) (Some later), true)
        else
          allChunks ← combine_chunks documents [];
          Some (allChunks, mkCache (Some allChunks) (Some later), true)
    end.

Definition clearKnowledgebaseCache : Cache := mkCache None None.

End ChunkCache.

(* ================================================================== *)
(** * Theorems *)
(* ================================================================== *)

Section ChunkPCM.

Lemma chunkPCM_loop_spec fuel pcm s :
  0 < s ->
  forall i chunks,
    0 <= i ->
    buflen pcm - i <= Z.of_nat fuel ->
    exists rest,
      chunkPCM_loop fuel pcm s i chunks = Some (chunks ++ rest)
      /\ concat rest = drop (Z.to_nat i) pcm
      /\ Forall (fun f => buflen f <= s) rest
      /\ (forall j f, rest !! j = Some f -> (S j < length rest)%nat -> buflen f = s)
      /\ (buflen pcm <= i -> rest = []).
Proof.
  intros Hs.
  induction fuel as [|fuel IH]; intros i chunks Hi Hfuel; simpl.
  - destruct (Z.ltb_spec i (buflen pcm)); [lia|].
    exists []. rewrite app_nil_r. unfold buflen in *. repeat split; auto.
    + simpl. symmetry. apply drop_ge. lia.
    + intros j f Hj. rewrite lookup_nil in Hj. discriminate.
  - destruct (Z.ltb_spec i (buflen pcm)) as [Hlt|Hge].
    + set (x := slice pcm i (Some (Z.min (i + s) (buflen pcm)))).
      destruct (IH (i + s) (chunks ++ [x])) as (rest & Hrun & Hcat & Hle & Hfull & Hnil);
        [lia | unfold buflen in *; lia |].
      assert (Hx : x = take (Z.to_nat (Z.min (i + s) (buflen pcm) - i))
                         (drop (Z.to_nat i) pcm)).
      { unfold x, slice, slice_index, buflen in *.
        destruct (Z.ltb_spec i 0); [lia|].
        destruct (Z.ltb_spec (Z.min (i + s) (Z.of_nat (length pcm))) 0); [lia|].
        rewrite (Z.min_l i) by lia.
        rewrite (Z.min_l (Z.min _ _) (Z.of_nat (length pcm))) by lia.
        reflexivity. }
      clearbody x. unfold buflen in *.
      exists (x :: rest). rewrite Hrun, <- app_assoc. simpl.
      split; [reflexivity|].
      split.
      { rewrite Hcat, Hx.
        destruct (Z.le_gt_cases (i + s) (Z.of_nat (length pcm))) as [Hin|Hout].
        - rewrite Z.min_l by lia.
          replace (Z.to_nat (i + s)) with (Z.to_nat i + Z.to_nat s)%nat by lia.
          rewrite <- drop_drop.
          replace (Z.to_nat (i + s - i)) with (Z.to_nat s) by lia.
          apply take_drop.
        - rewrite Z.min_r by lia.
          rewrite (drop_ge pcm (Z.to_nat (i + s))) by lia.
          rewrite app_nil_r. apply take_ge. rewrite length_drop. lia. }
      split.
      { constructor; [|exact Hle].
        rewrite Hx, length_take, length_drop. lia. }
      split.
      { intros [|j] f Hj Hlen; simpl in *.
        - inversion Hj; subst f.
          assert (i + s < Z.of_nat (length pcm)).
          { destruct (Z.lt_ge_cases (i + s) (Z.of_nat (length pcm))); [assumption|].
            rewrite Hnil in Hlen by lia. simpl in Hlen. lia. }
          rewrite Hx, length_take, length_drop. lia.
        - apply (Hfull j f Hj). lia. }
      intros ?. lia.
    + exists []. rewrite app_nil_r. unfold buflen in *. repeat split; auto.
      * simpl. symmetry. apply drop_ge. lia.
      * intros j f Hj. rewrite lookup_nil in Hj. discriminate.
Qed.


(** C9. For every PCM buffer and every chunk size that is a positive
    multiple of 320, [chunkPCM] returns frames whose concatenation, in
    order, is the input buffer; every frame has at most [s] bytes; and
    every frame but possibly the last has a size that is a multiple of
    320 (it has exactly [s] bytes). *)
Theorem chunkPCM_lossless_framing (pcm : Buffer) (s : Z) :
  0 < s -> s mod 320 = 0 ->
  exists frames,
    chunkPCM pcm s = Some frames
    /\ concat frames = pcm
    /\ Forall (fun f => buflen f <= s) frames
    /\ (forall j f, frames !! j = Some f -> (S j < length frames)%nat ->
          buflen f = s /\ buflen f mod 320 = 0).
Proof.
  intros Hs Hmod.
  destruct (chunkPCM_loop_spec (length pcm) pcm s Hs 0 []) as
    (rest & Hrun & Hcat & Hle & Hfull & _); [lia | unfold buflen; lia |].
  exists rest. unfold chunkPCM. rewrite Hrun. simpl in *.
  repeat split; auto.
  - apply (Hfull j f); assumption.
  - rewrite (Hfull j f) by assumption. exact Hmod.
Qed.

Lemma chunkPCM_lossless_framing_witness :
  0 < 320 /\ 320 mod 320 = 0 /\
  exists frames,
    chunkPCM (repeat Byte.x01 700) 320 = Some frames
    /\ concat frames = repeat Byte.x01 700
    /\ Forall (fun f => buflen f <= 320) frames
    /\ (forall j f, frames !! j = Some f -> (S j < length frames)%nat ->
          buflen f = 320 /\ buflen f mod 320 = 0).
Proof.
  split; [lia|]. split; [reflexivity|].
  apply (chunkPCM_lossless_framing (repeat Byte.x01 700) 320); [lia | reflexivity].
Defined.

(** With a chunk size of zero or less the loop of [chunkPCM] does not
    end on a non-empty buffer. *)
Lemma chunkPCM_loop_stuck fuel pcm s chunks i :
  s <= 0 -> i < buflen pcm -> chunkPCM_loop fuel pcm s i chunks = None.
Proof.
  intros Hs. revert i chunks.
  induction fuel as [|fuel IH]; intros i chunks Hi; simpl;
    destruct (Z.ltb_spec i (buflen pcm)); try lia; auto.
  apply IH. lia.
Qed.

End ChunkPCM.

Section ChunkText.

Import KB.

Lemma window_end_gt text chunkSize start :
  1 <= chunkSize -> start < jslen text ->
  start < window_end text chunkSize start.
Proof.
  intros Hsize Hstart. unfold window_end.
  destruct (Z.ltb_spec (Z.min (start + chunkSize) (jslen text)) (jslen text)).
  - match goal with |- context [?a <? ?b] => destruct (Z.ltb_spec a b) end; lia.
  - lia.
Qed.

(** The loop of [chunkText] ends, whatever the sizes. *)
Lemma chunkText_loop_total text chunkSize overlap fuel :
  forall start windows chunks,
    jslen text - start <= Z.of_nat fuel ->
    exists r, chunkText_loop fuel text chunkSize overlap start windows chunks = Some r.
Proof.
  induction fuel as [|fuel IH]; intros start windows chunks Hfuel; simpl.
  - destruct (Z.ltb_spec start (jslen text)); [lia|]. simpl. eauto.
  - destruct ((start <? jslen text) && _) eqn:Hcond; [|eauto].
    destruct (_ <=? window_end _ _ _); [eauto|].
    apply IH. apply andb_true_iff in Hcond as [Hlt _].
    apply Z.ltb_lt in Hlt. lia.
Qed.

(** [chunkText] returns for every text, chunk size and overlap. *)
Lemma chunkText_total text chunkSize overlap :
  exists chunks, chunkText text chunkSize overlap = Some chunks.
Proof.
  unfold chunkText, chunkText_trace.
  destruct (jslen (trim text) =? 0); [simpl; eauto|].
  destruct (chunkText_loop_total text chunkSize overlap (length text) 0 [] [])
    as [r Hr]; [unfold jslen; lia|].
  rewrite Hr. simpl. eauto.
Qed.

Lemma chunks_of_app text ws1 ws2 :
  chunks_of text (ws1 ++ ws2) = chunks_of text ws1 ++ chunks_of text ws2.
Proof. unfold chunks_of. rewrite map_app. apply filter_app. Qed.

Lemma chunks_of_one text s e :
  chunks_of text [(s, e)] =
  (if 0 <? jslen (trim (substring text s e)) then [trim (substring text s e)] else []).
Proof.
  unfold chunks_of. simpl.
  destruct (trim (substring text s e)) as [|c t] eqn:Ht.
  - rewrite filter_cons_False by (intros H; apply H; reflexivity). reflexivity.
  - rewrite filter_cons_True by discriminate. reflexivity.
Qed.

Lemma trimStart_nil s :
  trimStart s = [] -> Forall (fun c => is_whitespace c = true) s.
Proof.
  induction s as [|c s IH]; simpl; [constructor|].
  destruct (is_whitespace c) eqn:Hc; [|discriminate].
  intros H. constructor; auto.
Qed.

Lemma trimStart_head s c t : trimStart s = c :: t -> is_whitespace c = false.
Proof.
  induction s as [|d s IH]; simpl; [discriminate|].
  destruct (is_whitespace d) eqn:Hd; [exact IH|].
  intros H. injection H as -> _. exact Hd.
Qed.

(** Only white space trims to the empty string. *)
Lemma trim_nil s : trim s = [] -> Forall (fun c => is_whitespace c = true) s.
Proof.
  unfold trim, trimEnd. intros H.
  assert (H1 : trimStart (rev (trimStart s)) = []).
  { rewrite <- (rev_involutive (trimStart _)), H. reflexivity. }
  apply trimStart_nil in H1. apply Forall_rev in H1. rewrite rev_involutive in H1.
  destruct (trimStart s) as [|c t] eqn:Hs; [apply trimStart_nil, Hs|].
  apply trimStart_head in Hs. apply Forall_cons in H1 as [Hc _]. congruence.
Qed.

(** A window that holds a character other than white space gives a
    chunk. *)
Lemma window_with_text text s e p c :
  0 <= s <= p -> p < e ->
  text !! Z.to_nat p = Some c -> is_whitespace c = false ->
  trim (substring text s e) <> [].
Proof.
  intros Hs He Hp Hc Htrim. apply trim_nil in Htrim.
  assert (Hlen : p < jslen text).
  { apply lookup_lt_Some in Hp. unfold jslen. lia. }
  assert (Hin : substring text s e !! Z.to_nat (p - s) = Some c).
  { unfold substring, clamp, jslen, jsstring in *. cbv zeta.
    rewrite lookup_take_lt by lia.
    rewrite lookup_drop. rewrite <- Hp. f_equal. lia. }
  rewrite Forall_lookup in Htrim. specialize (Htrim _ _ Hin). congruence.
Qed.

Lemma chunkText_loop_spec text chunkSize overlap fuel :
  1 <= chunkSize -> 0 <= overlap ->
  forall start windows chunks,
    jslen text - start <= Z.of_nat fuel ->
    exists windows' chunks',
      chunkText_loop fuel text chunkSize overlap start windows chunks
        = Some (windows ++ windows', chunks ++ chunks')
      /\ chunks' = chunks_of text windows'
      /\ Forall (fun w => start <= fst w) windows'
      /\ (Z.of_nat (length (chunks ++ chunks')) < maxChunks text chunkSize overlap ->
          forall p, start <= p < jslen text -> covered windows' p).
Proof.
  intros Hsize Hov.
  induction fuel as [|fuel IH]; intros start windows chunks Hfuel; simpl.
  - destruct (Z.ltb_spec start (jslen text)); [lia|]. simpl.
    exists [], []. rewrite !app_nil_r. repeat split; auto. intros; lia.
  - destruct (Z.ltb_spec start (jslen text)) as [Hlt|Hge]; simpl.
    2:{ exists [], []. rewrite !app_nil_r. repeat split; auto. intros; lia. }
    destruct (Z.ltb_spec (Z.of_nat (length chunks)) (maxChunks text chunkSize overlap))
      as [Hroom|Hfull].
    2:{ exists [], []. rewrite !app_nil_r. repeat split; auto. intros; lia. }
    pose proof (window_end_gt text chunkSize start Hsize Hlt) as Hend.
    set (end_ := window_end text chunkSize start) in *.
    set (chunk := trim (substring text start end_)).
    assert (Hone : (if 0 <? jslen chunk then chunks ++ [chunk] else chunks)
                   = chunks ++ chunks_of text [(start, end_)]).
    { rewrite chunks_of_one. fold chunk.
      destruct (0 <? jslen chunk); [reflexivity | symmetry; apply app_nil_r]. }
    rewrite Hone.
    destruct (Z.leb_spec (jslen text) end_) as [Hlast|Hmore].
    + exists [(start, end_)], (chunks_of text [(start, end_)]).
      repeat split; auto.
      * repeat constructor. simpl. lia.
      * intros _ p Hp. apply Exists_cons_hd. simpl. lia.
    + destruct (IH (Z.max (start + 1) (end_ - overlap))
                   (windows ++ [(start, end_)])
                   (chunks ++ chunks_of text [(start, end_)]))
        as (ws & cs & Hrun & Hcs & Hfrom & Hcov); [lia|].
      exists ((start, end_) :: ws), (chunks_of text [(start, end_)] ++ cs).
      rewrite Hrun, <- !app_assoc. simpl.
      split; [reflexivity|]. split.
      { rewrite Hcs. change ((start, end_) :: ws) with ([(start, end_)] ++ ws).
        symmetry. apply chunks_of_app. }
      split.
      { constructor; [simpl; lia|].
        eapply Forall_impl; [exact Hfrom|]. simpl. intros; lia. }
      intros Hcount p Hp.
      destruct (Z.lt_ge_cases p end_) as [Hin|Hout].
      * apply Exists_cons_hd. simpl. lia.
      * apply Exists_cons_tl. apply Hcov; [|lia].
        rewrite <- app_assoc. exact Hcount.
Qed.

End ChunkText.

Section ChunkTextClaims.

Import KB.

Lemma coveredb_spec windows p : coveredb windows p = true <-> covered windows p.
Proof.
  unfold coveredb, covered. rewrite existsb_exists, Exists_exists.
  split; intros (w & Hin & Hw); exists w; (split; [|lia]);
    first [apply list_elem_of_In | apply list_elem_of_In]; exact Hin.
Qed.

(** C5 (as amended). For every text that is not blank, every chunk
    size of at least 1 and every overlap from 0 up to below the chunk
    size, [chunkText] returns; its chunks are the non-empty trimmed
    texts of the windows the loop cut, in order; and when it returns
    fewer chunks than the safety limit
    [ceil(length / max(1, size - overlap)) + 100], every position of the
    text lies in one of these windows, and every position that holds a
    character other than white space in a window whose chunk is
    returned. *)
Theorem chunkText_covers_below_limit (text : jsstring) (chunkSize overlap : Z) :
  1 <= chunkSize -> 0 <= overlap < chunkSize -> trim text <> [] ->
  exists windows chunks,
    chunkText_trace text chunkSize overlap = Some (windows, chunks)
    /\ chunkText text chunkSize overlap = Some chunks
    /\ chunks = chunks_of text windows
    /\ (Z.of_nat (length chunks) < maxChunks text chunkSize overlap ->
        forall p, 0 <= p < jslen text ->
          covered windows p
          /\ forall c, text !! Z.to_nat p = Some c -> is_whitespace c = false ->
               exists w, w ∈ windows /\ fst w <= p < snd w
                         /\ trim (substring text (fst w) (snd w)) ∈ chunks).
Proof.
  intros Hsize Hov Hblank.
  destruct (chunkText_loop_spec text chunkSize overlap (length text)
              Hsize (proj1 Hov) 0 [] []) as (ws & cs & Hrun & Hcs & Hfrom & Hcov);
    [unfold jslen; lia|].
  simpl in Hrun, Hcov.
  assert (Htrace : chunkText_trace text chunkSize overlap = Some (ws, cs)).
  { unfold chunkText_trace.
    destruct (Z.eqb_spec (jslen (trim text)) 0) as [H0|_]; [|exact Hrun].
    unfold jslen in H0. destruct (trim text); [congruence | simpl in H0; lia]. }
  exists ws, cs. unfold chunkText. rewrite Htrace.
  split; [reflexivity|]. split; [reflexivity|]. split; [exact Hcs|].
  intros Hcount p Hp. specialize (Hcov Hcount p Hp). split; [exact Hcov|].
  intros c Hc Hws. unfold covered in Hcov. apply Exists_exists in Hcov as (w & Hw & Hin).
  exists w. split; [exact Hw|]. split; [exact Hin|].
  rewrite Hcs. unfold chunks_of. apply list_elem_of_filter. split.
  - rewrite Forall_forall in Hfrom. specialize (Hfrom w Hw).
    apply (window_with_text text (fst w) (snd w) p c); auto; lia.
  - apply (list_elem_of_fmap_2 (fun w => trim (substring text (fst w) (snd w)))). exact Hw.
Qed.

Lemma chunkText_covers_below_limit_witness :
  let text := js "Hello world. This is a test. Another one here." in
  1 <= 20 /\ 0 <= 5 < 20 /\ trim text <> [] /\
  exists windows chunks,
    chunkText_trace text 20 5 = Some (windows, chunks)
    /\ chunks = chunks_of text windows
    /\ forall p, 0 <= p < jslen text -> covered windows p.
Proof.
  intros text.
  assert (Hblank : trim text <> []) by (vm_compute; discriminate).
  split; [lia|]. split; [lia|]. split; [exact Hblank|].
  destruct (chunkText_covers_below_limit text 20 5) as (ws & cs & Htrace & _ & Hcs & Hcov);
    [lia | lia | exact Hblank |].
  exists ws, cs. split; [exact Htrace|]. split; [exact Hcs|].
  intros p Hp. apply Hcov; [|exact Hp].
  assert (Hlen : (fun r => length (snd r)) <$> chunkText_trace text 20 5 = Some 4%nat)
    by (vm_compute; reflexivity).
  rewrite Htrace in Hlen. injection Hlen as ->. vm_compute. reflexivity.
Defined.

(** The claim as stated fails when the safety limit ends the loop: 525
    sentences of four characters, cut with chunk size 5 and overlap 0,
    snap every window to its sentence, so that 525 chunks are needed
    while the limit is [ceil(2100 / 5) + 100 = 520]; the last 20
    characters lie in no window. *)
Lemma chunkText_safety_limit_leaves_tail :
  let text := concat (repeat (js "abc.") 525) in
  text <> [] /\ 1 <= 5 /\ 0 < 5 /\
  exists windows chunks,
    chunkText_trace text 5 0 = Some (windows, chunks)
    /\ Z.of_nat (length chunks) = maxChunks text 5 0
    /\ 0 <= 2099 < jslen text
    /\ ~ covered windows 2099.
Proof.
  intros text.
  split; [vm_compute; discriminate|]. split; [lia|]. split; [lia|].
  assert (Hrun : (fun r => (Z.of_nat (length (snd r)), coveredb (fst r) 2099))
                   <$> chunkText_trace text 5 0 = Some (520, false))
    by (vm_compute; reflexivity).
  destruct (chunkText_trace text 5 0) as [[ws cs]|]; [|discriminate].
  simpl in Hrun. injection Hrun as Hlen Hcov.
  exists ws, cs. split; [reflexivity|]. split; [rewrite Hlen; reflexivity|].
  split; [vm_compute; split; [discriminate | reflexivity]|].
  rewrite <- coveredb_spec, Hcov. discriminate.
Qed.

(** A text of white space only is answered with no chunk at all. *)
Lemma chunkText_blank_text :
  chunkText_trace (js "   ") 2 0 = Some ([], []).
Proof. reflexivity. Qed.

(** With a negative overlap the next window starts beyond the end of
    the last one. *)
Lemma chunkText_negative_overlap :
  chunkText_trace (js "abcdefghij") 2 (-3) = Some ([(0, 2); (5, 7)], [js "ab"; js "fg"]).
Proof. reflexivity. Qed.

End ChunkTextClaims.

Section Ranking.

Import KB.






Lemma insert_scored_perm x l : insert_scored x l ≡ₚ x :: l.
Proof.
  induction l as [|y l IH]; simpl; [reflexivity|].
  destruct (compare_scored x y <=? 0); [reflexivity|].
  rewrite IH. apply Permutation_swap.
Qed.

Lemma sort_scored_perm l : sort_scored l ≡ₚ l.
Proof.
  induction l as [|x l IH]; simpl; [reflexivity|].
  rewrite insert_scored_perm, IH. reflexivity.
Qed.








Lemma slice_from_start {A} (l : list A) k : exists n, slice l 0 (Some k) = take n l.
Proof.
  unfold slice, slice_index. simpl (0 <? 0).
  rewrite (Z.min_l 0) by lia. rewrite Z.sub_0_r. simpl (Z.to_nat 0). rewrite drop_0. eauto.
Qed.

Lemma map_indexed_lookup {A B} (f : A -> Z -> B) l :
  forall z (i : nat) x, l !! i = Some x ->
    map_indexed f z l !! i = Some (f x (z + Z.of_nat i)).
Proof.
  induction l as [|y l IH]; intros z [|i] x Hx; simpl in *; try discriminate.
  - inversion Hx. f_equal. f_equal. lia.
  - rewrite (IH (z + 1) i x Hx). f_equal. f_equal. lia.
Qed.





End Ranking.

Section RelevantChunksClaims.

Import KB.


(** What [getRelevantChunks] returns for a query with at least one word,
    all words literal, on a knowledge base that is not empty: the chunks
    of the first [maxChunks] entries with a positive score. *)
Lemma getRelevantChunks_returns_top allChunks query maxChunks :
  trim query <> [] -> allChunks <> [] -> query_words query <> [] ->
  forallb regex_literal (query_words query) = true ->
  getRelevantChunks allChunks query maxChunks
  = Some (map chunk (top_entries allChunks query maxChunks)).
Proof.
  intros Hq Hchunks Hwords Hliteral. unfold getRelevantChunks, jslen.
  destruct (trim query); [congruence|].
  destruct allChunks; [congruence|].
  destruct (query_words query); [congruence|].
  rewrite Hliteral. reflexivity.
Qed.




End RelevantChunksClaims.

Section CallEndpointClaims.

Import CallEndpoint.

(** C8 (as amended). [POST /call] answers a request whose target number
    does not start with ['+'] with an error response (status 400 or
    500, [success: false]), and when a required configuration key is
    absent it answers status 400 with an error payload whose [required]
    field lists all five required keys, whichever of them are
    missing. *)
Theorem call_endpoint_rejections (env : Env) (body : Body)
    (makeCall : Config -> jsstring -> Field -> CallResult) :
  (starts_with_plus body = false ->
     400 <= status (post_call env body makeCall)
     /\ success (payload (post_call env body makeCall)) = false)
  /\ (missing_keys env <> [] ->
      post_call env body makeCall =
      mkResponse 400
        (ConfigurationError
           (js "Missing Exotel configuration. Please set environment variables.")
           required_keys)).
Proof.
  unfold post_call, starts_with_plus, missing_keys, read_config. simpl.
  destruct (truthy (EXOTEL_API_KEY env)), (truthy (EXOTEL_API_TOKEN env)),
    (truthy (EXOTEL_SID env)), (truthy (EXOTEL_APP_ID env)),
    (truthy (EXOTEL_CALLER_ID env)); simpl;
    (split; [|first [reflexivity | intros H; exfalso; apply H; reflexivity]]);
    try (intros _; split; [lia | reflexivity]).
  destruct (targetNumber body) as [|number|t]; simpl.
  - intros _. split; [lia | reflexivity].
  - intros ->. simpl. split; [lia | reflexivity].
  - intros _. split; [lia | reflexivity].
Qed.

Lemma call_endpoint_rejections_witness :
  let env := mkEnv (Some (js "key")) (Some (js "token")) None None
                   (Some (js "app")) (Some (js "0801")) in
  let body := mkBody (Str (js "919324606985")) Absent in
  let makeCall := fun _ _ _ => CallSucceeded (js "sid1") (js "{}") in
  starts_with_plus body = false /\ missing_keys env <> [] /\
  400 <= status (post_call env body makeCall) /\
  post_call env body makeCall =
    mkResponse 400
      (ConfigurationError
         (js "Missing Exotel configuration. Please set environment variables.")
         required_keys).
Proof.
  intros env body makeCall.
  split; [reflexivity|]. split; [vm_compute; discriminate|].
  destruct (call_endpoint_rejections env body makeCall) as [Hplus Hmissing].
  split; [apply Hplus; reflexivity | apply Hmissing; vm_compute; discriminate].
Defined.

(** The claim as stated fails: with the account SID as the only absent
    key, the payload still names all five keys. *)
Lemma call_endpoint_lists_all_keys :
  let env := mkEnv (Some (js "key")) (Some (js "token")) None None
                   (Some (js "app")) (Some (js "0801")) in
  let body := mkBody (Str (js "+919324606985")) Absent in
  let makeCall := fun _ _ _ => CallSucceeded (js "sid1") (js "{}") in
  missing_keys env = [js "EXOTEL_SID"]
  /\ exists error required,
       post_call env body makeCall = mkResponse 400 (ConfigurationError error required)
       /\ required <> missing_keys env
       /\ length required = 5%nat.
Proof.
  intros env body makeCall. split; [reflexivity|].
  eexists _, _. split; [reflexivity|]. split; [vm_compute; discriminate | reflexivity].
Qed.

End CallEndpointClaims.

(* ------------------------------------------------------------------ *)
(** ** The session: what every handler preserves *)
(* ------------------------------------------------------------------ *)

Create HintDb session_inv.

Section SessionInvariant.

Import AI Server.

Lemma preserves_ret {A} (a : A) : Preserves (mret a).
Proof. intros w H. exact H. Qed.

Lemma preserves_bind {A B} (m : M A) (f : A -> M B) :
  Preserves m -> (forall a, Preserves (f a)) -> Preserves (m ≫= f).
Proof. intros Hm Hf w H. apply Hf, Hm, H. Qed.

Lemma preserves_gets {A} (f : World -> A) : Preserves (gets f).
Proof. intros w H. exact H. Qed.

Lemma preserves_for_each {A} (l : list A) (body : A -> M unit) :
  (forall x, Preserves (body x)) -> Preserves (for_each l body).
Proof.
  intros Hbody. induction l as [|x l IH]; simpl.
  - apply preserves_ret.
  - apply preserves_bind; auto.
Qed.

(** A change of the session that leaves the counter and the history
    alone. *)
Lemma preserves_with_session (f : Session -> Session) :
  (forall s, sequenceNumber (f s) = sequenceNumber s) ->
  (forall s, conversationHistory (f s) = conversationHistory s) ->
  Preserves (with_session f).
Proof.
  intros Hn Hh w [Hnum Hno]. unfold Inv, with_session, modify. simpl.
  rewrite Hn, Hh. auto.
Qed.

(** A change of the world that leaves the session and the wire alone. *)
Lemma preserves_modify (f : World -> World) :
  (forall w, session (f w) = session w) ->
  (forall w, wire (f w) = wire w) ->
  Preserves (modify f).
Proof.
  intros Hs Hw w H. unfold Inv, modify in *. simpl. rewrite Hs, Hw. exact H.
Qed.

Lemma counter_increment k : increment (counter k) = counter (S k).
Proof.
  unfold increment, counter.
  destruct (Z.ltb_spec (Z.min (Z.of_nat k) max_exact) max_exact); lia.
Qed.

Lemma media_numbers_app fs gs :
  media_numbers (fs ++ gs) = media_numbers fs ++ media_numbers gs.
Proof. unfold media_numbers. apply omap_app. Qed.

Lemma preserves_send_media origin chunk : Preserves (send_media origin chunk).
Proof.
  intros w [[Hnum Hnext] Hno]. unfold Inv, numbered in *. simpl.
  rewrite media_numbers_app. simpl. rewrite length_app. simpl.
  rewrite Nat.add_1_r, seq_S, map_app. simpl.
  rewrite <- Hnum, Hnext, counter_increment. auto.
Qed.

Lemma preserves_send_mark origin name : Preserves (send_mark origin name).
Proof.
  intros w [[Hnum Hnext] Hno]. unfold Inv, numbered in *. simpl.
  rewrite media_numbers_app. simpl. rewrite app_nil_r. auto.
Qed.

Lemma preserves_update_history (f : Session -> list Message) :
  (forall s, no_user (conversationHistory s) -> no_user (f s)) ->
  Preserves (update_history f).
Proof. intros Hf w [Hnum Hno]. split; simpl; auto. Qed.

Lemma no_user_set_first_persona personaContent history :
  no_user history -> no_user (set_first_persona personaContent history).
Proof.
  unfold no_user. induction 1 as [|msg rest Hmsg Hrest IH]; simpl; [constructor|].
  destruct (is_persona msg); constructor; auto.
Qed.

Lemma no_user_ensureSystemMessage params mongoPersona history :
  no_user history -> no_user (ensureSystemMessage params mongoPersona history).
Proof.
  intros Hh. unfold ensureSystemMessage.
  destruct history as [|msg rest].
  - repeat constructor. discriminate.
  - destruct (negb _).
    + constructor; [discriminate | exact Hh].
    + apply no_user_set_first_persona, Hh.
Qed.

Lemma no_user_assistant history reply :
  no_user history -> no_user (history ++ [mkMessage assistant reply]).
Proof.
  intros Hh. apply Forall_app. split; [exact Hh|].
  repeat constructor. discriminate.
Qed.

Lemma preserves_skip : Preserves skip.
Proof. apply preserves_ret. Qed.

(** The assignments to fields other than the counter, the history and
    the wire. *)
Lemma preserves_set_streamSid v : Preserves (set_streamSid v).
Proof. apply preserves_with_session; reflexivity. Qed.
Lemma preserves_set_audioBuffer v : Preserves (set_audioBuffer v).
Proof. apply preserves_with_session; reflexivity. Qed.
Lemma preserves_set_customParameters v : Preserves (set_customParameters v).
Proof. apply preserves_with_session; reflexivity. Qed.
Lemma preserves_set_isActive v : Preserves (set_isActive v).
Proof. apply preserves_with_session; reflexivity. Qed.
Lemma preserves_set_pendingClear v : Preserves (set_pendingClear v).
Proof. apply preserves_with_session; reflexivity. Qed.
Lemma preserves_set_processingAudio v : Preserves (set_processingAudio v).
Proof. apply preserves_with_session; reflexivity. Qed.
Lemma preserves_set_greetingSent v : Preserves (set_greetingSent v).
Proof. apply preserves_with_session; reflexivity. Qed.
Lemma preserves_set_greetingInProgress v : Preserves (set_greetingInProgress v).
Proof. apply preserves_with_session; reflexivity. Qed.
Lemma preserves_set_outboundTrackLogged v : Preserves (set_outboundTrackLogged v).
Proof. apply preserves_with_session; reflexivity. Qed.
Lemma preserves_set_inboundTrackLogged v : Preserves (set_inboundTrackLogged v).
Proof. apply preserves_with_session; reflexivity. Qed.
Lemma preserves_set_readyState v : Preserves (set_readyState v).
Proof. apply preserves_modify; reflexivity. Qed.
Lemma preserves_set_calls v : Preserves (set_calls v).
Proof. apply preserves_modify; reflexivity. Qed.
Lemma preserves_set_tasks v : Preserves (set_tasks v).
Proof. apply preserves_modify; reflexivity. Qed.
Lemma preserves_set_waiters v : Preserves (set_waiters v).
Proof. apply preserves_modify; reflexivity. Qed.
Lemma preserves_set_jobs v : Preserves (set_jobs v).
Proof. apply preserves_modify; reflexivity. Qed.
Lemma preserves_set_closures v : Preserves (set_closures v).
Proof. apply preserves_modify; reflexivity. Qed.
Lemma preserves_set_nextId v : Preserves (set_nextId v).
Proof. apply preserves_modify; reflexivity. Qed.

#[local] Hint Resolve preserves_skip
  preserves_set_streamSid preserves_set_audioBuffer preserves_set_customParameters preserves_set_isActive
  preserves_set_pendingClear preserves_set_processingAudio preserves_set_greetingSent preserves_set_greetingInProgress
  preserves_set_outboundTrackLogged preserves_set_inboundTrackLogged preserves_set_readyState preserves_set_calls
  preserves_set_tasks preserves_set_waiters preserves_set_jobs preserves_set_closures preserves_set_nextId : session_inv.

(** A walk through a handler: along sequences, into branches, down to
    the assignments and the sends. *)
Ltac preserve_leaf :=
  lazymatch goal with
  | |- Preserves (mret _) => apply preserves_ret
  | |- Preserves skip => apply preserves_skip
  | |- Preserves (gets _) => apply preserves_gets
  | |- Preserves (send_media _ _) => apply preserves_send_media
  | |- Preserves (send_mark _ _) => apply preserves_send_mark
  | |- Preserves (set_wire _) => fail
  | |- Preserves (set_sequenceNumber _) => fail
  | |- Preserves (update_history _) => fail
  | |- Preserves (mbind _ _) => fail
  | |- Preserves (for_each _ _) => fail
  | |- Preserves (match _ with _ => _ end) => fail
  | |- Preserves _ => solve [auto 1 with session_inv nocore]
  end.

Ltac preserve :=
  cbv zeta;
  repeat first
    [ preserve_leaf
    | simple apply @preserves_bind; [|intros ?]; cbv zeta
    | simple apply @preserves_for_each; intros ?; cbv zeta
    | match goal with
      | |- Preserves (match ?x with _ => _ end) => destruct x; cbv zeta
      end ].

Lemma preserves_fresh : Preserves fresh.
Proof. unfold fresh. preserve. Qed.
#[local] Hint Resolve preserves_fresh : session_inv.

Lemma preserves_suspend id t : Preserves (suspend id t).
Proof. unfold suspend. preserve. Qed.
#[local] Hint Resolve preserves_suspend : session_inv.

Lemma preserves_release id : Preserves (release id).
Proof. unfold release. preserve. Qed.
#[local] Hint Resolve preserves_release : session_inv.

Lemma preserves_enqueue j : Preserves (enqueue j).
Proof. unfold enqueue. preserve. Qed.
#[local] Hint Resolve preserves_enqueue : session_inv.

Lemma preserves_record_call c : Preserves (record_call c).
Proof. unfold record_call. preserve. Qed.
#[local] Hint Resolve preserves_record_call : session_inv.

Lemma preserves_await_promise p j : Preserves (await_promise p j).
Proof. unfold await_promise. preserve. Qed.
#[local] Hint Resolve preserves_await_promise : session_inv.

Lemma preserves_settle_promise p : Preserves (settle_promise p).
Proof. unfold settle_promise. preserve. Qed.
#[local] Hint Resolve preserves_settle_promise : session_inv.

Lemma preserves_get_closure turn : Preserves (get_closure turn).
Proof. unfold get_closure. preserve. Qed.
#[local] Hint Resolve preserves_get_closure : session_inv.

Lemma preserves_set_closure turn c : Preserves (set_closure turn c).
Proof. unfold set_closure. preserve. Qed.
#[local] Hint Resolve preserves_set_closure : session_inv.

Lemma preserves_set_textBuffer turn v : Preserves (set_textBuffer turn v).
Proof. unfold set_textBuffer. preserve. Qed.
#[local] Hint Resolve preserves_set_textBuffer : session_inv.

Lemma preserves_set_pendingTTS turn v : Preserves (set_pendingTTS turn v).
Proof. unfold set_pendingTTS. preserve. Qed.
#[local] Hint Resolve preserves_set_pendingTTS : session_inv.

Lemma preserves_stream_settled id owner ok : Preserves (stream_settled id owner ok).
Proof. unfold stream_settled. preserve. Qed.
#[local] Hint Resolve preserves_stream_settled : session_inv.

Lemma preserves_stream_after_loop id sendMark owner :
  Preserves (stream_after_loop id sendMark owner).
Proof. unfold stream_after_loop. preserve. Qed.
#[local] Hint Resolve preserves_stream_after_loop : session_inv.

Lemma preserves_stream_loop id chunks i sendMark owner :
  Preserves (stream_loop id chunks i sendMark owner).
Proof. unfold stream_loop. preserve. Qed.
#[local] Hint Resolve preserves_stream_loop : session_inv.

Lemma preserves_stream_chunks id pcm sendMark owner :
  Preserves (stream_chunks id pcm sendMark owner).
Proof. unfold stream_chunks. preserve. Qed.
#[local] Hint Resolve preserves_stream_chunks : session_inv.

Lemma preserves_streamTTSAudio text sendMark owner :
  Preserves (streamTTSAudio text sendMark owner).
Proof. unfold streamTTSAudio. preserve. Qed.
#[local] Hint Resolve preserves_streamTTSAudio : session_inv.

Lemma preserves_silence_mark id : Preserves (silence_mark id).
Proof. unfold silence_mark. preserve. Qed.
#[local] Hint Resolve preserves_silence_mark : session_inv.

Lemma preserves_silence_loop id rest : Preserves (silence_loop id rest).
Proof. unfold silence_loop. preserve. Qed.
#[local] Hint Resolve preserves_silence_loop : session_inv.

Lemma preserves_sendFallbackSilence : Preserves sendFallbackSilence.
Proof. unfold sendFallbackSilence. preserve. Qed.
#[local] Hint Resolve preserves_sendFallbackSilence : session_inv.

Lemma preserves_start_greeting : Preserves start_greeting.
Proof. unfold start_greeting. preserve. Qed.
#[local] Hint Resolve preserves_start_greeting : session_inv.

Lemma preserves_processUserAudio : Preserves processUserAudio.
Proof. unfold processUserAudio, turn_settled. preserve. Qed.
#[local] Hint Resolve preserves_processUserAudio : session_inv.

Lemma preserves_onToken turn token : Preserves (onToken turn token).
Proof. unfold onToken. preserve. Qed.
#[local] Hint Resolve preserves_onToken : session_inv.

Lemma preserves_start_final turn text : Preserves (start_final turn text).
Proof. unfold start_final. preserve. Qed.
#[local] Hint Resolve preserves_start_final : session_inv.

Lemma preserves_onToken_complete turn : Preserves (onToken_complete turn).
Proof. unfold onToken_complete. preserve. Qed.
#[local] Hint Resolve preserves_onToken_complete : session_inv.

Lemma preserves_run_job j : Preserves (run_job j).
Proof. unfold run_job. preserve. Qed.
#[local] Hint Resolve preserves_run_job : session_inv.

Lemma preserves_on_message m : Preserves (on_message m).
Proof.
  unfold on_message, handleClearEvent, handleConnectedEvent, handleStartEvent,
    handleMediaEvent, capture_stream_sid, buffer_audio, handleStopEvent.
  preserve.
Qed.

Lemma preserves_on_llm_setup id persona chunks : Preserves (on_llm_setup id persona chunks).
Proof.
  unfold on_llm_setup. preserve.
  apply preserves_update_history. intros s. apply no_user_ensureSystemMessage.
Qed.

Lemma preserves_on_llm_done id lastDelta : Preserves (on_llm_done id lastDelta).
Proof.
  unfold on_llm_done, turn_settled. preserve.
  all: apply preserves_update_history; intros s; apply no_user_assistant.
Qed.

(** Every event leaves the numbering of the media frames and the
    absence of user entries as they are. *)
Lemma preserves_handle e : Preserves (handle e).
Proof.
  destruct e; simpl;
    auto using preserves_on_message, preserves_on_llm_setup, preserves_on_llm_done.
  - preserve.
  - unfold on_synthesized. preserve.
  - unfold on_resampled. preserve.
  - unfold on_timer. preserve.
  - unfold on_transcribed, turn_settled. preserve.
  - unfold on_llm_read, read_deltas. preserve.
  - unfold on_llm_failed, turn_settled. preserve.
  - unfold on_tick. preserve.
Qed.

Lemma Inv_connect env rate : Inv (connect env rate).
Proof. repeat split; constructor. Qed.

Lemma Inv_run w events : Inv w -> Inv (run w events).
Proof.
  revert w. induction events as [|e events IH]; intros w H; simpl; [exact H|].
  apply IH. apply preserves_handle. exact H.
Qed.

End SessionInvariant.

Section ModelChecks.

Import AI Server.

(** A buffer that holds a sentence mark matches the anchored pattern:
    the fallback of [onToken] on [split] is not reached. *)
Lemma sentence_match_some textBuffer :
  existsb is_sentence_ender textBuffer = true -> is_Some (sentence_match textBuffer).
Proof.
  induction textBuffer as [|c s IH]; simpl; [discriminate|].
  destruct (is_sentence_ender c); simpl; [eauto|].
  intros H. destruct (IH H) as [r ->]. simpl. eauto.
Qed.

Lemma chunkPCM_returns pcm s : 0 < s -> is_Some (chunkPCM pcm s).
Proof.
  intros Hs.
  destruct (chunkPCM_loop_spec (length pcm) pcm s Hs 0 []) as (rest & Hrun & _);
    [lia | unfold buflen; lia |].
  unfold chunkPCM. rewrite Hrun. eauto.
Qed.

(** The chunk size of a session is positive, so [chunkPCM] returns in
    [streamTTSAudio] and in [sendFallbackSilence]. *)
Lemma session_chunks_return pcm s : is_Some (chunkPCM pcm (chunk_size s)).
Proof.
  apply chunkPCM_returns. unfold chunk_size. destruct (_ =? _); lia.
Qed.

Example trim_example : trim (js "  a b  ") = js "a b".
Proof. reflexivity. Qed.

Example substring_swaps : substring (js "abcdef") 4 1 = js "bcd".
Proof. reflexivity. Qed.

Example slice_from_end : slice (js "abcdef") 1 (Some (-1)) = js "bcde".
Proof. reflexivity. Qed.

Example lastIndexOf_at_position : lastIndexOf (js "a.b.c") (js ".") 3 = 3.
Proof. reflexivity. Qed.

Example lastIndexOf_before_position : lastIndexOf (js "a.b.c") (js ".") 2 = 1.
Proof. reflexivity. Qed.

Example lastIndexOf_none : lastIndexOf (js "abc") (js ".") 2 = -1.
Proof. reflexivity. Qed.

Example count_matches_word_boundaries :
  KB.count_matches (js "price") None (js "price, prices and the price") 0 = 2.
Proof. reflexivity. Qed.

Example base64_example : Buffer_from_base64 (js "AQID/w==") = [Byte.x01; Byte.x02; Byte.x03; Byte.xff].
Proof. reflexivity. Qed.

Example cleanGreetingText_example :
  cleanGreetingText (js "GREETING_TEXT='Namaste!' ") = js "'Namaste!'".
Proof. reflexivity. Qed.

Example cleanGreetingText_quotes :
  cleanGreetingText (js "GREETING_TEXT='Namaste!'") = js "Namaste!".
Proof. reflexivity. Qed.

Example postProcessReply_example :
  postProcessReply (js "**Hello** *there*, see [the docs](http://x.y) for `more`")
  = js "Hello there, see the docs for more.".
Proof. reflexivity. Qed.

End ModelChecks.

Section MediaEvent.

Import AI Server.

Lemma start_greeting_audio_state w :
  audio_state (exec start_greeting w) = audio_state w.
Proof.
  unfold exec, start_greeting, streamTTSAudio, mbind, M_bind. simpl.
  destruct (trim (greeting_text w)); reflexivity.
Qed.

Lemma capture_stream_sid_audio_state stream_sid w :
  audio_state (exec (capture_stream_sid stream_sid) w) = audio_state w.
Proof.
  unfold exec, capture_stream_sid, mbind, M_bind. simpl.
  destruct (negb (truthy (streamSid (session w))) && truthy stream_sid); [|reflexivity].
  simpl.
  destruct (negb (greetingSent (session w)) && negb (greetingInProgress (session w))
            && isActive (session w)); [|reflexivity].
  apply (start_greeting_audio_state
           (snd (set_streamSid stream_sid w))).
Qed.

(** [processUserAudio] leaves the inbound buffer empty. *)
Lemma processUserAudio_empties w :
  audioBuffer (session (exec processUserAudio w)) = [].
Proof.
  unfold exec, processUserAudio, turn_settled, mbind, M_bind. simpl.
  destruct (audioBuffer (session w)) as [|b bs] eqn:Hbuf; simpl; [exact Hbuf|].
  destruct (pendingClear (session w)); simpl; [reflexivity|].
  destruct (count_loud _) as [n|]; simpl; [|reflexivity].
  destruct (mostly_silence _ _); reflexivity.
Qed.

Lemma exec_bind {A B} (m : M A) (f : A -> M B) w :
  exec (m ≫= f) w = exec (f (fst (m w))) (exec m w).
Proof. reflexivity. Qed.

Lemma buffer_audio_spec media w :
  audioBuffer (session (exec (buffer_audio media) w)) =
  let appended := audioBuffer (session w)
                  ++ [Buffer_from_base64 (default [] (payload media))] in
  if bool_decide (track media = Some (js "outbound")) then audioBuffer (session w)
  else if negb (processingAudio (session w))
          && (sampleRate (session w) * 2 * 2
              <=? foldl (fun sum buf => sum + buflen buf) 0 appended)
       then [] else appended.
Proof.
  unfold buffer_audio. cbv zeta.
  destruct (bool_decide (track media = Some (js "outbound"))); [reflexivity|].
  unfold exec, mbind, M_bind. simpl.
  assert (Hpos : (0 <? Z.of_nat (length (audioBuffer (session w)
                   ++ [Buffer_from_base64 (default [] (payload media))]))) = true).
  { apply Z.ltb_lt. rewrite length_app. simpl. lia. }
  rewrite Hpos. simpl.
  destruct (negb (processingAudio (session w))); simpl; [|reflexivity].
  destruct (_ <=? _); simpl; [|reflexivity].
  match goal with |- audioBuffer (session (snd (processUserAudio ?w0))) = _ =>
    apply (processUserAudio_empties w0) end.
Qed.

(** C7 (as amended). For every session, whatever its [isActive] flag,
    a [media] event with a payload leaves the inbound buffer unchanged
    only on the [outbound] track; on any other track the decoded
    payload is appended to the buffer, which [processUserAudio] then
    takes at once (leaving it empty) when no turn is in flight and the
    threshold of two seconds is reached. An event without payload
    changes nothing. *)
Theorem media_event_buffers_whatever_isActive (w : World)
    (stream_sid : option jsstring) (media : Media) :
  let w' := exec (handleMediaEvent stream_sid (Some media)) w in
  let s := session w in
  let appended := audioBuffer s ++ [Buffer_from_base64 (default [] (payload media))] in
  (truthy (payload media) = false -> w' = w)
  /\ (truthy (payload media) = true ->
      audioBuffer (session w') =
      if bool_decide (track media = Some (js "outbound")) then audioBuffer s
      else if negb (processingAudio s)
              && (sampleRate s * 2 * 2 <=? foldl (fun sum buf => sum + buflen buf) 0 appended)
           then [] else appended).
Proof.
  cbv zeta. unfold handleMediaEvent. split; intros Hpayload; rewrite Hpayload; simpl negb.
  - reflexivity.
  - cbv iota. rewrite exec_bind, buffer_audio_spec. cbv zeta.
    pose proof (capture_stream_sid_audio_state stream_sid w) as Hsame.
    unfold audio_state in Hsame. injection Hsame as Hbuf Hproc Hrate _.
    rewrite Hbuf, Hproc, Hrate. reflexivity.
Qed.

Lemma media_event_buffers_whatever_isActive_witness :
  let w := connect Scenario.env0 8000 in
  let media := mkMedia (Some (js "gICA")) (Some (js "inbound")) in
  truthy (payload media) = true
  /\ isActive (session w) = false
  /\ audioBuffer (session (exec (handleMediaEvent None (Some media)) w))
     = [[Byte.x80; Byte.x80; Byte.x80]].
Proof.
  intros w media. split; [reflexivity|]. split; [reflexivity|].
  destruct (media_event_buffers_whatever_isActive w None media) as [_ H].
  rewrite H by reflexivity. vm_compute. reflexivity.
Defined.

(** The claim as stated fails: a session that has just been created
    ([isActive] is false) takes the audio of a [media] event on the
    inbound track into its buffer. *)
Lemma inactive_session_buffers_audio :
  let w := connect Scenario.env0 8000 in
  let w' := step w (Scenario.inbound (js "gICA")) in
  isActive (session w) = false
  /\ isActive (session w') = false
  /\ enabled w (Scenario.inbound (js "gICA")) = true
  /\ audioBuffer (session w) = []
  /\ audioBuffer (session w') = [[Byte.x80; Byte.x80; Byte.x80]].
Proof. vm_compute. repeat split; reflexivity. Qed.

End MediaEvent.

Section SilenceGate.

Import AI Server.




(** Without a single byte of audio (a chunk that decoded to nothing)
    there is no sample to count: the ratio is [NaN], the gate does not
    close, and the empty buffer is handed to the transcription
    service. *)
Lemma empty_audio_passes_the_gate :
  let s := mkSession (Some Scenario.S1) 16000 [[]] [] ∅ 1 true false true true false
             false true in
  let w := mkWorld Scenario.env0 s 1 [] [] [] [] [] [] 1 in
  transcribed (calls (exec processUserAudio w)) = [[]].
Proof. reflexivity. Qed.

End SilenceGate.

Section SessionClaims.

Import AI Server Scenario.

(** C3. In every session, whatever happens in whatever order, the
    sequence numbers of the media frames sent (greeting, fragments of
    turns and fallback silence together) are, in the order of sending,
    0, 1, 2, ...: the first is 0, none is repeated and none is skipped,
    as long as the session has sent at most 2^53 frames, the range in
    which the counter of the session counts exactly. *)
Theorem sequence_numbers_contiguous (env : Env) (rate : Z) (events : list Event) :
  let w := run (connect env rate) events in
  Z.of_nat (length (media_numbers (wire w))) <= max_exact ->
  media_numbers (wire w) = seqZ 0 (Z.of_nat (length (media_numbers (wire w))))
  /\ forall (k : nat) n, media_numbers (wire w) !! k = Some n -> n = Z.of_nat k.
Proof.
  intros w Hcount.
  destruct (Inv_run (connect env rate) events (Inv_connect env rate)) as [[Hnum _] _].
  fold w in Hnum.
  assert (Heq : media_numbers (wire w)
                = seqZ 0 (Z.of_nat (length (media_numbers (wire w))))).
  { rewrite Hnum at 1. unfold seqZ. rewrite Nat2Z.id.
    apply map_ext_in. intros k Hk. apply in_seq in Hk.
    unfold counter. lia. }
  split; [exact Heq|].
  intros k n Hk. rewrite Heq in Hk. apply lookup_seqZ in Hk. lia.
Qed.

Lemma sequence_numbers_contiguous_witness :
  let w := run (connect env0 8000) three_sentences in
  Z.of_nat (length (media_numbers (wire w))) <= max_exact
  /\ media_numbers (wire w) = [0; 1; 2; 3; 4; 5].
Proof.
  intros w.
  assert (Hcount : Z.of_nat (length (media_numbers (wire w))) <= max_exact)
    by (vm_compute; discriminate).
  split; [exact Hcount|].
  destruct (sequence_numbers_contiguous env0 8000 three_sentences Hcount) as [Heq _].
  fold w in Heq. rewrite Heq. vm_compute. reflexivity.
Defined.

(** In every session, whatever happens, no entry of the conversation
    history is a user entry. *)
Lemma history_has_no_user_entry (env : Env) (rate : Z) (events : list Event) :
  Forall (fun m => role m <> user)
    (conversationHistory (session (run (connect env rate) events))).
Proof.
  destruct (Inv_run (connect env rate) events (Inv_connect env rate)) as [_ Hno].
  exact Hno.
Qed.

(** C4 (the code at a failing input). A turn in which the caller's
    words are transcribed as "what is the price" and the model answers
    "It costs ten rupees." leaves a history of the persona and the
    assistant entry, without a user entry; the prompt of the next turn
    does not contain the caller's earlier words. *)
Theorem user_text_never_enters_history :
  let w := run (connect env0 8000) two_turns in
  feasible (connect env0 8000) two_turns = true
  /\ conversationHistory (session w)
     = [mkMessage system (js "You are Parvati.");
        mkMessage assistant (js "It costs ten rupees.")]
  /\ exists first second,
       prompts (calls w) = [first; second]
       /\ includes first (js "what is the price") = true
       /\ includes second (js "It costs ten rupees.") = true
       /\ includes second (js "what is the price") = false.
Proof.
  intros w.
  split; [vm_compute; reflexivity|].
  split; [vm_compute; reflexivity|].
  eexists _, _. split; [vm_compute; reflexivity|].
  vm_compute. repeat split; reflexivity.
Qed.

(** Whenever the loop of [streamTTSAudio] comes to a chunk boundary with
    the socket open and a clear pending, it sends no media frame and
    takes the clear back; with [sendMark] set, the mark follows. *)
Lemma barge_in_at_chunk_boundary id chunks i sendMark owner w :
  (i < length chunks)%nat -> readyState w = 1 -> pendingClear (session w) = true ->
  let w' := exec (stream_loop id chunks i sendMark owner) w in
  media_origins (wire w') = media_origins (wire w)
  /\ pendingClear (session w') = false
  /\ marks (wire w') =
     marks (wire w) ++ (if sendMark then [js "assistant_reply_done"] else []).
Proof.
  intros Hi Hopen Hclear. unfold stream_loop.
  apply Nat.ltb_lt in Hi. rewrite Hi.
  unfold exec, stream_after_loop, stream_settled, mbind, M_bind. simpl.
  rewrite Hopen. simpl. rewrite Hclear. simpl. rewrite Hopen. simpl.
  unfold media_origins, marks.
  destruct sendMark, owner; simpl; rewrite ?omap_app, ?app_nil_r; auto.
Qed.

(** When two fragments are being streamed at once, a [clear] stops the
    one whose pause ends first, which takes the clear back; the other
    goes on to its last frame. *)
Lemma clear_reaches_one_stream_only :
  let w := run (connect env0 8000) clear_between_two in
  let w' := run w [EvTimer 3; EvTimer 4; EvTimer 4] in
  feasible (connect env0 8000) (clear_between_two ++ [EvTimer 3; EvTimer 4; EvTimer 4]) = true
  /\ pendingClear (session w) = true
  /\ media_origins (wire w) = [0; 2; 3; 4]%nat
  /\ media_origins (wire w') = [0; 2; 3; 4; 4; 4]%nat.
Proof. vm_compute. repeat split; reflexivity. Qed.

(** Two fragments, of which the second is flushed while the first is in
    flight, are streamed one after the other. *)
Example two_fragments_in_order :
  let w := run (connect env0 8000) two_sentences in
  feasible (connect env0 8000) two_sentences = true
  /\ media_origins (wire w) = [0; 2; 2; 3; 3]%nat
  /\ marks (wire w) = [js "assistant_reply_done"].
Proof. vm_compute. repeat split; reflexivity. Qed.

(** C1 (the code at a failing input). The final chunk of a reply is
    synthesized to two frames; the first is sent, then [clear] arrives.
    At the next chunk boundary the loop stops without a further media
    frame, but it also takes the pending clear back, so that the test
    after the loop passes and the mark [assistant_reply_done] of the
    turn is sent. *)
Theorem final_mark_sent_after_barge_in :
  let w := run (connect env0 8000) barge_in in
  let w' := step w (EvTimer 2) in
  feasible (connect env0 8000) (barge_in ++ [EvTimer 2]) = true
  /\ pendingClear (session w) = true
  /\ (exists chunks, lookup_id 2 (tasks w) = Some (StreamPace chunks 0 true (OwnFragment 1))
                     /\ length chunks = 2%nat)
  /\ media_origins (wire w') = media_origins (wire w)
  /\ wire w' = wire w ++ [(2%nat, MarkFrame (Some S1) (js "assistant_reply_done"))].
Proof.
  intros w w'.
  split; [vm_compute; reflexivity|].
  split; [vm_compute; reflexivity|].
  split; [eexists; split; vm_compute; reflexivity|].
  split; vm_compute; reflexivity.
Qed.

(** C2 (the code at a failing input). Three sentences are flushed while
    the first is still being synthesized. The second and the third both
    wait for the promise of the first; when it settles, both start, and
    their frames alternate on the wire: a frame of the third fragment
    (activation 4) is sent before the last frame of the second
    (activation 3). *)
Theorem fragments_interleave_on_the_wire :
  let w := run (connect env0 8000) three_sentences in
  feasible (connect env0 8000) three_sentences = true
  /\ synthesized (calls w)
     = [(0%nat, js "Hello! Thank you for calling. How can I help you today?");
        (2%nat, js "First sentence here.");
        (3%nat, js "Second sentence here.");
        (4%nat, js "Third sentence here.")]
  /\ media_origins (wire w) = [0; 2; 3; 4; 3; 4]%nat.
Proof.
  intros w.
  split; [vm_compute; reflexivity|].
  split; vm_compute; reflexivity.
Qed.

End SessionClaims.

(* ------------------------------------------------------------------ *)
(** ** Framing of PCM audio: how many frames, and when the loop ends *)
(* ------------------------------------------------------------------ *)

Section ChunkPCMFrames.

Lemma ceil_div_step n s :
  0 < s -> 0 < n -> (n + s - 1) / s = 1 + (Z.max 0 (n - s) + s - 1) / s.
Proof.
  intros Hs Hn.
  destruct (Z.le_gt_cases s n) as [Hge|Hlt].
  - rewrite Z.max_r by lia.
    replace (n + s - 1) with (n - s + s - 1 + 1 * s) by lia.
    rewrite Z.div_add by lia. lia.
  - rewrite Z.max_l by lia.
    replace (0 + s - 1) with (s - 1) by lia.
    rewrite (Z.div_small (s - 1) s) by lia.
    symmetry. apply Z.div_unique with (r := n - 1); lia.
Qed.

Lemma chunkPCM_loop_count fuel pcm s :
  0 < s ->
  forall i chunks,
    0 <= i ->
    buflen pcm - i <= Z.of_nat fuel ->
    exists rest,
      chunkPCM_loop fuel pcm s i chunks = Some (chunks ++ rest)
      /\ Z.of_nat (length rest) = (Z.max 0 (buflen pcm - i) + s - 1) / s
      /\ Forall (fun f => 0 < buflen f) rest.
Proof.
  intros Hs.
  induction fuel as [|fuel IH]; intros i chunks Hi Hfuel; simpl.
  - destruct (Z.ltb_spec i (buflen pcm)); [lia|].
    exists []. rewrite app_nil_r, Z.max_l by lia.
    repeat split; auto. simpl. symmetry. apply Z.div_small. lia.
  - destruct (Z.ltb_spec i (buflen pcm)) as [Hlt|Hge].
    + set (x := slice pcm i (Some (Z.min (i + s) (buflen pcm)))).
      destruct (IH (i + s) (chunks ++ [x])) as (rest & Hrun & Hlen & Hpos);
        [lia | lia |].
      exists (x :: rest). rewrite Hrun, <- app_assoc. simpl length.
      split; [reflexivity|]. split.
      * rewrite Nat2Z.inj_succ, Hlen, (Z.max_r 0 (buflen pcm - i)) by lia.
        rewrite (ceil_div_step (buflen pcm - i) s) by lia.
        replace (buflen pcm - (i + s)) with (buflen pcm - i - s) by lia. lia.
      * constructor; [|exact Hpos].
        unfold x, slice, slice_index, buflen in *.
        destruct (Z.ltb_spec i 0); [lia|].
        destruct (Z.ltb_spec (Z.min (i + s) (Z.of_nat (length pcm))) 0); [lia|].
        rewrite length_take, length_drop. lia.
    + exists []. rewrite app_nil_r, Z.max_l by lia.
      repeat split; auto. simpl. symmetry. apply Z.div_small. lia.
Qed.

(** X1. With a positive chunk size, [chunkPCM] cuts a buffer of [n]
    bytes into [ceil(n / chunkSize)] frames, none of them empty; an
    empty buffer gives no frame at all. *)
Theorem chunkPCM_frame_count (pcm : Buffer) (s : Z) :
  0 < s ->
  exists frames,
    chunkPCM pcm s = Some frames
    /\ Z.of_nat (length frames) = (buflen pcm + s - 1) / s
    /\ Forall (fun f => 0 < buflen f) frames
    /\ (pcm = [] -> frames = []).
Proof.
  intros Hs.
  destruct (chunkPCM_loop_count (length pcm) pcm s Hs 0 []) as (rest & Hrun & Hlen & Hpos);
    [lia | unfold buflen; lia |].
  exists rest. unfold chunkPCM. rewrite Hrun. simpl.
  rewrite Z.sub_0_r, Z.max_r in Hlen by (unfold buflen; lia).
  repeat split; auto.
  intros ->. change (buflen []) with 0 in Hlen.
  rewrite (Z.div_small (0 + s - 1) s) in Hlen by lia.
  destruct rest; [reflexivity | simpl in Hlen; lia].
Qed.

Lemma chunkPCM_frame_count_witness :
  0 < 3200 /\
  exists frames,
    chunkPCM (repeat Byte.x01 (Z.to_nat 7000)) 3200 = Some frames
    /\ Z.of_nat (length frames) = 3.
Proof.
  split; [lia|].
  destruct (chunkPCM_frame_count (repeat Byte.x01 (Z.to_nat 7000)) 3200)
    as (frames & Hrun & Hlen & _); [lia|].
  exists frames. split; [exact Hrun|]. rewrite Hlen. reflexivity.
Defined.

(** X2. With a chunk size of zero or less, the loop of [chunkPCM] never
    ends on a buffer that holds a byte: whatever number of iterations is
    allowed, it has not returned. *)
Theorem chunkPCM_nonpositive_size_never_returns (pcm : Buffer) (s : Z) (fuel : nat) :
  s <= 0 -> pcm <> [] ->
  chunkPCM_loop fuel pcm s 0 [] = None /\ chunkPCM pcm s = None.
Proof.
  intros Hs Hne.
  assert (Hlen : 0 < buflen pcm).
  { unfold buflen. destruct pcm; [congruence | simpl; lia]. }
  split; [|unfold chunkPCM]; apply chunkPCM_loop_stuck; assumption.
Qed.

Lemma chunkPCM_nonpositive_size_never_returns_witness :
  0 <= 0 /\ [Byte.x01] <> [] /\
  chunkPCM_loop 1000 [Byte.x01] 0 0 [] = None.
Proof.
  split; [lia|]. split; [discriminate|].
  apply (chunkPCM_nonpositive_size_never_returns [Byte.x01] 0 1000); [lia | discriminate].
Defined.

End ChunkPCMFrames.

(* ------------------------------------------------------------------ *)
(** ** Facts about the string helpers *)
(* ------------------------------------------------------------------ *)

Section StringFacts.

Lemma trimStart_suffix s : exists k, trimStart s = drop k s.
Proof.
  induction s as [|c s [k IH]]; simpl.
  - exists O. reflexivity.
  - destruct (is_whitespace c).
    + exists (S k). exact IH.
    + exists O. reflexivity.
Qed.

Lemma trimStart_length s : (length (trimStart s) <= length s)%nat.
Proof. destruct (trimStart_suffix s) as [k ->]. rewrite length_drop. lia. Qed.

Lemma trim_length s : jslen (trim s) <= jslen s.
Proof.
  unfold trim, trimEnd, jslen. rewrite length_rev.
  pose proof (trimStart_length (rev (trimStart s))) as H1.
  rewrite length_rev in H1. pose proof (trimStart_length s). lia.
Qed.

Lemma trimStart_all_whitespace s :
  Forall (fun c => is_whitespace c = true) s -> trimStart s = [].
Proof. induction 1 as [|c s Hc _ IH]; simpl; [reflexivity | rewrite Hc; exact IH]. Qed.

Lemma trim_all_whitespace s :
  Forall (fun c => is_whitespace c = true) s -> trim s = [].
Proof. intros H. unfold trim. rewrite (trimStart_all_whitespace s H). reflexivity. Qed.

(** A trimmed string starts with a character other than white space. *)
Lemma trim_head s c : head (trim s) = Some c -> is_whitespace c = false.
Proof.
  unfold trim, trimEnd. intros H.
  destruct (trimStart s) as [|d t] eqn:Hs; [discriminate|].
  pose proof (trimStart_head s d t Hs) as Hd.
  destruct (trimStart_suffix (rev (d :: t))) as [k Hk]. rewrite Hk in H.
  rewrite <- (rev_involutive (d :: t)) in Hs.
  assert (Hhead : forall (l : jsstring) n x, head (rev (drop n l)) = Some x -> head (rev l) = Some x).
  { intros l n. revert l. induction n as [|n IH]; intros l x Hx.
    - rewrite drop_0 in Hx. exact Hx.
    - destruct l as [|y l]; [exact Hx|]. simpl in Hx. apply IH in Hx.
      simpl. destruct (rev l); [discriminate|]. exact Hx. }
  apply Hhead in H. rewrite rev_involutive in H. simpl in H. congruence.
Qed.

Lemma last_rev_head {A} (l : list A) : last l = head (rev l).
Proof.
  induction l as [|x l IH] using rev_ind; [reflexivity|].
  rewrite last_snoc, rev_app_distr. reflexivity.
Qed.

(** A trimmed string ends with a character other than white space. *)
Lemma trim_last s c : last (trim s) = Some c -> is_whitespace c = false.
Proof.
  unfold trim, trimEnd. rewrite last_rev_head, rev_involutive.
  destruct (trimStart (rev (trimStart s))) as [|d t] eqn:Hs; [discriminate|].
  simpl. intros H. injection H as <-. exact (trimStart_head _ _ _ Hs).
Qed.

Lemma trimStart_keeps_last s c :
  last s = Some c -> is_whitespace c = false -> last (trimStart s) = Some c.
Proof.
  intros Hlast Hc. induction s as [|x s IH]; [discriminate|]. simpl.
  destruct (is_whitespace x) eqn:Hx; [|exact Hlast].
  destruct s as [|y s]; [simpl in Hlast; congruence|].
  apply IH. exact Hlast.
Qed.

Lemma trimEnd_fixed s c :
  last s = Some c -> is_whitespace c = false -> trimEnd s = s.
Proof.
  intros Hlast Hc. unfold trimEnd. rewrite last_rev_head in Hlast.
  destruct (rev s) as [|d t] eqn:Hr; [discriminate|].
  simpl in Hlast. injection Hlast as ->. simpl. rewrite Hc.
  rewrite <- Hr. apply rev_involutive.
Qed.

(** Trimming keeps a last character that is not white space. *)
Lemma trim_keeps_last s c :
  last s = Some c -> is_whitespace c = false -> last (trim s) = Some c.
Proof.
  intros Hlast Hc. unfold trim.
  pose proof (trimStart_keeps_last s c Hlast Hc) as H.
  rewrite (trimEnd_fixed _ c H Hc). exact H.
Qed.

Lemma substring_length s a b :
  0 <= a <= b -> jslen (substring s a b) <= b - a.
Proof.
  intros Hab. unfold substring, clamp, jslen. cbv zeta.
  rewrite length_take, length_drop. lia.
Qed.

Lemma substring_from_start (s : jsstring) b :
  0 <= b -> substring s 0 b = take (Z.to_nat b) s.
Proof.
  intros Hb. unfold substring, clamp, jslen. cbv zeta.
  rewrite (Z.min_r _ 0), (Z.max_l 0 0) by lia.
  rewrite (Z.min_l 0) by lia. rewrite drop_0.
  rewrite (Z.max_r 0) by lia. rewrite Z.sub_0_r.
  destruct (Z.le_gt_cases b (Z.of_nat (length s))).
  - rewrite Z.min_r, Z.max_r by lia. reflexivity.
  - rewrite Z.min_l, Z.max_r by lia. rewrite Nat2Z.id.
    rewrite take_ge by lia. symmetry. apply take_ge. lia.
Qed.

Lemma lastIndexOf_go_le p s : forall k limit best,
  best <= limit -> lastIndexOf_go p s k limit best <= limit.
Proof.
  induction s as [|c s IH]; intros k limit best Hbest; simpl.
  - destruct (Z.leb_spec k limit); simpl; [|lia].
    destruct (isPrefix p []); lia.
  - apply IH. destruct (Z.leb_spec k limit); simpl; [|lia].
    destruct (isPrefix p (c :: s)); lia.
Qed.

(** [lastIndexOf] answers an index at or before the position given. *)
Lemma lastIndexOf_le s p pos : lastIndexOf s p pos <= Z.max pos 0.
Proof. unfold lastIndexOf. apply lastIndexOf_go_le. lia. Qed.

End StringFacts.

(* ------------------------------------------------------------------ *)
(** ** The chunks of a document *)
(* ------------------------------------------------------------------ *)

Section ChunkTextChunks.

Import KB.

Lemma window_end_le text chunkSize start :
  0 <= start -> 1 <= chunkSize ->
  window_end text chunkSize start <= start + chunkSize + 1.
Proof.
  intros Hstart Hsize. unfold window_end. cbv zeta.
  set (end_ := Z.min (start + chunkSize) (jslen text)).
  assert (Hend : end_ <= start + chunkSize) by (unfold end_; lia).
  destruct (end_ <? jslen text) eqn:Hlt; [|lia].
  apply Z.ltb_lt in Hlt.
  assert (0 <= end_) by (unfold end_, jslen in *; lia).
  pose proof (lastIndexOf_le text [46%N] end_).
  pose proof (lastIndexOf_le text [10%N; 10%N] end_).
  destruct (_ <? _); lia.
Qed.

Lemma chunkText_loop_chunks (P : jsstring -> Prop) text chunkSize overlap fuel :
  1 <= chunkSize ->
  (forall s e, 0 <= s < e -> e <= s + chunkSize + 1 ->
     0 < jslen (trim (substring text s e)) -> P (trim (substring text s e))) ->
  forall start windows chunks r,
    0 <= start ->
    Forall P chunks ->
    Z.of_nat (length chunks) <= maxChunks text chunkSize overlap ->
    chunkText_loop fuel text chunkSize overlap start windows chunks = Some r ->
    Forall P (snd r)
    /\ Z.of_nat (length (snd r)) <= maxChunks text chunkSize overlap.
Proof.
  intros Hsize HP.
  induction fuel as [|fuel IH]; intros start windows chunks r Hstart Hall Hcount; simpl.
  - destruct (_ && _); [discriminate|]. intros [= <-]. auto.
  - destruct (Z.ltb_spec start (jslen text)) as [Hlt|Hge]; simpl;
      [|intros [= <-]; auto].
    destruct (Z.ltb_spec (Z.of_nat (length chunks)) (maxChunks text chunkSize overlap))
      as [Hroom|Hfull]; [|intros [= <-]; auto].
    pose proof (window_end_gt text chunkSize start Hsize Hlt) as Hgt.
    pose proof (window_end_le text chunkSize start Hstart Hsize) as Hle.
    set (end_ := window_end text chunkSize start) in *.
    set (chunk := trim (substring text start end_)).
    assert (Hnew : Forall P (if 0 <? jslen chunk then chunks ++ [chunk] else chunks)
                   /\ Z.of_nat (length (if 0 <? jslen chunk then chunks ++ [chunk] else chunks))
                      <= maxChunks text chunkSize overlap).
    { destruct (Z.ltb_spec 0 (jslen chunk)) as [Hpos|_]; [|auto].
      split; [|rewrite length_app; simpl; lia].
      apply Forall_app. split; [exact Hall|]. constructor; [|constructor].
      apply HP; auto. }
    destruct Hnew as [Hall' Hcount'].
    destruct (jslen text <=? end_); [intros [= <-]; auto|].
    apply IH; auto. lia.
Qed.

(** X3. With a chunk size of at least 1, every chunk that [chunkText]
    returns is not empty, has no white space at its ends, and has at
    most [chunkSize + 1] characters (a window that is cut after a full
    stop found at its very end is one character longer than the chunk
    size); and there are at most
    [ceil(length / max(1, chunkSize - overlap)) + 100] chunks. *)
Theorem chunkText_chunk_bounds (text : jsstring) (chunkSize overlap : Z)
    (chunks : list jsstring) :
  1 <= chunkSize ->
  chunkText text chunkSize overlap = Some chunks ->
  Forall (fun c => 1 <= jslen c <= chunkSize + 1
                   /\ (forall x, head c = Some x -> is_whitespace x = false)
                   /\ (forall x, last c = Some x -> is_whitespace x = false)) chunks
  /\ Z.of_nat (length chunks) <= maxChunks text chunkSize overlap.
Proof.
  intros Hsize. unfold chunkText, chunkText_trace.
  assert (Hmax : 0 <= maxChunks text chunkSize overlap).
  { unfold maxChunks. cbv zeta.
    assert (0 <= (jslen text + Z.max 1 (chunkSize - overlap) - 1)
                 / Z.max 1 (chunkSize - overlap))
      by (apply Z.div_pos; unfold jslen; lia).
    lia. }
  destruct (jslen (trim text) =? 0).
  - intros [= <-]. split; [constructor | simpl; lia].
  - destruct (chunkText_loop _ _ _ _ _ _ _) as [r|] eqn:Hrun; [|discriminate].
    intros [= <-].
    apply (chunkText_loop_chunks _ text chunkSize overlap (length text) Hsize)
      with (start := 0) (windows := []) (chunks := []); auto; try lia.
    intros s e Hs He Hpos. split; [|split].
    + pose proof (trim_length (substring text s e)).
      pose proof (substring_length text s e). lia.
    + apply trim_head.
    + apply trim_last.
Qed.

Lemma chunkText_chunk_bounds_witness :
  1 <= 4 /\
  chunkText (js "abcd.efgh") 4 0 = Some [js "abcd."; js "efgh"] /\
  Forall (fun c => 1 <= jslen c <= 4 + 1) [js "abcd."; js "efgh"].
Proof.
  split; [lia|]. split; [reflexivity|].
  destruct (chunkText_chunk_bounds (js "abcd.efgh") 4 0 [js "abcd."; js "efgh"])
    as [Hall _]; [lia | reflexivity |].
  eapply Forall_impl; [exact Hall|]. simpl. intros c H. tauto.
Defined.

(** X4. A text that is not blank, cut with a chunk size of at least 1
    and an overlap that is not negative, gives at least one chunk. *)
Theorem chunkText_nonblank_gives_chunk (text : jsstring) (chunkSize overlap : Z) :
  1 <= chunkSize -> 0 <= overlap -> trim text <> [] ->
  exists c chunks, chunkText text chunkSize overlap = Some (c :: chunks).
Proof.
  intros Hsize Hov Hblank.
  destruct (chunkText_loop_spec text chunkSize overlap (length text) Hsize Hov 0 [] [])
    as (ws & cs & Hrun & Hcs & Hfrom & Hcov); [unfold jslen; lia|].
  simpl in Hrun, Hcov.
  assert (Hchunks : chunkText text chunkSize overlap = Some cs).
  { unfold chunkText, chunkText_trace.
    destruct (Z.eqb_spec (jslen (trim text)) 0) as [H0|_]; [|rewrite Hrun; reflexivity].
    unfold jslen in H0. destruct (trim text); [congruence | simpl in H0; lia]. }
  destruct cs as [|c cs]; [exfalso | eauto].
  assert (Hmax : 0 < maxChunks text chunkSize overlap).
  { unfold maxChunks. cbv zeta.
    assert (0 <= (jslen text + Z.max 1 (chunkSize - overlap) - 1)
                 / Z.max 1 (chunkSize - overlap))
      by (apply Z.div_pos; unfold jslen; lia).
    lia. }
  assert (Hsome : Exists (fun c => is_whitespace c <> true) text).
  { apply not_Forall_Exists; [intros x; apply _|].
    intros Hall. apply Hblank, trim_all_whitespace, Hall. }
  apply Exists_exists in Hsome as (c & Hin & Hc).
  apply list_elem_of_lookup in Hin as (i & Hi).
  assert (Hp : 0 <= Z.of_nat i < jslen text).
  { apply lookup_lt_Some in Hi. unfold jslen. lia. }
  specialize (Hcov Hmax (Z.of_nat i) Hp).
  apply Exists_exists in Hcov as (w & Hw & Hin).
  assert (Hne : trim (substring text (fst w) (snd w)) <> []).
  { rewrite Forall_forall in Hfrom. specialize (Hfrom w Hw).
    apply (window_with_text text (fst w) (snd w) (Z.of_nat i) c); try lia.
    - rewrite Nat2Z.id. exact Hi.
    - destruct (is_whitespace c); congruence. }
  assert (Hmem : trim (substring text (fst w) (snd w)) ∈ chunks_of text ws).
  { unfold chunks_of. apply list_elem_of_filter. split; [exact Hne|].
    apply (list_elem_of_fmap_2 (fun w => trim (substring text (fst w) (snd w)))). exact Hw. }
  rewrite <- Hcs in Hmem. apply elem_of_nil in Hmem. exact Hmem.
Qed.

Lemma chunkText_nonblank_gives_chunk_witness :
  1 <= 1000 /\ 0 <= 200 /\ trim (js "  Opening hours: 9 to 5.  ") <> [] /\
  exists c chunks, chunkText (js "  Opening hours: 9 to 5.  ") 1000 200 = Some (c :: chunks).
Proof.
  assert (Hblank : trim (js "  Opening hours: 9 to 5.  ") <> []) by (vm_compute; discriminate).
  split; [lia|]. split; [lia|]. split; [exact Hblank|].
  apply (chunkText_nonblank_gives_chunk (js "  Opening hours: 9 to 5.  ") 1000 200);
    [lia | lia | exact Hblank].
Defined.

End ChunkTextChunks.

(* ------------------------------------------------------------------ *)
(** ** What [getRelevantChunks] hands to the prompt *)
(* ------------------------------------------------------------------ *)

Section RelevantChunksBounds.

Import KB.

Lemma slice_from_start_length {A} (l : list A) k :
  0 <= k -> Z.of_nat (length (slice l 0 (Some k))) <= k.
Proof.
  intros Hk. unfold slice, slice_index. rewrite Z.ltb_irrefl.
  destruct (Z.ltb_spec k 0); [lia|].
  rewrite length_take, length_drop. lia.
Qed.

Lemma map_indexed_elem {A B} (f : A -> Z -> B) l :
  forall z e, e ∈ map_indexed f z l ->
    exists (i : nat) x, l !! i = Some x /\ e = f x (z + Z.of_nat i).
Proof.
  induction l as [|y l IH]; intros z e He; simpl in He.
  - apply elem_of_nil in He. contradiction.
  - apply elem_of_cons in He as [-> | He].
    + exists O, y. split; [reflexivity|]. f_equal. lia.
    + apply IH in He as (i & x & Hi & ->).
      exists (S i), x. split; [exact Hi|]. f_equal. lia.
Qed.



End RelevantChunksBounds.

(* ------------------------------------------------------------------ *)
(** ** The reply that is kept, and the prompt *)
(* ------------------------------------------------------------------ *)

Section ReplyAndPrompt.

Import AI.

Lemma join_sentences_length l : forall truncated,
  jslen truncated <= 300 -> jslen (join_sentences truncated l) <= 300.
Proof.
  induction l as [|sentence l IH]; intros truncated H; simpl; [exact H|].
  destruct (Z.leb_spec (jslen (truncated ++ sentence)) 300); [apply IH|]; assumption.
Qed.

Lemma sentence_ender_not_whitespace c :
  is_sentence_ender c = true -> is_whitespace c = false.
Proof.
  unfold is_sentence_ender. rewrite !orb_true_iff, !N.eqb_eq.
  intros [[-> | ->] | ->]; reflexivity.
Qed.

(** X6. Whatever the model answered, the reply that [postProcessReply]
    returns has at most 301 characters (300 and the full stop that is
    added), and unless it is empty it ends with ['.'], ['!'] or ['?']. *)
Theorem postProcessReply_bounded (reply : jsstring) :
  jslen (postProcessReply reply) <= 301
  /\ (postProcessReply reply = []
      \/ exists c, last (postProcessReply reply) = Some c /\ is_sentence_ender c = true).
Proof.
  unfold postProcessReply. destruct reply as [|r0 reply]; [split; [unfold jslen; simpl; lia | auto]|].
  cbv zeta.
  match goal with |- context [trim (replace_links ?n ?h)] =>
    set (p := trim (replace_links n h)) end.
  clearbody p.
  set (p2 := if 300 <? jslen p then _ else p).
  assert (H2 : jslen p2 <= 300).
  { unfold p2. destruct (Z.ltb_spec 300 (jslen p)); [|assumption].
    pose proof (substring_length p 0 300).
    destruct (sentences _ _) as [|s l]; [lia|].
    pose proof (join_sentences_length (s :: l) [] ltac:(unfold jslen; simpl; lia)).
    destruct (join_sentences [] (s :: l)); [lia | assumption]. }
  clearbody p2.
  destruct (last p2) as [c|] eqn:Hlast.
  - destruct (is_sentence_ender c) eqn:Hc.
    + split; [pose proof (trim_length p2); lia|].
      right. exists c. split; [|exact Hc].
      apply trim_keeps_last; [exact Hlast | apply sentence_ender_not_whitespace, Hc].
    + split.
      * pose proof (trim_length (p2 ++ [46%N])) as H.
        unfold jslen in *. rewrite length_app in H. simpl in H. lia.
      * right. exists 46%N. split; [|reflexivity].
        apply trim_keeps_last; [apply last_snoc | reflexivity].
  - apply last_None in Hlast. subst p2. split; [unfold jslen; simpl; lia | left; reflexivity].
Qed.

Lemma set_first_persona_conversation personaContent history :
  filter (fun m => role m <> system) (set_first_persona personaContent history)
  = filter (fun m => role m <> system) history
  /\ length (set_first_persona personaContent history) = length history.
Proof.
  induction history as [|msg rest [IH1 IH2]]; simpl; [auto|].
  destruct (is_persona msg) eqn:Hp.
  - unfold is_persona in Hp. apply andb_true_iff in Hp as [Hrole _].
    apply bool_decide_eq_true in Hrole.
    rewrite !filter_cons_False by (simpl; intros H; apply H; exact Hrole). auto.
  - simpl. rewrite !filter_cons, IH1, IH2. destruct (decide _); auto.
Qed.

(** X7. [ensureSystemMessage] touches system entries only: the entries
    of the conversation (those of the user and of the assistant) are the
    same, in the same order, before and after, and the history grows by
    at most the one system entry. *)
Theorem ensureSystemMessage_keeps_conversation (params : Params) (mongoPersona : jsstring)
    (history : list Message) :
  let history' := ensureSystemMessage params mongoPersona history in
  filter (fun m => role m <> system) history' = filter (fun m => role m <> system) history
  /\ (length history <= length history' <= S (length history))%nat.
Proof.
  cbv zeta. unfold ensureSystemMessage.
  destruct history as [|msg rest]; [split; [reflexivity | simpl; lia]|].
  destruct (negb _).
  - rewrite filter_cons_False by (simpl; intros H; apply H; reflexivity).
    split; [reflexivity | simpl; lia].
  - destruct (set_first_persona_conversation
                (match generateSystemPrompt params with
                 | Some (c :: p) => c :: p
                 | _ => mongoPersona
                 end) (msg :: rest)) as [H1 H2].
    rewrite H1, H2. split; [reflexivity | simpl; lia].
Qed.

Lemma set_first_persona_first personaContent history :
  includes personaContent (js "Relevant context") = false ->
  existsb is_persona history = true ->
  exists m l,
    filter (fun m => is_persona m = true) (set_first_persona personaContent history) = m :: l
    /\ content m = personaContent.
Proof.
  intros Hpc. induction history as [|msg rest IH]; simpl; [discriminate|].
  destruct (is_persona msg) eqn:Hp; simpl.
  - intros _. exists (mkMessage (role msg) personaContent), (filter (fun m => is_persona m = true) rest).
    split; [|reflexivity].
    apply filter_cons_True.
    unfold is_persona in *. simpl. apply andb_true_iff in Hp as [-> _].
    rewrite Hpc. reflexivity.
  - intros H. destruct (IH H) as (m & l & Hf & Hm).
    exists m, l. split; [|exact Hm].
    rewrite filter_cons_False by (rewrite Hp; discriminate). exact Hf.
Qed.

Lemma foldl_roles (u a : jsstring) (msgs : list Message) : forall acc : jsstring,
  exists rest,
    foldl (fun acc msg =>
             match role msg with
             | user => acc ++ u ++ content msg ++ nl
             | assistant => acc ++ a ++ content msg ++ nl
             | system => acc
             end) acc msgs = acc ++ rest.
Proof.
  induction msgs as [|x msgs IH]; intros acc; simpl.
  - exists []. symmetry. apply app_nil_r.
  - destruct (role x).
    + apply IH.
    + destruct (IH (acc ++ u ++ content x ++ nl)) as [rest ->].
      eexists. rewrite <- app_assoc. reflexivity.
    + destruct (IH (acc ++ a ++ content x ++ nl)) as [rest ->].
      eexists. rewrite <- app_assoc. reflexivity.
Qed.

(** X8. When the persona text (the prompt generated from the custom
    parameters or, without one, the persona of the store) does not
    contain the words "Relevant context", the prompt that is built after
    [ensureSystemMessage] opens with that persona text and a blank line,
    whatever the history held before. *)
Theorem prompt_opens_with_persona (params : Params) (mongoPersona : jsstring)
    (history : list Message) (contextChunks : list jsstring) (userText : jsstring) :
  let personaContent :=
    match generateSystemPrompt params with
    | Some (c :: p) => c :: p
    | _ => mongoPersona
    end in
  includes personaContent (js "Relevant context") = false ->
  exists rest,
    build_prompt (ensureSystemMessage params mongoPersona history) contextChunks userText
    = personaContent ++ nl ++ nl ++ rest.
Proof.
  intros personaContent Hpc.
  assert (Hfirst : exists m l,
            filter (fun m => is_persona m = true)
                   (ensureSystemMessage params mongoPersona history) = m :: l
            /\ content m = personaContent).
  { unfold ensureSystemMessage. fold personaContent.
    assert (Hnew : is_persona (mkMessage system personaContent) = true).
    { unfold is_persona. simpl. rewrite Hpc. reflexivity. }
    destruct history as [|msg rest].
    - exists (mkMessage system personaContent), []. split; [|reflexivity].
      rewrite filter_cons_True by exact Hnew. reflexivity.
    - destruct (existsb is_persona (msg :: rest)) eqn:Hex; simpl negb; cbv iota.
      + apply set_first_persona_first; assumption.
      + exists (mkMessage system personaContent),
          (filter (fun m => is_persona m = true) (msg :: rest)).
        split; [|reflexivity].
        apply filter_cons_True. exact Hnew. }
  destruct Hfirst as (m & l & Hf & Hm).
  unfold build_prompt. cbv zeta. rewrite Hf, Hm.
  match goal with |- context [foldl _ ?acc ?msgs] =>
    destruct (foldl_roles (js "User: ") (js "Assistant: ") msgs acc) as [rest Hfold] end.
  rewrite Hfold. clear Hfold.
  destruct (match contextChunks with [] => [] | c :: rest0 => _ end);
    eexists; rewrite <- !app_assoc; reflexivity.
Qed.

Lemma generateSystemPrompt_empty : generateSystemPrompt ∅ = None.
Proof. unfold generateSystemPrompt. rewrite bool_decide_eq_true_2; reflexivity. Qed.

Lemma prompt_opens_with_persona_witness :
  let personaContent := js "You are Parvati." in
  includes personaContent (js "Relevant context") = false /\
  exists rest,
    build_prompt (ensureSystemMessage ∅ personaContent
                    [mkMessage assistant (js "Namaste."); mkMessage system (js "old persona")])
                 [] (js "hello")
    = personaContent ++ nl ++ nl ++ rest.
Proof.
  intros personaContent.
  assert (Hpc : includes personaContent (js "Relevant context") = false) by reflexivity.
  split; [exact Hpc|].
  pose proof (prompt_opens_with_persona ∅ personaContent
                [mkMessage assistant (js "Namaste."); mkMessage system (js "old persona")]
                [] (js "hello")) as H.
  cbv zeta in H. rewrite generateSystemPrompt_empty in H. exact (H Hpc).
Defined.

End ReplyAndPrompt.

(* ------------------------------------------------------------------ *)
(** ** The greeting text and the call endpoint *)
(* ------------------------------------------------------------------ *)

Section GreetingAndCall.

Import Server CallEndpoint.

Lemma isPrefix_app p s : isPrefix p (p ++ s) = true.
Proof. induction p as [|c p IH]; simpl; [reflexivity|]. rewrite N.eqb_refl. exact IH. Qed.

Lemma substring_to_end (s : jsstring) (n : nat) :
  (n <= length s)%nat -> substring s (Z.of_nat n) (jslen s) = drop n s.
Proof.
  intros Hn. unfold substring, clamp, jslen. cbv zeta.
  rewrite (Z.min_r _ (Z.of_nat n)), (Z.max_r 0 (Z.of_nat n)) by lia.
  rewrite Z.min_id, (Z.max_r 0) by lia.
  rewrite Z.min_l, Z.max_r by lia. rewrite Nat2Z.id.
  apply take_ge. rewrite length_drop. lia.
Qed.

(** X9. A greeting that still carries its line of the environment file,
    [GREETING_TEXT="..."] or [GREETING_TEXT='...'], is cleaned to the
    text between the quotes, trimmed. *)
Theorem cleanGreetingText_unquotes (q : N) (s : jsstring) :
  q = 34%N \/ q = 39%N ->
  cleanGreetingText (js "GREETING_TEXT=" ++ q :: s ++ [q]) = trim s.
Proof.
  intros Hq. unfold cleanGreetingText, startsWith.
  rewrite isPrefix_app.
  replace (jslen (js "GREETING_TEXT=")) with (Z.of_nat 14) by reflexivity.
  rewrite (substring_to_end _ 14) by (rewrite length_app; simpl; lia).
  change (drop 14 (js "GREETING_TEXT=" ++ q :: s ++ [q])) with (q :: s ++ [q]).
  assert (Hquoted : (isPrefix [34%N] (q :: s ++ [q]) && endsWith (q :: s ++ [q]) [34%N])
                    || (isPrefix [39%N] (q :: s ++ [q]) && endsWith (q :: s ++ [q]) [39%N])
                    = true).
  { unfold endsWith. simpl rev. rewrite rev_app_distr. simpl.
    destruct Hq as [-> | ->]; reflexivity. }
  rewrite Hquoted. f_equal.
  unfold slice, slice_index.
  change (1 <? 0) with false. change (-1 <? 0) with true. cbv iota.
  simpl length. rewrite length_app. simpl length.
  replace (Z.to_nat (Z.min 1 _)) with 1%nat by lia. simpl drop.
  replace (Z.to_nat _) with (length s) by lia.
  apply take_app_length.
Qed.

Lemma cleanGreetingText_unquotes_witness :
  (34 = 34 \/ 34 = 39)%N /\
  cleanGreetingText (js "GREETING_TEXT=" ++ 34%N :: js " Namaste ji " ++ [34%N]) = js "Namaste ji".
Proof.
  split; [left; reflexivity|].
  rewrite (cleanGreetingText_unquotes 34 (js " Namaste ji ")) by (left; reflexivity).
  reflexivity.
Defined.

(** X10. [POST /call] answers status 200 exactly when its payload says
    [success: true], and that happens exactly when all five required
    variables are set, the target number is a string that starts with
    ['+'], and [makeCall], asked with that number, reports success. *)
Theorem post_call_success (env : Env) (body : Body)
    (makeCall : Config -> jsstring -> Field -> CallResult) :
  let response := post_call env body makeCall in
  (status response = 200 <-> success (payload response) = true)
  /\ (success (payload response) = true <->
      missing_keys env = []
      /\ exists number callSid data,
           targetNumber body = Str number
           /\ startsWith number (js "+") = true
           /\ makeCall (read_config env) number (from body) = CallSucceeded callSid data).
Proof.
  cbv zeta. unfold post_call, missing_keys.
  set (config := read_config env).
  change (apiKey config) with (EXOTEL_API_KEY env).
  change (apiToken config) with (EXOTEL_API_TOKEN env).
  change (sid config) with (EXOTEL_SID env).
  change (appId config) with (EXOTEL_APP_ID env).
  change (callerId config) with (EXOTEL_CALLER_ID env).
  destruct (truthy (EXOTEL_API_KEY env)), (truthy (EXOTEL_API_TOKEN env)),
    (truthy (EXOTEL_SID env)), (truthy (EXOTEL_APP_ID env)),
    (truthy (EXOTEL_CALLER_ID env));
    cbn [negb orb app status payload success];
    try (split; [split; discriminate | split; [discriminate | intros [H _]; discriminate]]).
  destruct (targetNumber body) as [|number|t]; cbn [status payload success].
  - split; [split; discriminate|].
    split; [discriminate | intros (_ & n & c & d & H & _); discriminate].
  - destruct (startsWith number (js "+")) eqn:Hplus; cbn [negb status payload success].
    + destruct (makeCall config number (from body)) as [callSid data|error st|message] eqn:Hcall;
        cbn [status payload success].
      * split; [split; reflexivity|]. split; [|reflexivity].
        intros _. split; [reflexivity|]. exists number, callSid, data. auto.
      * split; [split; discriminate|]. split; [discriminate|].
        intros (_ & n & c & d & [= <-] & _ & H). congruence.
      * split; [split; discriminate|]. split; [discriminate|].
        intros (_ & n & c & d & [= <-] & _ & H). congruence.
    + split; [split; discriminate|]. split; [discriminate|].
      intros (_ & n & c & d & [= <-] & H & _). congruence.
  - split; [split; discriminate|].
    split; [discriminate | intros (_ & n & c & d & H & _); discriminate].
Qed.

End GreetingAndCall.

(* ------------------------------------------------------------------ *)
(** ** The payload of a media frame, encoded and decoded *)
(* ------------------------------------------------------------------ *)

Section Base64RoundTrip.

Import Server Base64.

Lemma sextet_base64_char v :
  (v < 64)%N -> sextet (base64_char v) = Some v /\ (base64_char v =? 61)%N = false.
Proof.
  intros Hv.
  assert (Hall : forallb (fun v => match sextet (base64_char v) with
                                   | Some u => (u =? v)%N && negb (base64_char v =? 61)%N
                                   | None => false
                                   end) (map N.of_nat (seq 0 64)) = true)
    by (vm_compute; reflexivity).
  rewrite forallb_forall in Hall.
  specialize (Hall v).
  assert (Hin : In v (map N.of_nat (seq 0 64))).
  { apply in_map_iff. exists (N.to_nat v). split; [lia|]. apply in_seq. lia. }
  specialize (Hall Hin).
  destruct (sextet (base64_char v)) as [u|]; [|discriminate].
  apply andb_true_iff in Hall as [Hu Hne]. apply N.eqb_eq in Hu. subst u.
  split; [reflexivity|]. apply negb_true_iff. exact Hne.
Qed.

Lemma byte_of_eq (n : N) (x : byte) : (n mod 256 = Byte.to_N x)%N -> byte_of n = x.
Proof. intros H. unfold byte_of. rewrite H, Byte.of_to_N. reflexivity. Qed.

Ltac n_arith := intros; zify; Z.to_euclidean_division_equations; lia.

Lemma sextets_in_range x y :
  (x < 256 -> y < 256 ->
   x / 4 < 64 /\ x mod 4 * 16 + y / 16 < 64 /\ x mod 16 * 4 + y / 64 < 64
   /\ x mod 64 < 64 /\ x mod 4 * 16 < 64 /\ x mod 16 * 4 < 64)%N.
Proof. n_arith. Qed.

Lemma first_byte x y :
  (x < 256 -> y < 256 -> (x / 4 * 4 + (x mod 4 * 16 + y / 16) / 16) mod 256 = x)%N.
Proof. n_arith. Qed.

Lemma second_byte x y z :
  (x < 256 -> y < 256 -> z < 256 ->
   ((x mod 4 * 16 + y / 16) mod 16 * 16 + (y mod 16 * 4 + z / 64) / 4) mod 256 = y)%N.
Proof. n_arith. Qed.

Lemma third_byte y z :
  (y < 256 -> z < 256 -> ((y mod 16 * 4 + z / 64) mod 4 * 64 + z mod 64) mod 256 = z)%N.
Proof. n_arith. Qed.

Lemma second_byte_padded x y :
  (x < 256 -> y < 256 ->
   ((x mod 4 * 16 + y / 16) mod 16 * 16 + (y mod 16 * 4) / 4) mod 256 = y)%N.
Proof. n_arith. Qed.

Lemma first_byte_padded x :
  (x < 256 -> (x / 4 * 4 + (x mod 4 * 16) / 16) mod 256 = x)%N.
Proof. n_arith. Qed.

(** X11. The base64 text that a media frame carries for a chunk of
    audio decodes, with the decoder that [handleMediaEvent] applies to
    inbound payloads, to the bytes of the chunk: whatever the buffer,
    [Buffer.from(buffer.toString('base64'), 'base64')] is the buffer. *)
Theorem base64_round_trip (b : Buffer) :
  Buffer_from_base64 (toString_base64 b) = b.
Proof.
  unfold Buffer_from_base64.
  remember (length b) as n eqn:Hn. revert b Hn.
  induction n as [n IH] using lt_wf_ind. intros b Hn.
  destruct b as [|x [|y [|z rest]]]; [reflexivity | | |].
  - pose proof (Byte.to_N_bounded x) as Hx.
    destruct (sextets_in_range (Byte.to_N x) 0) as (H1 & _ & _ & _ & H2 & _); [lia | lia |].
    cbn [toString_base64]. cbv zeta. cbn [sextets].
    destruct (sextet_base64_char _ H1) as [-> ->].
    destruct (sextet_base64_char _ H2) as [-> ->].
    change (61 =? 61)%N with true. cbv iota. cbn [bytes_of_sextets].
    f_equal. apply byte_of_eq, first_byte_padded. lia.
  - pose proof (Byte.to_N_bounded x) as Hx. pose proof (Byte.to_N_bounded y) as Hy.
    destruct (sextets_in_range (Byte.to_N x) (Byte.to_N y)) as (H1 & H2 & _); [lia | lia |].
    destruct (sextets_in_range (Byte.to_N y) 0) as (_ & _ & _ & _ & _ & H3); [lia | lia |].
    cbn [toString_base64]. cbv zeta. cbn [sextets].
    destruct (sextet_base64_char _ H1) as [-> ->].
    destruct (sextet_base64_char _ H2) as [-> ->].
    destruct (sextet_base64_char _ H3) as [-> ->].
    change (61 =? 61)%N with true. cbv iota. cbn [bytes_of_sextets].
    f_equal; [|f_equal]; apply byte_of_eq.
    + apply first_byte; lia.
    + apply second_byte_padded; lia.
  - pose proof (Byte.to_N_bounded x) as Hx. pose proof (Byte.to_N_bounded y) as Hy.
    pose proof (Byte.to_N_bounded z) as Hz.
    destruct (sextets_in_range (Byte.to_N x) (Byte.to_N y)) as (H1 & H2 & _); [lia | lia |].
    destruct (sextets_in_range (Byte.to_N y) (Byte.to_N z)) as (_ & _ & H3 & _); [lia | lia |].
    destruct (sextets_in_range (Byte.to_N z) 0) as (_ & _ & _ & H4 & _); [lia | lia |].
    cbn [toString_base64]. cbv zeta. cbn [sextets].
    destruct (sextet_base64_char _ H1) as [-> ->].
    destruct (sextet_base64_char _ H2) as [-> ->].
    destruct (sextet_base64_char _ H3) as [-> ->].
    destruct (sextet_base64_char _ H4) as [-> ->].
    cbn [bytes_of_sextets].
    f_equal; [|f_equal; [|f_equal]].
    + apply byte_of_eq, first_byte; lia.
    + apply byte_of_eq, second_byte; lia.
    + apply byte_of_eq, third_byte; lia.
    + apply (IH (length rest)); [subst n; simpl; lia | reflexivity].
Qed.

End Base64RoundTrip.

(* ------------------------------------------------------------------ *)
(** ** What a flush takes from the text buffer *)
(* ------------------------------------------------------------------ *)

Section Flush.

Import AI Server.

Lemma span_app (p : N -> bool) s : fst (span p s) ++ snd (span p s) = s.
Proof.
  induction s as [|c s IH]; simpl; [reflexivity|].
  destruct (p c); simpl; [rewrite IH|]; reflexivity.
Qed.

Lemma sentence_match_app s m rest : sentence_match s = Some (m, rest) -> m ++ rest = s.
Proof.
  revert m rest. induction s as [|c s IH]; intros m rest; simpl; [discriminate|].
  destruct (is_sentence_ender c).
  - intros [= <- <-]. simpl. rewrite span_app. reflexivity.
  - destruct (sentence_match s) as [[m' rest']|]; [|discriminate].
    simpl. intros [= <- <-]. simpl. rewrite (IH m' rest') by reflexivity. reflexivity.
Qed.

(** X12. A flush of [onToken] loses no text: when it cuts a part to be
    spoken off the buffer, the buffer is that part followed by what
    stays, up to the white space that is trimmed from the part spoken
    (and, at a forced cut between words, from what stays). *)
Theorem flush_splits_buffer (textBuffer : jsstring) (hasSentenceEnd : bool)
    (textToSpeak remainingBuffer : jsstring) :
  split_flush textBuffer hasSentenceEnd = (textToSpeak, remainingBuffer) ->
  3 < jslen textToSpeak ->
  exists a b,
    textBuffer = a ++ b
    /\ textToSpeak = trim a
    /\ remainingBuffer = (if hasSentenceEnd then b else trim b).
Proof.
  unfold split_flush. destruct hasSentenceEnd.
  - destruct (sentence_match textBuffer) as [[m rest]|] eqn:Hm.
    + intros [= <- <-] _. exists m, rest.
      split; [symmetry; apply sentence_match_app, Hm | auto].
    + intros [= <- <-] H. unfold jslen in H. simpl in H. lia.
  - cbv zeta.
    destruct (Z.ltb_spec 20 (lastIndexOf textBuffer [32%N] 100)) as [Hwb|_].
    + intros [= <- <-] _.
      set (wb := lastIndexOf textBuffer [32%N] 100) in *.
      exists (take (Z.to_nat wb) textBuffer), (drop (Z.to_nat wb) textBuffer).
      split; [symmetry; apply take_drop|]. split.
      * rewrite substring_from_start by lia. reflexivity.
      * f_equal. unfold slice, slice_index.
        destruct (Z.ltb_spec wb 0); [lia|].
        destruct (Z.le_gt_cases wb (Z.of_nat (length textBuffer))).
        -- rewrite Z.min_l by lia. apply take_ge. rewrite length_drop. lia.
        -- rewrite Z.min_r by lia. rewrite Nat2Z.id.
           rewrite !drop_ge by lia. apply take_nil.
    + intros [= <- <-] H. unfold jslen in H. simpl in H. lia.
Qed.

Lemma flush_splits_buffer_witness :
  split_flush (js "It costs ten rupees. And") true = (js "It costs ten rupees.", js "And")
  /\ 3 < jslen (js "It costs ten rupees.")
  /\ exists a b,
       js "It costs ten rupees. And" = a ++ b
       /\ js "It costs ten rupees." = trim a
       /\ js "And" = b.
Proof.
  split; [reflexivity|]. split; [reflexivity|].
  apply (flush_splits_buffer (js "It costs ten rupees. And") true
           (js "It costs ten rupees.") (js "And")); reflexivity.
Defined.

End Flush.

(* ------------------------------------------------------------------ *)
(** ** The session: nothing is sent on a socket that is not open *)
(* ------------------------------------------------------------------ *)

Create HintDb session_quiet.

Section QuietSocket.

Import AI Server SessionProps.

Lemma keeps_ret (R : World -> World -> Prop) {A} (a : A) :
  (forall w, R w w) -> Keeps R (mret a).
Proof. intros Hrefl w. apply Hrefl. Qed.

Lemma keeps_bind (R : World -> World -> Prop) {A B} (m : M A) (f : A -> M B) :
  (forall w1 w2 w3, R w1 w2 -> R w2 w3 -> R w1 w3) ->
  Keeps R m -> (forall a, Keeps R (f a)) -> Keeps R (m ≫= f).
Proof. intros Htrans Hm Hf w. eapply Htrans; [apply Hm | apply Hf]. Qed.

Lemma keeps_for_each (R : World -> World -> Prop) {A} (l : list A) (body : A -> M unit) :
  (forall w, R w w) ->
  (forall w1 w2 w3, R w1 w2 -> R w2 w3 -> R w1 w3) ->
  (forall x, Keeps R (body x)) -> Keeps R (for_each l body).
Proof.
  intros Hrefl Htrans Hbody. induction l as [|x l IH]; simpl.
  - apply keeps_ret, Hrefl.
  - apply keeps_bind; auto.
Qed.

Lemma quiet_refl w : quiet w w.
Proof. intros H. auto. Qed.

Lemma quiet_trans w1 w2 w3 : quiet w1 w2 -> quiet w2 w3 -> quiet w1 w3.
Proof.
  intros H12 H23 H1. destruct (H12 H1) as [H2 Hw2]. destruct (H23 H2) as [H3 Hw3].
  split; [exact H3 | congruence].
Qed.

Lemma quiet_ret {A} (a : A) : Keeps quiet (mret a).
Proof. apply keeps_ret, quiet_refl. Qed.

Lemma quiet_skip : Keeps quiet skip.
Proof. apply quiet_ret. Qed.

Lemma quiet_gets {A} (f : World -> A) : Keeps quiet (gets f).
Proof. intros w. apply quiet_refl. Qed.

Lemma quiet_bind {A B} (m : M A) (f : A -> M B) :
  Keeps quiet m -> (forall a, Keeps quiet (f a)) -> Keeps quiet (m ≫= f).
Proof. apply keeps_bind, quiet_trans. Qed.

Lemma quiet_for_each {A} (l : list A) (body : A -> M unit) :
  (forall x, Keeps quiet (body x)) -> Keeps quiet (for_each l body).
Proof. apply keeps_for_each; [apply quiet_refl | apply quiet_trans]. Qed.

(** What is read from [ws.readyState] on a socket that is not open is
    not 1. *)
Lemma quiet_readyState {B} (k : Z -> M B) :
  (forall rs, rs <> 1 -> Keeps quiet (k rs)) -> Keeps quiet (gets readyState ≫= k).
Proof. intros Hk w Hw. exact (Hk (readyState w) Hw w Hw). Qed.

Lemma quiet_with_session (f : Session -> Session) : Keeps quiet (with_session f).
Proof. intros w H. auto. Qed.

Lemma quiet_modify (f : World -> World) :
  (forall w, readyState (f w) = readyState w) ->
  (forall w, wire (f w) = wire w) ->
  Keeps quiet (modify f).
Proof. intros Hr Hw w H. unfold modify. simpl. rewrite Hr, Hw. auto. Qed.

(** The socket is closed or closing. *)
Lemma quiet_set_readyState v : v <> 1 -> Keeps quiet (set_readyState v).
Proof. intros Hv w H. auto. Qed.

Lemma quiet_set_calls v : Keeps quiet (set_calls v).
Proof. apply quiet_modify; reflexivity. Qed.
Lemma quiet_set_tasks v : Keeps quiet (set_tasks v).
Proof. apply quiet_modify; reflexivity. Qed.
Lemma quiet_set_waiters v : Keeps quiet (set_waiters v).
Proof. apply quiet_modify; reflexivity. Qed.
Lemma quiet_set_jobs v : Keeps quiet (set_jobs v).
Proof. apply quiet_modify; reflexivity. Qed.
Lemma quiet_set_closures v : Keeps quiet (set_closures v).
Proof. apply quiet_modify; reflexivity. Qed.
Lemma quiet_set_nextId v : Keeps quiet (set_nextId v).
Proof. apply quiet_modify; reflexivity. Qed.

#[local] Hint Resolve quiet_skip quiet_set_calls quiet_set_tasks quiet_set_waiters
  quiet_set_jobs quiet_set_closures quiet_set_nextId : session_quiet.

(** A walk through a handler, as for the invariant of the numbering;
    what is read from [ws.readyState] is known not to be 1. *)
Ltac quiet_leaf :=
  lazymatch goal with
  | |- Keeps quiet (mret _) => apply quiet_ret
  | |- Keeps quiet skip => apply quiet_skip
  | |- Keeps quiet (gets _) => apply quiet_gets
  | |- Keeps quiet (with_session _) => apply quiet_with_session
  | |- Keeps quiet (set_readyState _) => apply quiet_set_readyState; lia
  | |- Keeps quiet (send_media _ _) => fail
  | |- Keeps quiet (send_mark _ _) => fail
  | |- Keeps quiet (ws_send _ _) => fail
  | |- Keeps quiet (set_wire _) => fail
  | |- Keeps quiet (mbind _ _) => fail
  | |- Keeps quiet (for_each _ _) => fail
  | |- Keeps quiet (match _ with _ => _ end) => fail
  | |- Keeps quiet _ => solve [auto 1 with session_quiet nocore]
  end.

Ltac quiet_walk :=
  cbv zeta;
  unfold set_streamSid, set_audioBuffer, update_history, set_customParameters,
    set_sequenceNumber, set_isActive, set_pendingClear, set_processingAudio,
    set_greetingSent, set_greetingInProgress, set_outboundTrackLogged,
    set_inboundTrackLogged;
  repeat first
    [ quiet_leaf
    | simple apply @quiet_readyState;
      let rs := fresh "rs" in let Hrs := fresh "Hrs" in
      intros rs Hrs; rewrite ?(proj2 (Z.eqb_neq rs 1) Hrs), ?andb_false_r;
      cbn [negb andb orb]; cbv zeta
    | simple apply @quiet_bind; [|intros ?]; cbv zeta
    | simple apply @quiet_for_each; intros ?; cbv zeta
    | match goal with
      | |- Keeps quiet (match ?x with _ => _ end) => destruct x; cbv zeta
      end ].

Lemma quiet_fresh : Keeps quiet fresh.
Proof. unfold fresh. quiet_walk. Qed.
#[local] Hint Resolve quiet_fresh : session_quiet.

Lemma quiet_suspend id t : Keeps quiet (suspend id t).
Proof. unfold suspend. quiet_walk. Qed.
#[local] Hint Resolve quiet_suspend : session_quiet.

Lemma quiet_release id : Keeps quiet (release id).
Proof. unfold release. quiet_walk. Qed.
#[local] Hint Resolve quiet_release : session_quiet.

Lemma quiet_enqueue j : Keeps quiet (enqueue j).
Proof. unfold enqueue. quiet_walk. Qed.
#[local] Hint Resolve quiet_enqueue : session_quiet.

Lemma quiet_record_call c : Keeps quiet (record_call c).
Proof. unfold record_call. quiet_walk. Qed.
#[local] Hint Resolve quiet_record_call : session_quiet.

Lemma quiet_await_promise p j : Keeps quiet (await_promise p j).
Proof. unfold await_promise. quiet_walk. Qed.
#[local] Hint Resolve quiet_await_promise : session_quiet.

Lemma quiet_settle_promise p : Keeps quiet (settle_promise p).
Proof. unfold settle_promise. quiet_walk. Qed.
#[local] Hint Resolve quiet_settle_promise : session_quiet.

Lemma quiet_get_closure turn : Keeps quiet (get_closure turn).
Proof. unfold get_closure. quiet_walk. Qed.
#[local] Hint Resolve quiet_get_closure : session_quiet.

Lemma quiet_set_closure turn c : Keeps quiet (set_closure turn c).
Proof. unfold set_closure. quiet_walk. Qed.
#[local] Hint Resolve quiet_set_closure : session_quiet.

Lemma quiet_set_textBuffer turn v : Keeps quiet (set_textBuffer turn v).
Proof. unfold set_textBuffer. quiet_walk. Qed.
#[local] Hint Resolve quiet_set_textBuffer : session_quiet.

Lemma quiet_set_pendingTTS turn v : Keeps quiet (set_pendingTTS turn v).
Proof. unfold set_pendingTTS. quiet_walk. Qed.
#[local] Hint Resolve quiet_set_pendingTTS : session_quiet.

Lemma quiet_stream_settled id owner ok : Keeps quiet (stream_settled id owner ok).
Proof. unfold stream_settled. quiet_walk. Qed.
#[local] Hint Resolve quiet_stream_settled : session_quiet.

(** After the loop the mark is sent only on an open socket. *)
Lemma quiet_stream_after_loop id sendMark owner :
  Keeps quiet (stream_after_loop id sendMark owner).
Proof. unfold stream_after_loop. quiet_walk. Qed.
#[local] Hint Resolve quiet_stream_after_loop : session_quiet.

(** The loop tests the socket before every frame. *)
Lemma quiet_stream_loop id chunks i sendMark owner :
  Keeps quiet (stream_loop id chunks i sendMark owner).
Proof. unfold stream_loop. quiet_walk. Qed.
#[local] Hint Resolve quiet_stream_loop : session_quiet.

Lemma quiet_stream_chunks id pcm sendMark owner :
  Keeps quiet (stream_chunks id pcm sendMark owner).
Proof. unfold stream_chunks. quiet_walk. Qed.
#[local] Hint Resolve quiet_stream_chunks : session_quiet.

Lemma quiet_streamTTSAudio text sendMark owner :
  Keeps quiet (streamTTSAudio text sendMark owner).
Proof. unfold streamTTSAudio. quiet_walk. Qed.
#[local] Hint Resolve quiet_streamTTSAudio : session_quiet.

Lemma quiet_silence_mark id : Keeps quiet (silence_mark id).
Proof. unfold silence_mark. quiet_walk. Qed.
#[local] Hint Resolve quiet_silence_mark : session_quiet.

Lemma quiet_silence_loop id rest : Keeps quiet (silence_loop id rest).
Proof. unfold silence_loop. quiet_walk. Qed.
#[local] Hint Resolve quiet_silence_loop : session_quiet.

Lemma quiet_sendFallbackSilence : Keeps quiet sendFallbackSilence.
Proof. unfold sendFallbackSilence. quiet_walk. Qed.
#[local] Hint Resolve quiet_sendFallbackSilence : session_quiet.

Lemma quiet_start_greeting : Keeps quiet start_greeting.
Proof. unfold start_greeting. quiet_walk. Qed.
#[local] Hint Resolve quiet_start_greeting : session_quiet.

Lemma quiet_processUserAudio : Keeps quiet processUserAudio.
Proof. unfold processUserAudio, turn_settled. quiet_walk. Qed.
#[local] Hint Resolve quiet_processUserAudio : session_quiet.

Lemma quiet_onToken turn token : Keeps quiet (onToken turn token).
Proof. unfold onToken. quiet_walk. Qed.
#[local] Hint Resolve quiet_onToken : session_quiet.

Lemma quiet_start_final turn text : Keeps quiet (start_final turn text).
Proof. unfold start_final. quiet_walk. Qed.
#[local] Hint Resolve quiet_start_final : session_quiet.

Lemma quiet_onToken_complete turn : Keeps quiet (onToken_complete turn).
Proof. unfold onToken_complete. quiet_walk. Qed.
#[local] Hint Resolve quiet_onToken_complete : session_quiet.

Lemma quiet_run_job j : Keeps quiet (run_job j).
Proof. unfold run_job. quiet_walk. Qed.
#[local] Hint Resolve quiet_run_job : session_quiet.

Lemma quiet_on_message m : Keeps quiet (on_message m).
Proof.
  unfold on_message, handleClearEvent, handleConnectedEvent, handleStartEvent,
    handleMediaEvent, capture_stream_sid, buffer_audio, handleStopEvent.
  quiet_walk.
Qed.

Lemma quiet_handle e : Keeps quiet (handle e).
Proof.
  destruct e; simpl; auto using quiet_on_message.
  - quiet_walk.
  - unfold on_synthesized. quiet_walk.
  - unfold on_resampled. quiet_walk.
  - unfold on_timer. quiet_walk.
  - unfold on_transcribed, turn_settled. quiet_walk.
  - unfold on_llm_setup. quiet_walk.
  - unfold on_llm_read, read_deltas. quiet_walk.
  - unfold on_llm_done, turn_settled. quiet_walk.
  - unfold on_llm_failed, turn_settled. quiet_walk.
  - unfold on_tick. quiet_walk.
Qed.

Lemma quiet_run events : forall w, quiet w (run w events).
Proof.
  induction events as [|e events IH]; intros w; simpl; [apply quiet_refl|].
  eapply quiet_trans; [apply quiet_handle | apply IH].
Qed.

(** [processUserAudio] sends nothing and leaves the socket alone. *)
Lemma processUserAudio_wire w :
  wire (exec processUserAudio w) = wire w
  /\ readyState (exec processUserAudio w) = readyState w.
Proof.
  unfold exec, processUserAudio, turn_settled, mbind, M_bind. simpl.
  destruct (audioBuffer (session w)); simpl; [auto|].
  destruct (pendingClear (session w)); simpl; [auto|].
  destruct (count_loud _); simpl; [|auto].
  destruct (mostly_silence _ _); simpl; auto.
Qed.

Lemma stop_closes w :
  wire (step w (EvMessage Stop)) = wire w /\ readyState (step w (EvMessage Stop)) <> 1.
Proof.
  unfold step. simpl handle. unfold on_message, handleStopEvent.
  rewrite exec_bind. set (w1 := exec (set_isActive false) w).
  assert (H1 : wire w1 = wire w /\ readyState w1 = readyState w) by (split; reflexivity).
  rewrite exec_bind. change (exec (gets session) w1) with w1.
  rewrite exec_bind.
  match goal with |- context [exec (if ?c then ?a else ?b) w1] =>
    set (w2 := exec (if c then a else b) w1);
    assert (H2 : wire w2 = wire w1 /\ readyState w2 = readyState w1)
  end.
  { unfold w2. match goal with |- context [if ?c then _ else _] => destruct c end.
    - rewrite exec_bind.
      destruct (processUserAudio_wire (exec (set_processingAudio true) w1)) as [Hw Hr].
      rewrite Hw, Hr. split; reflexivity.
    - split; reflexivity. }
  destruct H1 as [H1w H1r]. destruct H2 as [H2w H2r].
  clearbody w2. unfold exec, mbind, M_bind, gets. cbn [fst snd].
  destruct (Z.eqb_spec (readyState w2) 1) as [Hopen|Hnot]; cbn.
  - split; [congruence | lia].
  - split; [congruence | exact Hnot].
Qed.

(** X13. Nothing is sent on a socket that is not open: from a world
    whose socket has left the state OPEN, whatever happens afterwards
    (completions of synthesis, of pauses, of the model, microtasks)
    adds no frame to the wire. In particular, once the carrier has sent
    [stop], which the server answers by closing the socket, or the
    socket has been closed, the wire stays as it was: a reply to the
    audio that [stop] handed to [processUserAudio] is generated but
    never sent. *)
Theorem closed_socket_sends_nothing (w : World) (events : list Event) :
  (readyState w <> 1 -> wire (run w events) = wire w)
  /\ wire (run w (EvMessage Stop :: events)) = wire w
  /\ wire (run w (EvClose :: events)) = wire w.
Proof.
  split; [|split].
  - intros H. apply (quiet_run events w H).
  - simpl. destruct (stop_closes w) as [Hw Hr].
    destruct (quiet_run events (step w (EvMessage Stop)) Hr) as [_ H]. congruence.
  - simpl.
    assert (Hr : readyState (step w EvClose) <> 1) by (simpl; lia).
    destruct (quiet_run events (step w EvClose) Hr) as [_ H]. rewrite H. reflexivity.
Qed.

End QuietSocket.

(* ------------------------------------------------------------------ *)
(** ** The session: one turn at a time *)
(* ------------------------------------------------------------------ *)

Create HintDb session_harmless.

Section OneTurn.

Import AI Server SessionProps.

Lemma filter_filter_sublist {A} (P Q : A -> Prop) `{forall x, Decision (P x)}
    `{forall x, Decision (Q x)} (l : list A) :
  filter P (filter Q l) `sublist_of` filter P l.
Proof.
  induction l as [|x l IH]; [constructor|].
  rewrite !(filter_cons _ x). destruct (decide (Q x)), (decide (P x)).
  - rewrite filter_cons_True by assumption. constructor. exact IH.
  - rewrite filter_cons_False by assumption. exact IH.
  - constructor. exact IH.
  - exact IH.
Qed.

Lemma harmless_refl w : harmless w w.
Proof. intros H. repeat split; auto. Qed.

Lemma harmless_trans w1 w2 w3 : harmless w1 w2 -> harmless w2 w3 -> harmless w1 w3.
Proof.
  intros H12 H23 H1.
  destruct (H12 H1) as (H2 & Ht2 & Hj2 & Hp2).
  destruct (H23 H2) as (H3 & Ht3 & Hj3 & Hp3).
  split; [exact H3|]. split; [etransitivity; eassumption|].
  split; [etransitivity; eassumption | congruence].
Qed.

Lemma harmless_ret {A} (a : A) : Keeps harmless (mret a).
Proof. apply keeps_ret, harmless_refl. Qed.

Lemma harmless_skip : Keeps harmless skip.
Proof. apply harmless_ret. Qed.

Lemma harmless_gets {A} (f : World -> A) : Keeps harmless (gets f).
Proof. intros w. apply harmless_refl. Qed.

Lemma harmless_bind {A B} (m : M A) (f : A -> M B) :
  Keeps harmless m -> (forall a, Keeps harmless (f a)) -> Keeps harmless (m ≫= f).
Proof. apply keeps_bind, harmless_trans. Qed.

Lemma harmless_for_each {A} (l : list A) (body : A -> M unit) :
  (forall x, Keeps harmless (body x)) -> Keeps harmless (for_each l body).
Proof. apply keeps_for_each; [apply harmless_refl | apply harmless_trans]. Qed.

(** An assignment to a field of the session other than
    [processingAudio]. *)
Lemma harmless_with_session (f : Session -> Session) :
  (forall s, processingAudio (f s) = processingAudio s) -> Keeps harmless (with_session f).
Proof. intros Hf w H. repeat split; auto. simpl. apply Hf. Qed.

(** A change of the world away from the activations, the microtasks,
    the waiters and the session. *)
Lemma harmless_modify (f : World -> World) :
  (forall w, tasks (f w) = tasks w) -> (forall w, jobs (f w) = jobs w) ->
  (forall w, waiters (f w) = waiters w) -> (forall w, session (f w) = session w) ->
  Keeps harmless (modify f).
Proof.
  intros Ht Hj Hw Hs w H.
  unfold plain_waiters, turn_tasks, turn_jobs, modify in *. simpl.
  rewrite Ht, Hj, Hw, Hs. repeat split; auto.
Qed.

Lemma harmless_set_readyState v : Keeps harmless (set_readyState v).
Proof. apply harmless_modify; reflexivity. Qed.
Lemma harmless_set_wire v : Keeps harmless (set_wire v).
Proof. apply harmless_modify; reflexivity. Qed.
Lemma harmless_set_calls v : Keeps harmless (set_calls v).
Proof. apply harmless_modify; reflexivity. Qed.
Lemma harmless_set_closures v : Keeps harmless (set_closures v).
Proof. apply harmless_modify; reflexivity. Qed.
Lemma harmless_set_nextId v : Keeps harmless (set_nextId v).
Proof. apply harmless_modify; reflexivity. Qed.

(** An activation that is not one of [processUserAudio] stops at an
    [await]. *)
Lemma harmless_suspend id t : is_turn_task t = false -> Keeps harmless (suspend id t).
Proof.
  intros Ht w H. unfold plain_waiters, turn_tasks, turn_jobs in *. simpl.
  repeat split; auto.
  unfold remove_id. rewrite filter_app.
  rewrite (filter_cons_False _ (id, t)) by (simpl; congruence).
  rewrite filter_nil, app_nil_r. apply filter_filter_sublist.
Qed.

Lemma harmless_release id : Keeps harmless (release id).
Proof.
  intros w H. unfold plain_waiters, turn_tasks, turn_jobs in *. simpl.
  repeat split; auto. apply filter_filter_sublist.
Qed.

Lemma harmless_enqueue j : is_turn_job j = false -> Keeps harmless (enqueue j).
Proof.
  intros Hj w H. unfold plain_waiters, turn_tasks, turn_jobs in *. simpl.
  repeat split; auto.
  rewrite filter_app, (filter_cons_False _ j) by congruence.
  rewrite filter_nil, app_nil_r. reflexivity.
Qed.

Lemma harmless_await_promise p j :
  is_turn_job j = false -> Keeps harmless (await_promise p j).
Proof.
  intros Hj w H. unfold await_promise, mbind, M_bind. simpl.
  destruct (lookup_id p (tasks w)); [|apply (harmless_enqueue j Hj w H)].
  unfold plain_waiters, turn_tasks, turn_jobs in *. simpl.
  repeat split; auto. apply Forall_app. split; [exact H|]. repeat constructor. exact Hj.
Qed.

Lemma harmless_settle_promise p : Keeps harmless (settle_promise p).
Proof.
  intros w H. unfold plain_waiters, turn_tasks, turn_jobs in *. simpl.
  split; [|split; [reflexivity|split; [|reflexivity]]].
  - unfold remove_id. apply Forall_forall. intros e He.
    apply list_elem_of_filter in He as [_ He].
    rewrite Forall_forall in H. apply H, He.
  - rewrite filter_app.
    assert (Hnone : filter (fun j => is_turn_job j = true)
                           (map snd (filter (fun e => fst e = p) (waiters w))) = []).
    { induction (waiters w) as [|e l IH]; [reflexivity|].
      apply Forall_cons in H as [He Hl].
      rewrite filter_cons. destruct (decide (fst e = p)); [|apply IH, Hl].
      simpl. rewrite filter_cons_False by congruence. apply IH, Hl. }
    rewrite Hnone, app_nil_r. reflexivity.
Qed.

#[local] Hint Resolve harmless_skip harmless_set_readyState harmless_set_wire
  harmless_set_calls harmless_set_closures harmless_set_nextId harmless_release
  harmless_settle_promise : session_harmless.

(** A walk through a handler that neither starts nor ends a turn. *)
Ltac harmless_leaf :=
  lazymatch goal with
  | |- Keeps harmless (mret _) => apply harmless_ret
  | |- Keeps harmless skip => apply harmless_skip
  | |- Keeps harmless (gets _) => apply harmless_gets
  | |- Keeps harmless (with_session _) => apply harmless_with_session; reflexivity
  | |- Keeps harmless (suspend _ _) => apply harmless_suspend; reflexivity
  | |- Keeps harmless (enqueue _) => apply harmless_enqueue; reflexivity
  | |- Keeps harmless (await_promise _ _) => apply harmless_await_promise; reflexivity
  | |- Keeps harmless (mbind _ _) => fail
  | |- Keeps harmless (for_each _ _) => fail
  | |- Keeps harmless (match _ with _ => _ end) => fail
  | |- Keeps harmless _ => solve [auto 1 with session_harmless nocore]
  end.

Ltac harmless_walk :=
  cbv zeta;
  unfold set_streamSid, set_audioBuffer, update_history, set_customParameters,
    set_sequenceNumber, set_isActive, set_pendingClear,
    set_greetingSent, set_greetingInProgress, set_outboundTrackLogged,
    set_inboundTrackLogged;
  repeat first
    [ harmless_leaf
    | simple apply @harmless_bind; [|intros ?]; cbv zeta
    | simple apply @harmless_for_each; intros ?; cbv zeta
    | match goal with
      | |- Keeps harmless (match ?x with _ => _ end) => destruct x; cbv zeta
      end ].

Lemma harmless_fresh : Keeps harmless fresh.
Proof. unfold fresh. harmless_walk. Qed.
#[local] Hint Resolve harmless_fresh : session_harmless.

Lemma harmless_record_call c : Keeps harmless (record_call c).
Proof. unfold record_call. harmless_walk. Qed.
#[local] Hint Resolve harmless_record_call : session_harmless.

Lemma harmless_get_closure turn : Keeps harmless (get_closure turn).
Proof. unfold get_closure. harmless_walk. Qed.
#[local] Hint Resolve harmless_get_closure : session_harmless.

Lemma harmless_set_closure turn c : Keeps harmless (set_closure turn c).
Proof. unfold set_closure. harmless_walk. Qed.
#[local] Hint Resolve harmless_set_closure : session_harmless.

Lemma harmless_set_textBuffer turn v : Keeps harmless (set_textBuffer turn v).
Proof. unfold set_textBuffer. harmless_walk. Qed.
#[local] Hint Resolve harmless_set_textBuffer : session_harmless.

Lemma harmless_set_pendingTTS turn v : Keeps harmless (set_pendingTTS turn v).
Proof. unfold set_pendingTTS. harmless_walk. Qed.
#[local] Hint Resolve harmless_set_pendingTTS : session_harmless.

Lemma harmless_ws_send origin f : Keeps harmless (ws_send origin f).
Proof. unfold ws_send. harmless_walk. Qed.
#[local] Hint Resolve harmless_ws_send : session_harmless.

Lemma harmless_send_media origin chunk : Keeps harmless (send_media origin chunk).
Proof. unfold send_media. harmless_walk. Qed.
#[local] Hint Resolve harmless_send_media : session_harmless.

Lemma harmless_send_mark origin name : Keeps harmless (send_mark origin name).
Proof. unfold send_mark. harmless_walk. Qed.
#[local] Hint Resolve harmless_send_mark : session_harmless.

Lemma harmless_stream_settled id owner ok : Keeps harmless (stream_settled id owner ok).
Proof. unfold stream_settled. destruct ok; harmless_walk. Qed.
#[local] Hint Resolve harmless_stream_settled : session_harmless.

Lemma harmless_stream_after_loop id sendMark owner :
  Keeps harmless (stream_after_loop id sendMark owner).
Proof. unfold stream_after_loop. harmless_walk. Qed.
#[local] Hint Resolve harmless_stream_after_loop : session_harmless.

Lemma harmless_stream_loop id chunks i sendMark owner :
  Keeps harmless (stream_loop id chunks i sendMark owner).
Proof. unfold stream_loop. harmless_walk. Qed.
#[local] Hint Resolve harmless_stream_loop : session_harmless.

Lemma harmless_stream_chunks id pcm sendMark owner :
  Keeps harmless (stream_chunks id pcm sendMark owner).
Proof. unfold stream_chunks. harmless_walk. Qed.
#[local] Hint Resolve harmless_stream_chunks : session_harmless.

Lemma harmless_streamTTSAudio text sendMark owner :
  Keeps harmless (streamTTSAudio text sendMark owner).
Proof. unfold streamTTSAudio. harmless_walk. Qed.
#[local] Hint Resolve harmless_streamTTSAudio : session_harmless.

Lemma harmless_silence_mark id : Keeps harmless (silence_mark id).
Proof. unfold silence_mark. harmless_walk. Qed.
#[local] Hint Resolve harmless_silence_mark : session_harmless.

Lemma harmless_silence_loop id rest : Keeps harmless (silence_loop id rest).
Proof. unfold silence_loop. harmless_walk. Qed.
#[local] Hint Resolve harmless_silence_loop : session_harmless.

Lemma harmless_sendFallbackSilence : Keeps harmless sendFallbackSilence.
Proof. unfold sendFallbackSilence. harmless_walk. Qed.
#[local] Hint Resolve harmless_sendFallbackSilence : session_harmless.

Lemma harmless_start_greeting : Keeps harmless start_greeting.
Proof. unfold start_greeting. harmless_walk. Qed.
#[local] Hint Resolve harmless_start_greeting : session_harmless.

Lemma harmless_onToken turn token : Keeps harmless (onToken turn token).
Proof. unfold onToken. harmless_walk. Qed.
#[local] Hint Resolve harmless_onToken : session_harmless.

Lemma harmless_start_final turn text : Keeps harmless (start_final turn text).
Proof. unfold start_final. harmless_walk. Qed.
#[local] Hint Resolve harmless_start_final : session_harmless.

Lemma harmless_onToken_complete turn : Keeps harmless (onToken_complete turn).
Proof. unfold onToken_complete. harmless_walk. Qed.
#[local] Hint Resolve harmless_onToken_complete : session_harmless.

Lemma harmless_capture_stream_sid sid : Keeps harmless (capture_stream_sid sid).
Proof. unfold capture_stream_sid. harmless_walk. Qed.
#[local] Hint Resolve harmless_capture_stream_sid : session_harmless.

(** ** From before to after *)

Lemma hoare_bind (P Q R : World -> Prop) {A B} (m : M A) (f : A -> M B) :
  Hoare P m Q -> (forall a, Hoare Q (f a) R) -> Hoare P (m ≫= f) R.
Proof. intros Hm Hf w H. apply Hf, Hm, H. Qed.

Lemma hoare_gets_bind (P R : World -> Prop) {A B} (f : World -> A) (k : A -> M B) :
  (forall x, Hoare (fun w => P w /\ f w = x) (k x) R) -> Hoare P (gets f ≫= k) R.
Proof. intros Hk w H. apply (Hk (f w) w). auto. Qed.

Lemma hoare_weaken (P P' Q : World -> Prop) {A} (m : M A) :
  (forall w, P w -> P' w) -> Hoare P' m Q -> Hoare P m Q.
Proof. intros HP Hm w H. apply Hm, HP, H. Qed.

Lemma hoare_skip (P Q : World -> Prop) : (forall w, P w -> Q w) -> Hoare P skip Q.
Proof. intros H w. apply H. Qed.

Lemma harmless_one_turn {A} (m : M A) : Keeps harmless m -> Hoare one_turn m one_turn.
Proof.
  intros Hm w (Hw & Hle & Hidle). destruct (Hm w Hw) as (Hw' & Ht & Hj & Hp).
  apply sublist_length in Ht, Hj. unfold one_turn, turns_in_flight in *.
  split; [exact Hw'|]. split; [lia|]. rewrite Hp. intros H. specialize (Hidle H). lia.
Qed.

Lemma harmless_clean {A} (m : M A) : Keeps harmless m -> Hoare clean m clean.
Proof.
  intros Hm w (Hw & Ht0 & Hj0 & Hp0). destruct (Hm w Hw) as (Hw' & Ht & Hj & Hp).
  rewrite Ht0 in Ht. rewrite Hj0 in Hj. apply sublist_nil_r in Ht, Hj.
  unfold clean. rewrite Ht, Hj, Hp. auto.
Qed.

Lemma harmless_mine id {A} (m : M A) : Keeps harmless m -> Hoare (mine id) m (mine id).
Proof.
  intros Hm w (Hw & Ht0 & Hj0 & Hp0). destruct (Hm w Hw) as (Hw' & Ht & Hj & Hp).
  rewrite Hj0 in Hj. apply sublist_nil_r in Hj.
  unfold mine. rewrite Hj, Hp. repeat split; auto.
  apply Forall_forall. intros e He. rewrite Forall_forall in Ht0. apply Ht0.
  eapply elem_of_sublist; eassumption.
Qed.

Lemma clean_mine id w : clean w -> mine id w.
Proof. intros (Hw & Ht & Hj & Hp). unfold mine. rewrite Ht. repeat split; auto. Qed.

Lemma lookup_id_elem {A} id (l : list (nat * A)) t : lookup_id id l = Some t -> (id, t) ∈ l.
Proof.
  unfold lookup_id. induction l as [|[a b] l IH]; simpl; [discriminate|].
  destruct (Nat.eqb_spec a id) as [->|Hne]; simpl.
  - intros [= <-]. apply elem_of_cons. auto.
  - intros H. apply elem_of_cons. auto.
Qed.

(** The turn in flight is the activation that the completion names. *)
Lemma one_turn_mine id t w :
  one_turn w -> lookup_id id (tasks w) = Some t -> is_turn_task t = true -> mine id w.
Proof.
  intros (Hw & Hle & Hidle) Hl Ht. apply lookup_id_elem in Hl.
  assert (Hin : (id, t) ∈ turn_tasks w).
  { unfold turn_tasks. apply list_elem_of_filter. auto. }
  unfold turns_in_flight in *.
  destruct (turn_tasks w) as [|e [|e' l]] eqn:Htt.
  - apply elem_of_nil in Hin. contradiction.
  - apply list_elem_of_singleton in Hin. subst e.
    destruct (turn_jobs w) eqn:Hj; [|simpl in Hle; lia].
    unfold mine. rewrite Htt, Hj. repeat split; auto.
    destruct (processingAudio (session w)); [reflexivity|].
    specialize (Hidle eq_refl). simpl in Hidle. lia.
  - simpl in Hle. lia.
Qed.

Lemma release_mine id : Hoare (mine id) (release id) clean.
Proof.
  intros w (Hw & Ht & Hj & Hp). unfold clean, plain_waiters, turn_tasks, turn_jobs in *.
  simpl. repeat split; auto.
  destruct (filter _ (remove_id id (tasks w))) as [|e l] eqn:Hf; [reflexivity|].
  assert (He : e ∈ filter (fun e => is_turn_task (snd e) = true) (remove_id id (tasks w)))
    by (rewrite Hf; apply elem_of_cons; auto).
  apply list_elem_of_filter in He as [Hturn He].
  unfold remove_id in He. apply list_elem_of_filter in He as [Hne He].
  rewrite Forall_forall in Ht. exfalso. apply Hne, Ht.
  apply list_elem_of_filter. auto.
Qed.

(** The turn goes on to its next [await]. *)
Lemma suspend_mine id t : is_turn_task t = true -> Hoare (mine id) (suspend id t) one_turn.
Proof.
  intros Hturn w Hmine. destruct (release_mine id w Hmine) as (Hw & Ht & Hj & Hp).
  unfold one_turn, turns_in_flight, clean, plain_waiters, turn_tasks, turn_jobs in *.
  simpl in *. rewrite filter_app, Ht, Hj.
  rewrite (filter_cons_True _ (id, t)) by exact Hturn. rewrite filter_nil. simpl.
  repeat split; auto. congruence.
Qed.

(** The promise of [processUserAudio] settles. *)
Lemma turn_settled_clean : Hoare clean turn_settled one_turn.
Proof.
  intros w (Hw & Ht & Hj & Hp).
  unfold one_turn, turns_in_flight, plain_waiters, turn_tasks, turn_jobs in *.
  simpl in *. rewrite filter_app, Ht, Hj.
  rewrite (filter_cons_True _ JTurnFinally) by reflexivity. rewrite filter_nil. simpl.
  repeat split; auto. congruence.
Qed.

Lemma suspend_clean_any id t : is_turn_task t = true -> Hoare clean (suspend id t) one_turn.
Proof.
  intros Ht. eapply hoare_weaken; [apply (clean_mine id) | apply suspend_mine, Ht].
Qed.

(** A walk from a state in which the flag is set and the turn, if in
    flight, is [id], to the [await] or the end that this turn reaches. *)
Ltac turn_walk :=
  cbv zeta;
  repeat first
    [ lazymatch goal with
      | |- Hoare clean turn_settled one_turn => apply turn_settled_clean
      | |- Hoare (mine _) turn_settled one_turn => fail
      | |- Hoare clean (suspend _ _) one_turn => apply suspend_clean_any; reflexivity
      | |- Hoare (mine _) (suspend _ _) one_turn => apply suspend_mine; reflexivity
      | |- Hoare _ (match _ with _ => _ end) _ => fail
      | |- Hoare clean (mbind _ (release _)) one_turn => fail
      | |- Hoare (mine ?id) (mbind _ (release ?id)) one_turn =>
          simple apply (hoare_bind (mine id) clean); [apply release_mine | intros ?]
      | |- Hoare clean (mbind _ _) one_turn =>
          simple apply (hoare_bind clean clean);
          [apply harmless_clean; harmless_walk | intros ?]
      | |- Hoare (mine ?id) (mbind _ _) one_turn =>
          simple apply (hoare_bind (mine id) (mine id));
          [apply harmless_mine; harmless_walk | intros ?]
      end; cbv zeta
    | match goal with
      | |- Hoare _ (match ?x with _ => _ end) _ => destruct x; cbv zeta
      end ].

Lemma processUserAudio_clean : Hoare clean processUserAudio one_turn.
Proof.
  unfold processUserAudio. cbv zeta.
  apply (hoare_bind clean clean); [apply harmless_clean, harmless_gets | intros s].
  destruct (audioBuffer s); [apply turn_settled_clean|].
  destruct (pendingClear s).
  - apply (hoare_bind clean clean); [apply harmless_clean; harmless_walk | intros _].
    apply (hoare_bind clean clean); [apply harmless_clean; harmless_walk | intros _].
    apply turn_settled_clean.
  - apply (hoare_bind clean clean); [apply harmless_clean; harmless_walk | intros _].
    destruct (count_loud _); [|apply turn_settled_clean].
    destruct (mostly_silence _ _); [apply turn_settled_clean|].
    apply (hoare_bind clean clean); [apply harmless_clean; harmless_walk | intros id].
    apply (hoare_bind clean clean); [apply harmless_clean; harmless_walk | intros _].
    apply suspend_clean_any. reflexivity.
Qed.

(** The flag is set where no turn is in flight: a turn starts. *)
Lemma start_turn s :
  processingAudio s = false ->
  Hoare (fun w => one_turn w /\ session w = s)
        (set_processingAudio true;; processUserAudio) one_turn.
Proof.
  intros Hidle.
  apply (hoare_bind _ clean); [|intros _; apply processUserAudio_clean].
  intros w [(Hw & Hle & Hzero) Hs]. subst s. specialize (Hzero Hidle).
  unfold turns_in_flight in Hzero.
  unfold clean, plain_waiters, turn_tasks, turn_jobs in *. simpl.
  repeat split; auto.
  - destruct (filter _ (tasks w)); [reflexivity | simpl in Hzero; lia].
  - destruct (filter _ (jobs w)); [reflexivity | simpl in Hzero; lia].
Qed.

Lemma one_turn_buffer_audio media : Hoare one_turn (buffer_audio media) one_turn.
Proof.
  unfold buffer_audio. cbv zeta.
  destruct (bool_decide _); [apply harmless_one_turn; harmless_walk|].
  apply (hoare_bind one_turn one_turn); [apply harmless_one_turn; harmless_walk | intros _].
  apply (hoare_bind one_turn one_turn); [apply harmless_one_turn; harmless_walk | intros s0].
  apply (hoare_bind one_turn one_turn); [apply harmless_one_turn; harmless_walk | intros _].
  apply hoare_gets_bind. intros s.
  destruct (0 <? _); cbn [andb]; [|apply hoare_skip; tauto].
  destruct (processingAudio s) eqn:Hbusy; cbn [negb]; [apply hoare_skip; tauto|].
  destruct (_ <=? _); [|apply hoare_skip; tauto].
  apply start_turn, Hbusy.
Qed.

Lemma one_turn_handleStopEvent : Hoare one_turn handleStopEvent one_turn.
Proof.
  unfold handleStopEvent.
  apply (hoare_bind one_turn one_turn); [apply harmless_one_turn; harmless_walk | intros _].
  apply hoare_gets_bind. intros s.
  apply (hoare_bind _ one_turn); [|intros _; apply harmless_one_turn; harmless_walk].
  destruct (0 <? _); cbn [andb]; [|apply hoare_skip; tauto].
  destruct (processingAudio s) eqn:Hbusy; cbn [negb]; [apply hoare_skip; tauto|].
  apply start_turn, Hbusy.
Qed.

Lemma one_turn_on_message m : Hoare one_turn (on_message m) one_turn.
Proof.
  destruct m; simpl.
  - apply harmless_one_turn. unfold handleClearEvent. harmless_walk.
  - apply harmless_one_turn. unfold handleConnectedEvent. harmless_walk.
  - apply harmless_one_turn. unfold handleStartEvent. harmless_walk.
  - unfold handleMediaEvent. destruct media as [media|]; [|apply hoare_skip; tauto].
    destruct (negb _); [apply hoare_skip; tauto|].
    apply (hoare_bind one_turn one_turn);
      [apply harmless_one_turn; harmless_walk | intros _; apply one_turn_buffer_audio].
  - apply one_turn_handleStopEvent.
  - apply hoare_skip; tauto.
  - apply hoare_skip; tauto.
Qed.

(** A completion for the activation [id] of a turn finds the turn in
    flight to be this one. *)
Lemma completion_mine id (ts : list (nat * Task)) t {A} (m : M A) :
  lookup_id id ts = Some t -> is_turn_task t = true ->
  Hoare (mine id) m one_turn ->
  Hoare (fun w => one_turn w /\ tasks w = ts) m one_turn.
Proof.
  intros Hl Ht Hm. eapply hoare_weaken; [|exact Hm].
  intros w [Hw <-]. exact (one_turn_mine id t w Hw Hl Ht).
Qed.

Lemma one_turn_on_transcribed id text : Hoare one_turn (on_transcribed id text) one_turn.
Proof.
  unfold on_transcribed. apply hoare_gets_bind. intros ts.
  destruct (lookup_id id ts) as [t|] eqn:Hl; [|apply hoare_skip; tauto].
  destruct t; try (apply hoare_skip; tauto).
  eapply completion_mine; [exact Hl | reflexivity |].
  turn_walk.
Qed.

Lemma one_turn_on_llm_setup id persona chunks :
  Hoare one_turn (on_llm_setup id persona chunks) one_turn.
Proof.
  unfold on_llm_setup. apply hoare_gets_bind. intros ts.
  destruct (lookup_id id ts) as [t|] eqn:Hl; [|apply hoare_skip; tauto].
  destruct t; try (apply hoare_skip; tauto).
  eapply completion_mine; [exact Hl | reflexivity |].
  turn_walk.
Qed.

Lemma one_turn_on_llm_read id deltas : Hoare one_turn (on_llm_read id deltas) one_turn.
Proof.
  unfold on_llm_read, read_deltas. apply hoare_gets_bind. intros ts.
  destruct (lookup_id id ts) as [t|] eqn:Hl; [|apply hoare_skip; tauto].
  destruct t; try (apply hoare_skip; tauto).
  eapply completion_mine; [exact Hl | reflexivity |].
  turn_walk.
Qed.

Lemma one_turn_on_llm_done id lastDelta : Hoare one_turn (on_llm_done id lastDelta) one_turn.
Proof.
  unfold on_llm_done. apply hoare_gets_bind. intros ts.
  destruct (lookup_id id ts) as [t|] eqn:Hl; [|apply hoare_skip; tauto].
  destruct t; try (apply hoare_skip; tauto).
  eapply completion_mine; [exact Hl | reflexivity |].
  turn_walk.
Qed.

Lemma one_turn_on_llm_failed id : Hoare one_turn (on_llm_failed id) one_turn.
Proof.
  unfold on_llm_failed. apply hoare_gets_bind. intros ts.
  destruct (lookup_id id ts) as [t|] eqn:Hl; [|apply hoare_skip; tauto].
  destruct t; try (apply hoare_skip; tauto);
    (eapply completion_mine; [exact Hl | reflexivity |]); turn_walk.
Qed.

(** A microtask that does not end a turn is taken from the queue. *)
Lemma dequeue_other j rest :
  is_turn_job j = false ->
  Hoare (fun w => one_turn w /\ jobs w = j :: rest) (set_jobs rest) one_turn.
Proof.
  intros Hj w [(Hw & Hle & Hzero) Hjobs].
  unfold one_turn, turns_in_flight, plain_waiters, turn_tasks, turn_jobs in *. simpl.
  rewrite Hjobs, filter_cons_False in Hle, Hzero by congruence. auto.
Qed.

(** The [.finally] of a turn runs: the flag is cleared and no turn is
    in flight. *)
Lemma dequeue_finally rest :
  Hoare (fun w => one_turn w /\ jobs w = JTurnFinally :: rest)
        (set_jobs rest;; run_job JTurnFinally) one_turn.
Proof.
  intros w [(Hw & Hle & Hzero) Hjobs].
  unfold one_turn, turns_in_flight, plain_waiters, turn_tasks, turn_jobs in *. simpl.
  rewrite Hjobs, filter_cons_True in Hle by reflexivity. simpl in Hle.
  assert (Ht : length (filter (fun e => is_turn_task (snd e) = true) (tasks w)) = 0%nat) by lia.
  assert (Hr : length (filter (fun j => is_turn_job j = true) rest) = 0%nat) by lia.
  rewrite Ht, Hr. repeat split; auto.
Qed.

Lemma one_turn_on_tick : Hoare one_turn on_tick one_turn.
Proof.
  unfold on_tick. apply hoare_gets_bind. intros js.
  destruct js as [|j rest]; [apply hoare_skip; tauto|].
  destruct j; try apply dequeue_finally;
    (apply (hoare_bind _ one_turn); [apply dequeue_other; reflexivity | intros _];
     apply harmless_one_turn; unfold run_job; harmless_walk).
Qed.

Lemma one_turn_handle e : Hoare one_turn (handle e) one_turn.
Proof.
  destruct e; simpl;
    auto using one_turn_on_message, one_turn_on_transcribed, one_turn_on_llm_setup,
      one_turn_on_llm_read, one_turn_on_llm_done, one_turn_on_llm_failed, one_turn_on_tick.
  - apply harmless_one_turn. harmless_walk.
  - apply harmless_one_turn. unfold on_synthesized. harmless_walk.
  - apply harmless_one_turn. unfold on_resampled. harmless_walk.
  - apply harmless_one_turn. unfold on_timer. harmless_walk.
Qed.

Lemma one_turn_run events : forall w, one_turn w -> one_turn (run w events).
Proof.
  induction events as [|e events IH]; intros w H; simpl; [exact H|].
  apply IH. apply one_turn_handle. exact H.
Qed.

(** X14. In every session, whatever happens in whatever order, at most
    one turn is in flight: at most one activation of [processUserAudio]
    waits for the transcription or for the model, or has settled with
    its [.finally] still to run; and while there is one, the flag
    [processingAudio] is set, so that inbound audio that reaches the
    threshold meanwhile starts no second turn. *)
Theorem one_turn_at_a_time (env : Env) (rate : Z) (events : list Event) :
  let w := run (connect env rate) events in
  (turns_in_flight w <= 1)%nat
  /\ (turns_in_flight w = 1%nat -> processingAudio (session w) = true).
Proof.
  intros w.
  assert (H0 : one_turn (connect env rate)).
  { unfold one_turn, turns_in_flight, plain_waiters. simpl. repeat split; auto. }
  destruct (one_turn_run events _ H0) as (_ & Hle & Hzero). fold w in Hle, Hzero.
  split; [exact Hle|]. intros Hone.
  destruct (processingAudio (session w)); [reflexivity|].
  specialize (Hzero eq_refl). lia.
Qed.

End OneTurn.

(* ------------------------------------------------------------------ *)
(** ** The session: what a stream puts on the wire *)
(* ------------------------------------------------------------------ *)

Section StreamOnWire.

Import AI Server SessionProps.

Lemma lookup_id_suspended {A} id (ts : list (nat * A)) t :
  lookup_id id (remove_id id ts ++ [(id, t)]) = Some t.
Proof.
  unfold lookup_id, remove_id. induction ts as [|e ts IH]; simpl.
  - rewrite Nat.eqb_refl. reflexivity.
  - rewrite filter_cons. destruct (decide (fst e <> id)) as [Hne|_]; [|exact IH].
    simpl. destruct (Nat.eqb_spec (fst e) id); [contradiction | exact IH].
Qed.

Lemma lookup_id_released {A} id (ts : list (nat * A)) : lookup_id id (remove_id id ts) = None.
Proof.
  unfold lookup_id, remove_id. induction ts as [|e ts IH]; simpl; [reflexivity|].
  rewrite filter_cons. destruct (decide (fst e <> id)) as [Hne|_]; [|exact IH].
  simpl. destruct (Nat.eqb_spec (fst e) id); [contradiction | exact IH].
Qed.

Lemma exec_gets_bind {A B} (f : World -> A) (k : A -> M B) w :
  exec (gets f ≫= k) w = exec (k (f w)) w.
Proof. reflexivity. Qed.

Lemma media_payloads_app fs gs :
  media_payloads (fs ++ gs) = media_payloads fs ++ media_payloads gs.
Proof. unfold media_payloads. apply omap_app. Qed.

Lemma marks_app fs gs : marks (fs ++ gs) = marks fs ++ marks gs.
Proof. unfold marks. apply omap_app. Qed.

(** One iteration of the loop of [streamTTSAudio] on an open socket
    with no clear pending: the chunk is sent and the activation waits
    for its pause. *)
Lemma stream_loop_sends id chunks i c sendMark owner w :
  readyState w = 1 -> pendingClear (session w) = false -> chunks !! i = Some c ->
  let w1 := exec (stream_loop id chunks i sendMark owner) w in
  wire w1 = wire w ++ [(id, MediaFrame (streamSid (session w)) (sequenceNumber (session w)) c)]
  /\ readyState w1 = 1
  /\ pendingClear (session w1) = false
  /\ streamSid (session w1) = streamSid (session w)
  /\ tasks w1 = remove_id id (tasks w) ++ [(id, StreamPace chunks i sendMark owner)].
Proof.
  intros Hopen Hclear Hc. cbv zeta. unfold stream_loop.
  assert (Hi : (i <? length chunks)%nat = true).
  { apply Nat.ltb_lt. apply lookup_lt_Some in Hc. exact Hc. }
  rewrite Hi. unfold exec, mbind, M_bind. simpl.
  rewrite Hopen. simpl. rewrite Hclear. simpl. unfold Buffer in *. rewrite Hc. simpl.
  repeat split; auto.
Qed.

(** The end of the loop on an open socket with no clear pending: the
    mark, when asked for. *)
Lemma stream_loop_ends id chunks i sendMark owner w :
  readyState w = 1 -> pendingClear (session w) = false -> (length chunks <= i)%nat ->
  let w1 := exec (stream_loop id chunks i sendMark owner) w in
  wire w1 = wire w ++ (if sendMark
                       then [(id, MarkFrame (streamSid (session w)) (js "assistant_reply_done"))]
                       else [])
  /\ tasks w1 = tasks w.
Proof.
  intros Hopen Hclear Hi. cbv zeta. unfold stream_loop.
  assert (Hge : (i <? length chunks)%nat = false) by (apply Nat.ltb_ge; exact Hi).
  rewrite Hge. unfold stream_after_loop, exec, mbind, M_bind. simpl.
  rewrite Hopen, Hclear. simpl.
  destruct sendMark, owner; simpl; rewrite ?app_nil_r; auto.
Qed.

Lemma timer_resumes_stream id chunks i sendMark owner w :
  lookup_id id (tasks w) = Some (StreamPace chunks i sendMark owner) ->
  step w (EvTimer id)
  = exec (stream_loop id chunks (S i) sendMark owner) (exec (release id) w).
Proof.
  intros Hl. unfold step. simpl handle. unfold on_timer.
  rewrite exec_gets_bind, Hl, exec_bind. reflexivity.
Qed.

Lemma stream_loop_run id chunks sendMark owner : forall n i w,
  (i + n = length chunks)%nat ->
  readyState w = 1 -> pendingClear (session w) = false ->
  lookup_id id (tasks w) = None ->
  let w' := run (exec (stream_loop id chunks i sendMark owner) w)
                (repeat (EvTimer id) n) in
  exists added,
    wire w' = wire w ++ added
    /\ Forall (fun f => fst f = id) added
    /\ media_payloads added = drop i chunks
    /\ marks added = (if sendMark then [js "assistant_reply_done"] else [])
    /\ lookup_id id (tasks w') = None.
Proof.
  induction n as [|n IH]; intros i w Hin Hopen Hclear Hfree; cbv zeta.
  - simpl repeat. simpl run.
    destruct (stream_loop_ends id chunks i sendMark owner w Hopen Hclear) as [Hw Ht]; [lia|].
    eexists. split; [exact Hw|]. rewrite Ht.
    rewrite drop_ge by lia.
    destruct sendMark; repeat split; auto; repeat constructor.
  - destruct (lookup_lt_is_Some_2 chunks i) as [c Hc]; [lia|].
    destruct (stream_loop_sends id chunks i c sendMark owner w Hopen Hclear Hc)
      as (Hw & Hr & Hp & Hsid & Ht).
    set (w1 := exec (stream_loop id chunks i sendMark owner) w) in *.
    simpl repeat. simpl run.
    rewrite (timer_resumes_stream id chunks i sendMark owner w1)
      by (rewrite Ht; apply lookup_id_suspended).
    set (w2 := exec (release id) w1).
    destruct (IH (S i) w2) as (added & Hw' & Hall & Hmedia & Hmarks & Hfree');
      [lia | exact Hr | exact Hp | apply lookup_id_released |].
    exists ((id, MediaFrame (streamSid (session w)) (sequenceNumber (session w)) c) :: added).
    split.
    { rewrite Hw'. change (wire w2) with (wire w1). rewrite Hw, <- app_assoc. reflexivity. }
    split; [constructor; [reflexivity | exact Hall]|].
    split.
    { change (media_payloads (?f :: added)) with (c :: media_payloads added).
      rewrite Hmedia. symmetry. apply drop_S. exact Hc. }
    split; [exact Hmarks | exact Hfree'].
Qed.

(** X15. When the synthesis for a text answers with audio at the rate
    of the session, on an open socket with no clear pending, and nothing
    but the pauses of this stream happens meanwhile, the frames that
    [streamTTSAudio] sends carry, in order, chunks whose concatenation
    is exactly the audio, followed by the mark
    [assistant_reply_done] when [sendMark] is set and by nothing when it
    is not. *)
Theorem stream_puts_audio_on_wire (w : World) (id : nat) (sendMark : bool) (owner : Owner)
    (pcm : Buffer) :
  lookup_id id (tasks w) = Some (StreamSynth sendMark owner) ->
  readyState w = 1 -> pendingClear (session w) = false ->
  exists chunks added,
    chunkPCM pcm (chunk_size (session w)) = Some chunks
    /\ wire (run w (EvSynthesized id (Some (pcm, sampleRate (session w)))
                    :: repeat (EvTimer id) (length chunks)))
       = wire w ++ added
    /\ Forall (fun f => fst f = id) added
    /\ media_payloads added = chunks
    /\ concat (media_payloads added) = pcm
    /\ marks added = (if sendMark then [js "assistant_reply_done"] else []).
Proof.
  intros Hl Hopen Hclear.
  assert (Hsize : 0 < chunk_size (session w)).
  { unfold chunk_size. destruct (_ =? _); lia. }
  destruct (chunkPCM_loop_spec (length pcm) pcm (chunk_size (session w)) Hsize 0 [])
    as (chunks & Hrun & Hcat & _); [lia | unfold buflen; lia |].
  simpl in Hrun, Hcat. fold (chunkPCM pcm (chunk_size (session w))) in Hrun.
  assert (Hstep : step w (EvSynthesized id (Some (pcm, sampleRate (session w))))
                  = exec (stream_loop id chunks 0 sendMark owner) (exec (release id) w)).
  { unfold step. simpl handle. unfold on_synthesized.
    rewrite exec_gets_bind, Hl, exec_bind, exec_gets_bind.
    change (sampleRate (session (exec (release id) w))) with (sampleRate (session w)).
    rewrite Z.eqb_refl. cbn [negb]. unfold stream_chunks.
    rewrite exec_gets_bind.
    change (chunk_size (session (exec (release id) w))) with (chunk_size (session w)).
    rewrite Hrun. reflexivity. }
  destruct (stream_loop_run id chunks sendMark owner (length chunks) 0 (exec (release id) w))
    as (added & Hw & Hall & Hmedia & Hmarks & _);
    [lia | exact Hopen | exact Hclear | apply lookup_id_released |].
  exists chunks, added.
  split; [exact Hrun|]. simpl run. rewrite Hstep.
  split; [exact Hw|]. split; [exact Hall|].
  rewrite drop_0 in Hmedia. split; [exact Hmedia|].
  split; [rewrite Hmedia; exact Hcat | exact Hmarks].
Qed.

Lemma stream_puts_audio_on_wire_witness :
  let w := run (connect Scenario.env0 8000) [EvMessage (Connected (Some Scenario.S1) None)] in
  lookup_id 0%nat (tasks w) = Some (StreamSynth true OwnGreeting)
  /\ readyState w = 1 /\ pendingClear (session w) = false
  /\ exists chunks added,
       chunkPCM (repeat Byte.x01 (Z.to_nat 7000)) (chunk_size (session w)) = Some chunks
       /\ wire (run w (EvSynthesized 0 (Some (repeat Byte.x01 (Z.to_nat 7000),
                                             sampleRate (session w)))
                       :: repeat (EvTimer 0) (length chunks)))
          = wire w ++ added
       /\ concat (media_payloads added) = repeat Byte.x01 (Z.to_nat 7000).
Proof.
  intros w.
  assert (Hl : lookup_id 0%nat (tasks w) = Some (StreamSynth true OwnGreeting)) by reflexivity.
  assert (Hopen : readyState w = 1) by reflexivity.
  assert (Hclear : pendingClear (session w) = false) by reflexivity.
  split; [exact Hl|]. split; [exact Hopen|]. split; [exact Hclear|].
  destruct (stream_puts_audio_on_wire w 0 true OwnGreeting (repeat Byte.x01 (Z.to_nat 7000))
              Hl Hopen Hclear) as (chunks & added & Hrun & Hw & _ & _ & Hcat & _).
  exists chunks, added. auto.
Defined.

(** One iteration of the loop of [sendFallbackSilence]. *)
Lemma silence_loop_sends id chunk rest w :
  readyState w = 1 ->
  let w1 := exec (silence_loop id (chunk :: rest)) w in
  wire w1 = wire w ++ [(id, MediaFrame (streamSid (session w)) (sequenceNumber (session w)) chunk)]
  /\ readyState w1 = 1
  /\ tasks w1 = remove_id id (tasks w) ++ [(id, SilencePace rest)].
Proof.
  intros Hopen. cbv zeta. unfold silence_loop, exec, mbind, M_bind. simpl.
  rewrite Hopen. simpl. auto.
Qed.

Lemma timer_resumes_silence id rest w :
  lookup_id id (tasks w) = Some (SilencePace rest) ->
  step w (EvTimer id) = exec (silence_loop id rest) (exec (release id) w).
Proof.
  intros Hl. unfold step. simpl handle. unfold on_timer.
  rewrite exec_gets_bind, Hl, exec_bind. reflexivity.
Qed.

Lemma silence_loop_run id : forall rest w,
  readyState w = 1 ->
  let w' := run (exec (silence_loop id rest) w) (repeat (EvTimer id) (length rest)) in
  exists added,
    wire w' = wire w ++ added
    /\ Forall (fun f => fst f = id) added
    /\ media_payloads added = rest
    /\ marks added = [js "fallback_silence_done"].
Proof.
  induction rest as [|chunk rest IH]; intros w Hopen; cbv zeta.
  - simpl. unfold silence_loop, silence_mark, exec, mbind, M_bind. simpl.
    rewrite Hopen. simpl. eexists. split; [reflexivity|].
    repeat split; repeat constructor.
  - destruct (silence_loop_sends id chunk rest w Hopen) as (Hw & Hr & Ht).
    set (w1 := exec (silence_loop id (chunk :: rest)) w) in *.
    simpl length. simpl repeat. simpl run.
    rewrite (timer_resumes_silence id rest w1) by (rewrite Ht; apply lookup_id_suspended).
    set (w2 := exec (release id) w1).
    destruct (IH w2) as (added & Hw' & Hall & Hmedia & Hmarks); [exact Hr|].
    exists ((id, MediaFrame (streamSid (session w)) (sequenceNumber (session w)) chunk) :: added).
    split.
    { rewrite Hw'. change (wire w2) with (wire w1). rewrite Hw, <- app_assoc. reflexivity. }
    split; [constructor; [reflexivity | exact Hall]|].
    split; [|exact Hmarks].
    change (media_payloads (?f :: added)) with (chunk :: media_payloads added).
    rewrite Hmedia. reflexivity.
Qed.

(** X16. On an active session with a stream id and an open socket,
    [sendFallbackSilence] followed by its pauses sends one second of
    silence, no more and no less: frames whose payloads are, together,
    [2 * sampleRate] zero bytes, and then the mark
    [fallback_silence_done]. *)
Theorem fallback_silence_is_one_second (w : World) :
  isActive (session w) = true -> readyState w = 1 ->
  truthy (streamSid (session w)) = true -> 0 <= sampleRate (session w) ->
  exists chunks added,
    chunkPCM (repeat Byte.x00 (Z.to_nat (2 * sampleRate (session w))))
             (chunk_size (session w)) = Some chunks
    /\ wire (run (exec sendFallbackSilence w) (repeat (EvTimer (nextId w)) (length chunks)))
       = wire w ++ added
    /\ concat (media_payloads added) = repeat Byte.x00 (Z.to_nat (2 * sampleRate (session w)))
    /\ marks added = [js "fallback_silence_done"].
Proof.
  intros Hactive Hopen Hsid Hrate.
  assert (Hsize : 0 < chunk_size (session w)).
  { unfold chunk_size. destruct (_ =? _); lia. }
  set (silence := repeat Byte.x00 (Z.to_nat (2 * sampleRate (session w)))).
  destruct (chunkPCM_loop_spec (length silence) silence (chunk_size (session w)) Hsize 0 [])
    as (chunks & Hrun & Hcat & _); [lia | unfold buflen; lia |].
  simpl in Hrun. change (Z.to_nat 0) with 0%nat in Hcat. rewrite drop_0 in Hcat.
  fold (chunkPCM silence (chunk_size (session w))) in Hrun.
  assert (Hstart : exec sendFallbackSilence w
                   = exec (silence_loop (nextId w) chunks) (exec fresh w)).
  { unfold sendFallbackSilence, exec, mbind, M_bind. simpl.
    rewrite Hactive, Hopen, Hsid. simpl.
    replace (sampleRate (session w) * 2 * 1) with (2 * sampleRate (session w)) by lia.
    destruct (Z.ltb_spec (2 * sampleRate (session w)) 0); [lia|].
    fold silence. rewrite Hrun, ?Hopen. reflexivity. }
  destruct (silence_loop_run (nextId w) chunks (exec fresh w)) as
    (added & Hw & _ & Hmedia & Hmarks); [exact Hopen|].
  exists chunks, added. split; [exact Hrun|]. rewrite Hstart.
  split; [exact Hw|]. split; [rewrite Hmedia; exact Hcat | exact Hmarks].
Qed.

Lemma fallback_silence_is_one_second_witness :
  let w := run (connect Scenario.env0 8000) [EvMessage (Connected (Some Scenario.S1) None)] in
  isActive (session w) = true /\ readyState w = 1
  /\ truthy (streamSid (session w)) = true /\ 0 <= sampleRate (session w)
  /\ exists (chunks : list Buffer) added,
       wire (run (exec sendFallbackSilence w) (repeat (EvTimer (nextId w)) (length chunks)))
       = wire w ++ added
       /\ concat (media_payloads added) = repeat Byte.x00 (Z.to_nat 16000).
Proof.
  intros w.
  assert (Hactive : isActive (session w) = true) by reflexivity.
  assert (Hopen : readyState w = 1) by reflexivity.
  assert (Hsid : truthy (streamSid (session w)) = true) by reflexivity.
  assert (Hrate : 0 <= sampleRate (session w)) by (vm_compute; discriminate).
  split; [exact Hactive|]. split; [exact Hopen|]. split; [exact Hsid|]. split; [exact Hrate|].
  destruct (fallback_silence_is_one_second w Hactive Hopen Hsid Hrate)
    as (chunks & added & _ & Hw & Hcat & _).
  exists chunks, added. split; [exact Hw | exact Hcat].
Defined.

End StreamOnWire.

(* ------------------------------------------------------------------ *)
(** ** The session: audio that is thrown away *)
(* ------------------------------------------------------------------ *)

Section DiscardedAudio.

Import AI Server SessionProps.

Lemma count_loud_odd pcm : Nat.odd (length pcm) = true -> count_loud pcm = None.
Proof.
  remember (length pcm) as n eqn:Hn. revert pcm Hn.
  induction n as [n IH] using lt_wf_ind. intros pcm Hn Hodd.
  destruct pcm as [|lo [|hi rest]]; subst n; simpl in *; [discriminate | reflexivity |].
  rewrite (IH (length rest)); [reflexivity | lia | reflexivity |].
  rewrite <- Hodd. symmetry. apply (Nat.odd_succ_succ (length rest)).
Qed.

(** X17. Inbound audio of an odd number of bytes is never transcribed:
    reading the last sample fails, the turn ends there, and the audio,
    already taken out of the buffer, is lost. *)
Theorem odd_audio_is_dropped (w : World) :
  pendingClear (session w) = false ->
  Nat.odd (length (concat (audioBuffer (session w)))) = true ->
  let w' := exec processUserAudio w in
  calls w' = calls w
  /\ tasks w' = tasks w
  /\ audioBuffer (session w') = []
  /\ jobs w' = jobs w ++ [JTurnFinally].
Proof.
  intros Hclear Hodd. cbv zeta.
  unfold exec, processUserAudio, turn_settled, mbind, M_bind. simpl.
  destruct (audioBuffer (session w)) as [|b bs] eqn:Hbuf; [discriminate|].
  simpl in *. rewrite Hclear. simpl.
  rewrite (count_loud_odd _ Hodd). simpl. auto.
Qed.

Lemma odd_audio_is_dropped_witness :
  let s := mkSession (Some Scenario.S1) 8000 [[Byte.x80; Byte.x80; Byte.x80]] [] ∅ 1
             true false true true false false true in
  let w := mkWorld Scenario.env0 s 1 [] [] [] [] [] [] 1 in
  pendingClear (session w) = false
  /\ Nat.odd (length (concat (audioBuffer (session w)))) = true
  /\ calls (exec processUserAudio w) = calls w
  /\ audioBuffer (session (exec processUserAudio w)) = [].
Proof.
  intros s w.
  assert (Hclear : pendingClear (session w) = false) by reflexivity.
  assert (Hodd : Nat.odd (length (concat (audioBuffer (session w)))) = true) by reflexivity.
  split; [exact Hclear|]. split; [exact Hodd|].
  destruct (odd_audio_is_dropped w Hclear Hodd) as (Hcalls & _ & Hbuf & _).
  split; [exact Hcalls | exact Hbuf].
Defined.

Lemma transcribed_app cs ds : transcribed (cs ++ ds) = transcribed cs ++ transcribed ds.
Proof. unfold transcribed. apply omap_app. Qed.

Lemma start_greeting_transcribed w :
  transcribed (calls (exec start_greeting w)) = transcribed (calls w).
Proof.
  unfold exec, start_greeting, streamTTSAudio, mbind, M_bind. simpl.
  destruct (trim (greeting_text w)); simpl; [destruct true; reflexivity|].
  rewrite transcribed_app. simpl. apply app_nil_r.
Qed.

Lemma capture_stream_sid_transcribed stream_sid w :
  transcribed (calls (exec (capture_stream_sid stream_sid) w)) = transcribed (calls w).
Proof.
  unfold exec, capture_stream_sid, mbind, M_bind. simpl.
  destruct (negb (truthy (streamSid (session w))) && truthy stream_sid); [|reflexivity].
  simpl.
  destruct (negb (greetingSent (session w)) && negb (greetingInProgress (session w))
            && isActive (session w)); [|reflexivity].
  apply (start_greeting_transcribed (snd (set_streamSid stream_sid w))).
Qed.

(** After a clear, with the buffer empty and the clear still pending, a
    chunk of inbound audio that starts a turn is thrown away by it. *)
Lemma buffer_audio_after_clear media w :
  track media <> Some (js "outbound") ->
  pendingClear (session w) = true -> audioBuffer (session w) = [] ->
  let chunk := Buffer_from_base64 (default [] (payload media)) in
  let w' := exec (buffer_audio media) w in
  calls w' = calls w
  /\ (processingAudio (session w) = false ->
      sampleRate (session w) * 2 * 2 <= buflen chunk ->
      audioBuffer (session w') = [] /\ pendingClear (session w') = false).
Proof.
  intros Htrack Hclear Hbuf. cbv zeta. unfold buffer_audio. cbv zeta.
  rewrite bool_decide_eq_false_2 by exact Htrack.
  unfold exec, mbind, M_bind. simpl. rewrite Hbuf. simpl.
  destruct (processingAudio (session w)); simpl; [split; [reflexivity | discriminate]|].
  destruct (Z.leb_spec (sampleRate (session w) * 2 * 2)
              (0 + buflen (Buffer_from_base64 (default [] (payload media))))) as [Hge|Hlt];
    simpl.
  - unfold processUserAudio, turn_settled, mbind, M_bind. simpl.
    rewrite Hclear. simpl. auto.
  - split; [reflexivity|]. intros _ H. lia.
Qed.

(** X18. A [clear] that arrives while nothing is being streamed stays
    pending, and the next inbound audio pays for it: when the first
    chunk after the clear starts a turn (no turn is in flight and the
    chunk holds two seconds of audio or more), that turn throws the
    audio away and takes the clear back, and nothing is transcribed. *)
Theorem clear_discards_next_audio (w : World) (stream_sid : option jsstring) (media : Media) :
  truthy (payload media) = true -> track media <> Some (js "outbound") ->
  let chunk := Buffer_from_base64 (default [] (payload media)) in
  let w' := run w [EvMessage Clear; EvMessage (MediaMsg stream_sid (Some media))] in
  transcribed (calls w') = transcribed (calls w)
  /\ (processingAudio (session w) = false ->
      sampleRate (session w) * 2 * 2 <= buflen chunk ->
      audioBuffer (session w') = [] /\ pendingClear (session w') = false).
Proof.
  intros Hpayload Htrack. cbv zeta.
  assert (Hrun : run w [EvMessage Clear; EvMessage (MediaMsg stream_sid (Some media))]
                 = exec (buffer_audio media)
                     (exec (capture_stream_sid stream_sid) (exec handleClearEvent w))).
  { simpl run. unfold step. simpl handle. unfold on_message, handleMediaEvent.
    rewrite Hpayload. reflexivity. }
  rewrite Hrun. clear Hrun.
  set (w1 := exec handleClearEvent w).
  assert (H1 : pendingClear (session w1) = true /\ audioBuffer (session w1) = []
               /\ calls w1 = calls w /\ processingAudio (session w1) = processingAudio (session w)
               /\ sampleRate (session w1) = sampleRate (session w))
    by (repeat split; reflexivity).
  destruct H1 as (Hclear & Hbuf & Hcalls & Hproc & Hrate). clearbody w1.
  set (w2 := exec (capture_stream_sid stream_sid) w1).
  pose proof (capture_stream_sid_audio_state stream_sid w1) as Hsame.
  pose proof (capture_stream_sid_transcribed stream_sid w1) as Htr.
  fold w2 in Hsame, Htr. unfold audio_state in Hsame.
  injection Hsame as Hbuf2 Hproc2 Hrate2 Hclear2. clearbody w2.
  destruct (buffer_audio_after_clear media w2 Htrack) as [Hc Hd];
    [congruence | congruence |].
  split; [rewrite Hc, Htr, Hcalls; reflexivity|].
  intros Hidle Hsize. apply Hd; [congruence | rewrite Hrate2, Hrate; exact Hsize].
Qed.

Lemma clear_discards_next_audio_witness :
  let w := connect Scenario.env0 8000 in
  let media := mkMedia (Some (js "gICA")) (Some (js "inbound")) in
  let w' := run w [EvMessage Clear; EvMessage (MediaMsg None (Some media))] in
  truthy (payload media) = true /\ track media <> Some (js "outbound")
  /\ transcribed (calls w') = transcribed (calls w).
Proof.
  intros w media w'.
  assert (Hpayload : truthy (payload media) = true) by reflexivity.
  assert (Htrack : track media <> Some (js "outbound")) by discriminate.
  split; [exact Hpayload|]. split; [exact Htrack|].
  destruct (clear_discards_next_audio w None media Hpayload Htrack) as [Htr _].
  exact Htr.
Defined.

(** Two seconds of speech are transcribed when they come alone, and
    thrown away when a [clear] came before them. *)
Example clear_costs_an_utterance :
  let w := run (connect Scenario.env0 8000) Scenario.greeted in
  let speech := Scenario.inbound Scenario.loud_payload in
  length (transcribed (calls (run w [speech]))) = 1%nat
  /\ length (transcribed (calls (run w [EvMessage Clear; speech]))) = 0%nat
  /\ audioBuffer (session (run w [EvMessage Clear; speech])) = [].
Proof. vm_compute. repeat split; reflexivity. Qed.

End DiscardedAudio.

(* ------------------------------------------------------------------ *)
(** ** The WAV file: layout, fields, and when it cannot be written *)
(* ------------------------------------------------------------------ *)

Section WavFile.

Import Server Wav.

Lemma byte_of_value (n : N) : Byte.to_N (byte_of n) = (n mod 256)%N.
Proof.
  unfold byte_of.
  destruct (Byte.of_N (n mod 256)) as [b|] eqn:Hb; simpl.
  - apply Byte.to_of_N. exact Hb.
  - apply Byte.of_N_None_iff in Hb. pose proof (N.mod_upper_bound n 256). lia.
Qed.

Lemma le_value_4 (v : Z) : 0 <= v <= 4294967295 -> le_value (le_bytes 4 v) = v.
Proof.
  intros Hv. unfold le_value, le_bytes. cbn [seq map foldr].
  rewrite !byte_of_value.
  change (256 ^ Z.of_nat 0) with 1. change (256 ^ Z.of_nat 1) with 256.
  change (256 ^ Z.of_nat 2) with 65536. change (256 ^ Z.of_nat 3) with 16777216.
  assert (Hb : forall x, 0 <= x -> Z.of_N (Z.to_N (x mod 256) mod 256) = x mod 256).
  { intros x Hx. pose proof (Z.mod_pos_bound x 256). rewrite N.mod_small; lia. }
  rewrite !Hb by (apply Z.div_pos; lia).
  Z.to_euclidean_division_equations. lia.
Qed.

Lemma le_value_2 (v : Z) : 0 <= v <= 65535 -> le_value (le_bytes 2 v) = v.
Proof.
  intros Hv. unfold le_value, le_bytes. cbn [seq map foldr].
  rewrite !byte_of_value.
  change (256 ^ Z.of_nat 0) with 1. change (256 ^ Z.of_nat 1) with 256.
  assert (Hb : forall x, 0 <= x -> Z.of_N (Z.to_N (x mod 256) mod 256) = x mod 256).
  { intros x Hx. pose proof (Z.mod_pos_bound x 256). rewrite N.mod_small; lia. }
  rewrite !Hb by (apply Z.div_pos; lia).
  Z.to_euclidean_division_equations. lia.
Qed.

Lemma writeUInt32LE_fits buf v off :
  0 <= v <= 4294967295 -> (off + 4 <=? length buf)%nat = true ->
  writeUInt32LE buf v off = Some (write_at buf off (le_bytes 4 v)).
Proof.
  intros Hv Hoff. unfold writeUInt32LE. rewrite Hoff.
  destruct (Z.leb_spec 0 v); [|lia]. destruct (Z.leb_spec v 4294967295); [|lia]. reflexivity.
Qed.

Lemma writeUInt32LE_in_bounds buf v off :
  (off + 4 <=? length buf)%nat = true ->
  writeUInt32LE buf v off =
  if (0 <=? v) && (v <=? 4294967295) then Some (write_at buf off (le_bytes 4 v)) else None.
Proof. intros Hoff. unfold writeUInt32LE. rewrite Hoff, andb_true_r. reflexivity. Qed.

Lemma writeUInt16LE_fits buf v off :
  0 <= v <= 65535 -> (off + 2 <=? length buf)%nat = true ->
  writeUInt16LE buf v off = Some (write_at buf off (le_bytes 2 v)).
Proof.
  intros Hv Hoff. unfold writeUInt16LE. rewrite Hoff.
  destruct (Z.leb_spec 0 v); [|lia]. destruct (Z.leb_spec v 65535); [|lia]. reflexivity.
Qed.

Ltac write_constants :=
  repeat (first [ rewrite writeUInt32LE_fits by (first [lia | reflexivity])
                | rewrite writeUInt16LE_fits by (first [lia | reflexivity]) ];
          cbn [mbind option_bind]).

(** The header, field by field. *)
Lemma wavHeader_layout sampleRate dataSize :
  0 <= sampleRate -> 2 * sampleRate <= 4294967295 -> 0 <= dataSize <= 4294967259 ->
  wavHeader sampleRate dataSize =
  Some (ascii_bytes "RIFF" ++ le_bytes 4 (36 + dataSize) ++ ascii_bytes "WAVE"
        ++ ascii_bytes "fmt " ++ le_bytes 4 16 ++ le_bytes 2 1 ++ le_bytes 2 1
        ++ le_bytes 4 sampleRate ++ le_bytes 4 (2 * sampleRate) ++ le_bytes 2 2
        ++ le_bytes 2 16 ++ ascii_bytes "data" ++ le_bytes 4 dataSize).
Proof.
  intros Hrate Hbyte Hsize. unfold wavHeader. cbv zeta.
  change (16 / 8) with 2.
  replace (sampleRate * 1 * 2) with (2 * sampleRate) by lia.
  write_constants. reflexivity.
Qed.

Lemma write_at_length buf off bytes :
  (off + length bytes <= length buf)%nat -> length (write_at buf off bytes) = length buf.
Proof.
  intros H. unfold write_at. rewrite !length_app, length_take, length_drop. lia.
Qed.

Lemma write_length buf s off : length (write buf s off) = length buf.
Proof.
  unfold write, write_at.
  repeat first [rewrite length_app | rewrite length_take | rewrite length_drop]. lia.
Qed.

Lemma le_bytes_length n v : length (le_bytes n v) = n.
Proof. unfold le_bytes. rewrite length_map, length_seq. reflexivity. Qed.

Lemma writeUInt32LE_length buf v off h :
  writeUInt32LE buf v off = Some h -> length h = length buf.
Proof.
  unfold writeUInt32LE.
  destruct ((0 <=? v) && (v <=? 4294967295)); [|discriminate].
  destruct (Nat.leb_spec (off + 4) (length buf)); [|discriminate].
  intros [= <-]. apply write_at_length. rewrite le_bytes_length. lia.
Qed.

Lemma writeUInt16LE_length buf v off h :
  writeUInt16LE buf v off = Some h -> length h = length buf.
Proof.
  unfold writeUInt16LE.
  destruct ((0 <=? v) && (v <=? 65535)); [|discriminate].
  destruct (Nat.leb_spec (off + 2) (length buf)); [|discriminate].
  intros [= <-]. apply write_at_length. rewrite le_bytes_length. lia.
Qed.

(** A header that could be written has 44 bytes. *)
Lemma wavHeader_length sampleRate dataSize h :
  wavHeader sampleRate dataSize = Some h -> length h = 44%nat.
Proof.
  unfold wavHeader. cbv zeta. intros H.
  repeat match type of H with
         | mbind _ ?m = Some _ =>
             let b := fresh "b" in
             let Hb := fresh "Hb" in
             destruct m as [b|] eqn:Hb; [cbn [mbind option_bind] in H | discriminate];
             first [apply writeUInt32LE_length in Hb | apply writeUInt16LE_length in Hb]
         end.
  apply writeUInt32LE_length in H.
  rewrite !write_length in *. change (length (alloc 44)) with 44%nat in *. lia.
Qed.

(** X19. For a sample rate from 0 to 2^31 - 1 and at most 2^32 - 37
    bytes of PCM, the file that [pcmToWavFile] writes is a header of 44
    bytes followed by the PCM unchanged; the header opens with "RIFF",
    and its fields, read as the format says, give back what was written:
    the file size less 8, the sample rate, the byte rate (twice the
    sample rate), one channel, 16 bits, and the size of the data. *)
Theorem wav_file_layout (pcm : Buffer) (sampleRate : Z) :
  0 <= sampleRate -> 2 * sampleRate <= 4294967295 -> buflen pcm <= 4294967259 ->
  exists wav,
    pcmToWavFile pcm sampleRate = Some wav
    /\ buflen wav = 44 + buflen pcm
    /\ drop 44 wav = pcm
    /\ take 4 wav = ascii_bytes "RIFF"
    /\ readUIntLE wav 4 4 = Some (36 + buflen pcm)
    /\ readUIntLE wav 22 2 = Some 1
    /\ readUIntLE wav 24 4 = Some sampleRate
    /\ readUIntLE wav 28 4 = Some (2 * sampleRate)
    /\ readUIntLE wav 34 2 = Some 16
    /\ readUIntLE wav 40 4 = Some (buflen pcm).
Proof.
  intros Hrate Hbyte Hsize.
  assert (Hlen : 0 <= buflen pcm) by (unfold buflen; lia).
  unfold pcmToWavFile.
  rewrite (wavHeader_layout sampleRate (buflen pcm)) by lia.
  cbn [mbind option_bind]. eexists. split; [reflexivity|].
  split; [unfold buflen; rewrite length_app; simpl; lia|].
  split; [reflexivity|]. split; [reflexivity|].
  unfold readUIntLE.
  split; [|split; [reflexivity|]; split; [|split; [|split; [reflexivity|]]]].
  - change (take 4 (drop 4 _)) with (le_bytes 4 (36 + buflen pcm)).
    rewrite le_value_4 by lia. reflexivity.
  - change (take 4 (drop 24 _)) with (le_bytes 4 sampleRate).
    rewrite le_value_4 by lia. reflexivity.
  - change (take 4 (drop 28 _)) with (le_bytes 4 (2 * sampleRate)).
    rewrite le_value_4 by lia. reflexivity.
  - change (take 4 (drop 40 _)) with (le_bytes 4 (buflen pcm)).
    rewrite le_value_4 by lia. reflexivity.
Qed.

Lemma wav_file_layout_witness :
  0 <= 8000 /\ 2 * 8000 <= 4294967295 /\ buflen [Byte.x01; Byte.x02] <= 4294967259 /\
  exists wav,
    pcmToWavFile [Byte.x01; Byte.x02] 8000 = Some wav
    /\ buflen wav = 46
    /\ readUIntLE wav 24 4 = Some 8000.
Proof.
  split; [lia|]. split; [lia|]. split; [vm_compute; discriminate|].
  destruct (wav_file_layout [Byte.x01; Byte.x02] 8000) as (wav & Hw & Hlen & _ & _ & _ & _ & Hr & _);
    [lia | lia | vm_compute; discriminate |].
  exists wav. split; [exact Hw|]. split; [exact Hlen | exact Hr].
Defined.

(** X20. The file cannot be written for every input: a negative sample
    rate, a sample rate of 2^31 or more (whose byte rate does not fit in
    four bytes) or 2^32 - 36 bytes of PCM or more make a
    [writeUInt32LE] of the header throw, and no file is produced. *)
Theorem wav_header_out_of_range (pcm : Buffer) (sampleRate : Z) :
  sampleRate < 0 \/ 4294967295 < 2 * sampleRate \/ 4294967259 < buflen pcm ->
  pcmToWavFile pcm sampleRate = None.
Proof.
  intros Hbad. unfold pcmToWavFile, wavHeader. cbv zeta.
  change (16 / 8) with 2.
  replace (sampleRate * 1 * 2) with (2 * sampleRate) by lia.
  rewrite writeUInt32LE_in_bounds by reflexivity.
  destruct ((0 <=? 36 + buflen pcm) && (36 + buflen pcm <=? 4294967295)) eqn:Hfile;
    cbn [mbind option_bind]; [|reflexivity].
  write_constants.
  rewrite writeUInt32LE_in_bounds by reflexivity.
  destruct ((0 <=? sampleRate) && (sampleRate <=? 4294967295)) eqn:Hrate;
    cbn [mbind option_bind]; [|reflexivity].
  rewrite writeUInt32LE_in_bounds by reflexivity.
  destruct ((0 <=? 2 * sampleRate) && (2 * sampleRate <=? 4294967295)) eqn:Hbyte;
    cbn [mbind option_bind]; [|reflexivity].
  exfalso. apply andb_true_iff in Hfile, Hrate, Hbyte.
  rewrite !Z.leb_le in Hfile, Hrate, Hbyte. lia.
Qed.

Lemma wav_header_out_of_range_witness :
  (2147483648 < 0 \/ 4294967295 < 2 * 2147483648 \/ 4294967259 < buflen [Byte.x01; Byte.x02])
  /\ pcmToWavFile [Byte.x01; Byte.x02] 2147483648 = None.
Proof.
  assert (H : 2147483648 < 0 \/ 4294967295 < 2 * 2147483648
              \/ 4294967259 < buflen [Byte.x01; Byte.x02]) by (right; left; lia).
  split; [exact H|]. apply (wav_header_out_of_range [Byte.x01; Byte.x02] 2147483648 H).
Defined.

End WavFile.

(* ------------------------------------------------------------------ *)
(** ** Speech synthesis: the retry schedule and the fallback *)
(* ------------------------------------------------------------------ *)

Section SpeechSynthesis.

Import Tts.

(** One step of the loop, by the kind of answer. *)
Lemma retry_loop_step answer maxRetries iterations attempt lastError slept :
  retry_loop answer maxRetries (S iterations) attempt lastError slept =
  match answer attempt with
  | Audio pcm => mkTrace (Return pcm) (S attempt) slept
  | Failed e =>
      if retried e then
        retry_loop answer maxRetries iterations (S attempt) (Some e)
          (if Z.of_nat attempt <? maxRetries then slept ++ [slept_after e attempt] else slept)
      else mkTrace (Exit (Some e)) (S attempt) slept
  end.
Proof.
  cbn [retry_loop]. destruct (answer attempt) as [pcm|e]; [reflexivity|].
  unfold retried, slept_after.
  destruct (status e) as [s|] eqn:Hs.
  - destruct (Z.eqb_spec s 429) as [->|Hne].
    + rewrite bool_decide_eq_true_2 by reflexivity.
      destruct (mentions_quota _ _); cbn [negb]; [reflexivity|].
      destruct (Z.of_nat attempt <? maxRetries); reflexivity.
    + rewrite bool_decide_eq_false_2 by congruence.
      destruct ((500 <=? s) && (s <? 600)); [|reflexivity].
      destruct (Z.of_nat attempt <? maxRetries); reflexivity.
  - rewrite bool_decide_eq_false_2 by discriminate. reflexivity.
Qed.

(** The loop, from any attempt on. *)
Lemma retry_loop_spec answer maxRetries :
  forall iterations attempt lastError slept,
    (0 < iterations)%nat ->
    Z.of_nat attempt + Z.of_nat iterations = maxRetries + 1 ->
    length slept = attempt ->
    (forall k, (k < attempt)%nat ->
       exists e, answer k = Failed e /\ retried e = true /\ slept !! k = Some (slept_after e k)) ->
    let t := retry_loop answer maxRetries iterations attempt lastError slept in
    (attempt < requests t)%nat
    /\ Z.of_nat (requests t) <= maxRetries + 1
    /\ length (waits t) = (requests t - 1)%nat
    /\ (forall k, (k < requests t - 1)%nat ->
          exists e, answer k = Failed e /\ retried e = true
                    /\ waits t !! k = Some (slept_after e k))
    /\ match ending t with
       | Return pcm => answer (requests t - 1)%nat = Audio pcm
       | Exit lastError' =>
           exists e, lastError' = Some e /\ answer (requests t - 1)%nat = Failed e
                     /\ (retried e = false \/ Z.of_nat (requests t) = maxRetries + 1)
       end.
Proof.
  induction iterations as [|iterations IH]; intros attempt lastError slept Hpos Hsum Hlen Hpast;
    [lia|].
  cbv zeta. rewrite retry_loop_step.
  destruct (answer attempt) as [pcm|e] eqn:Hanswer.
  - cbn [requests waits ending]. replace (S attempt - 1)%nat with attempt by lia.
    split; [lia|]. split; [lia|]. split; [exact Hlen|].
    split; [exact Hpast | exact Hanswer].
  - destruct (retried e) eqn:Hretried.
    + destruct (Z.ltb_spec (Z.of_nat attempt) maxRetries) as [Hmore|Hdone].
      * specialize (IH (S attempt) (Some e) (slept ++ [slept_after e attempt])).
        cbv zeta in IH.
        destruct IH as (Hge & Hle & Hw & Hk & Hend).
        -- lia.
        -- lia.
        -- rewrite length_app. simpl. lia.
        -- intros k Hk. destruct (decide (k = attempt)) as [->|Hne].
           ++ exists e. split; [exact Hanswer|]. split; [exact Hretried|].
              rewrite lookup_app_r by lia. rewrite Hlen, Nat.sub_diag. reflexivity.
           ++ destruct (Hpast k) as (e' & H1 & H2 & H3); [lia|].
              exists e'. split; [exact H1|]. split; [exact H2|].
              rewrite lookup_app_l by lia. exact H3.
        -- split; [lia|]. split; [exact Hle|]. split; [exact Hw|].
           split; [exact Hk | exact Hend].
      * assert (iterations = 0%nat) by lia. subst iterations.
        cbn [retry_loop requests waits ending].
        replace (S attempt - 1)%nat with attempt by lia.
        split; [lia|]. split; [lia|]. split; [exact Hlen|].
        split; [exact Hpast|]. exists e. split; [reflexivity|].
        split; [exact Hanswer|]. right. lia.
    + cbn [requests waits ending]. replace (S attempt - 1)%nat with attempt by lia.
      split; [lia|]. split; [lia|]. split; [exact Hlen|].
      split; [exact Hpast|]. exists e. split; [reflexivity|].
      split; [exact Hanswer|]. left. exact Hretried.
Qed.

(** X21. With a key and [maxRetries] not negative, [synthesizeOpenAI]
    sends at least one request and at most [maxRetries + 1], and sleeps
    once between two requests. Every request but the last was answered
    by an error that is retried (a 429 that does not speak of quota or
    billing, or a 5xx), and the sleep after it is the Retry-After of a
    429, else the backoff of the attempt, capped at 30 s after a 429 and
    at 10 s after a 5xx. The call returns the audio of the last answer,
    or throws an error without a status whose message ends with the
    detail of the last answer; it throws only when that answer is an
    error that is not retried (any error without a response among them)
    or when all [maxRetries + 1] requests were sent. *)
Theorem openai_retry_schedule (openaiApiKey : option jsstring) (answer : nat -> Response)
    (maxRetries : Z) :
  truthy openaiApiKey = true -> 0 <= maxRetries ->
  let t := synthesizeOpenAI openaiApiKey answer maxRetries in
  let n := requests t in
  (1 <= n)%nat
  /\ Z.of_nat n <= maxRetries + 1
  /\ length (waits t) = (n - 1)%nat
  /\ (forall k, (k < n - 1)%nat ->
        exists e, answer k = Failed e /\ retried e = true
                  /\ waits t !! k = Some (slept_after e k))
  /\ match ending t with
     | Returned pcm => answer (n - 1)%nat = Audio pcm
     | Threw error =>
         exists e, answer (n - 1)%nat = Failed e
                   /\ (retried e = false \/ Z.of_nat n = maxRetries + 1)
                   /\ thrown_status error = None
                   /\ thrown_message error =
                        js "OpenAI TTS failed after " ++ number_text (maxRetries + 1)
                        ++ js " attempts: " ++ detail e
     end.
Proof.
  intros Hkey Hmax. cbv zeta. unfold synthesizeOpenAI. rewrite Hkey. cbn [negb].
  pose proof (retry_loop_spec answer maxRetries (Z.to_nat (maxRetries + 1)) 0 None []) as H.
  cbv zeta in H.
  destruct H as (Hpos & Hle & Hw & Hk & Hend);
    [lia | lia | reflexivity | intros k Hk; lia |].
  set (t := retry_loop answer maxRetries (Z.to_nat (maxRetries + 1)) 0 None []) in *.
  destruct (ending t) as [pcm|lastError]; cbn [requests waits ending].
  - repeat (split; [first [assumption | lia]|]). exact Hend.
  - repeat (split; [first [assumption | lia]|]).
    destruct Hend as (e & -> & He & Hwhy).
    exists e. split; [exact He|]. split; [exact Hwhy|]. split; reflexivity.
Qed.

Lemma openai_retry_schedule_witness :
  let rate_limited := mkRequestError (Some 429) (js "Rate limit reached") None None
                        (js "Rate limit reached") in
  let answer := fun k : nat =>
    match k with 0%nat => Failed rate_limited | _ => Audio [Byte.x01; Byte.x02] end in
  let t := synthesizeOpenAI (Some (js "sk-test")) answer 3 in
  truthy (Some (js "sk-test")) = true /\ 0 <= 3
  /\ requests t = 2%nat /\ waits t = [Some 1000]
  /\ (1 <= requests t)%nat /\ Z.of_nat (requests t) <= 3 + 1.
Proof.
  intros rate_limited answer t.
  assert (Hkey : truthy (Some (js "sk-test")) = true) by reflexivity.
  assert (Hmax : 0 <= 3) by lia.
  split; [exact Hkey|]. split; [exact Hmax|].
  split; [reflexivity|]. split; [reflexivity|].
  destruct (openai_retry_schedule (Some (js "sk-test")) answer 3 Hkey Hmax) as (H1 & H2 & _).
  split; [exact H1 | exact H2].
Defined.

Lemma isPrefix_app_sep (c : N) (p a d : jsstring) :
  c ∉ p -> p <> [] -> isPrefix p (a ++ c :: d) = isPrefix p a.
Proof.
  revert a. induction p as [|x p IH]; intros a Hc Hne; [congruence|].
  destruct a as [|y a]; simpl.
  - destruct (N.eqb_spec x c) as [->|Hxc]; [|reflexivity].
    exfalso. apply Hc. left.
  - destruct (N.eqb x y); [|reflexivity]. simpl.
    destruct p as [|x' p'].
    + destruct a; reflexivity.
    + apply IH; [|discriminate]. intros Hin. apply Hc. right. exact Hin.
Qed.

(** A match does not straddle a character that the pattern lacks. *)
Lemma includes_app_sep (c : N) (p a d : jsstring) :
  c ∉ p -> p <> [] -> includes (a ++ c :: d) p = includes a p || includes d p.
Proof.
  intros Hc Hne. induction a as [|y a IH].
  - simpl app. destruct p as [|x p]; [congruence|].
    cbn [includes isPrefix].
    destruct (N.eqb_spec x c) as [->|Hxc]; [exfalso; apply Hc; left|].
    reflexivity.
  - change ((y :: a) ++ c :: d) with (y :: (a ++ c :: d)).
    cbn [includes]. rewrite IH.
    change (y :: (a ++ c :: d)) with ((y :: a) ++ c :: d).
    rewrite (isPrefix_app_sep c p (y :: a) d Hc Hne).
    rewrite orb_assoc. reflexivity.
Qed.

(** X22. When [synthesizeOpenAI] has thrown, [synthesize] turns to
    Deepgram exactly when a Deepgram key is set and the detail of the
    last error speaks of quota or billing, in any case. The status of the
    error plays no part, although [synthesize] tests it: the error that
    [synthesizeOpenAI] throws carries none, so that a rate limit (429)
    that lasted through all attempts is thrown on, Deepgram not being
    asked. *)
Theorem fallback_reads_the_message (openaiApiKey deepgramApiKey : option jsstring)
    (answer : nat -> Response) (deepgram : Outcome) (sampleRate : Z) (e : RequestError) :
  truthy openaiApiKey = true ->
  ending (retry_loop answer 3 4 0 None []) = Exit (Some e) ->
  let speaks_of_quota :=
    includes (toLowerCase (detail e)) (js "quota")
    || includes (toLowerCase (detail e)) (js "billing") in
  exists error,
    ending (synthesizeOpenAI openaiApiKey answer 3) = Threw error
    /\ synthesize openaiApiKey deepgramApiKey answer deepgram sampleRate =
       if speaks_of_quota && truthy deepgramApiKey
       then (from_deepgram deepgram sampleRate, [OpenAI; Deepgram])
       else (Error error, [OpenAI]).
Proof.
  intros Hkey Hend. cbv zeta.
  unfold synthesize. rewrite Hkey.
  unfold synthesizeOpenAI. rewrite Hkey. cbn [negb].
  change (Z.to_nat (3 + 1)) with 4%nat. rewrite Hend. cbn [ending].
  eexists. split; [reflexivity|].
  cbn [thrown_status thrown_message thrown_type new_Error].
  rewrite bool_decide_eq_false_2 by discriminate.
  unfold mentions_quota. rewrite bool_decide_eq_false_2 by discriminate.
  rewrite orb_false_r. cbn [orb].
  change (number_text (3 + 1)) with (js "4").
  change (js "OpenAI TTS failed after " ++ js "4" ++ js " attempts: " ++ detail e)
    with (js "OpenAI TTS failed after 4 attempts:" ++ 32%N :: detail e).
  unfold toLowerCase. rewrite map_app. cbn [map].
  change (lower_char 32) with 32%N.
  rewrite !includes_app_sep by (first [discriminate | apply (bool_decide_eq_true_1 _); vm_compute; reflexivity]).
  replace (includes (map lower_char (js "OpenAI TTS failed after 4 attempts:")) (js "quota"))
    with false by (vm_compute; reflexivity).
  replace (includes (map lower_char (js "OpenAI TTS failed after 4 attempts:")) (js "billing"))
    with false by (vm_compute; reflexivity).
  reflexivity.
Qed.

Lemma fallback_reads_the_message_witness :
  let rate_limited := mkRequestError (Some 429) (js "Rate limit reached") None None
                        (js "Rate limit reached") in
  let answer := fun _ : nat => Failed rate_limited in
  truthy (Some (js "sk-test")) = true
  /\ ending (retry_loop answer 3 4 0 None []) = Exit (Some rate_limited)
  /\ snd (synthesize (Some (js "sk-test")) (Some (js "dg-test")) answer
            (Returned [Byte.x01; Byte.x02]) 8000) = [OpenAI].
Proof.
  intros rate_limited answer.
  assert (Hkey : truthy (Some (js "sk-test")) = true) by reflexivity.
  assert (Hend : ending (retry_loop answer 3 4 0 None []) = Exit (Some rate_limited))
    by reflexivity.
  split; [exact Hkey|]. split; [exact Hend|].
  destruct (fallback_reads_the_message (Some (js "sk-test")) (Some (js "dg-test")) answer
              (Returned [Byte.x01; Byte.x02]) 8000 rate_limited Hkey Hend) as (error & _ & Hs).
  rewrite Hs. reflexivity.
Defined.

End SpeechSynthesis.

(* ------------------------------------------------------------------ *)
(** ** Uploads: every file that the route accepts has a known type *)
(* ------------------------------------------------------------------ *)

Section AcceptedUploads.

Import FileParser.

Lemma lower_char_dot (c : N) : (lower_char c =? 46)%N = (c =? 46)%N.
Proof.
  unfold lower_char.
  destruct ((65 <=? c)%N && (c <=? 90)%N) eqn:Hup; [|reflexivity].
  apply andb_true_iff in Hup as [H1 H2].
  apply N.leb_le in H1, H2.
  destruct (N.eqb_spec (c + 32) 46), (N.eqb_spec c 46); first [reflexivity | lia].
Qed.

(** Lowering the case and taking the extension commute. *)
Lemma last_segment_go_lower (s cur : jsstring) :
  last_segment_go (toLowerCase s) (toLowerCase cur) = toLowerCase (last_segment_go s cur).
Proof.
  revert cur. induction s as [|c s IH]; intros cur; simpl.
  - unfold toLowerCase. symmetry. apply map_rev.
  - rewrite lower_char_dot. destruct (c =? 46)%N.
    + apply (IH []).
    + apply (IH (c :: cur)).
Qed.

Lemma last_segment_lower (s : jsstring) :
  last_segment (toLowerCase s) = toLowerCase (last_segment s).
Proof. apply (last_segment_go_lower s []). Qed.

Lemma type_of_mimetype_allowed (mimetype : jsstring) :
  mimetype ∈ allowedMimes -> is_Some (type_of_mimetype mimetype).
Proof.
  unfold allowedMimes. rewrite !elem_of_cons, elem_of_nil.
  intros [->|[->|[->|[->|[]]]]]; vm_compute; eauto.
Qed.

Lemma type_of_extension_allowed (ext : jsstring) :
  js "." ++ ext ∈ allowedExts -> is_Some (type_of_extension ext).
Proof.
  unfold allowedExts. rewrite !elem_of_cons, elem_of_nil.
  intros [H|[H|[H|[H|[]]]]]; cbv in H; injection H as ->; vm_compute; eauto.
Qed.

(** X23. Every upload that the route accepts has a type that the parser
    knows: for a file that passes [fileFilter], [getFileType] returns
    one of txt, md, docx and pdf and does not throw. When the mimetype
    is one of the four that the filter lists, it alone decides the
    type, whatever the name of the file. *)
Theorem accepted_upload_has_type (mimetype originalname : jsstring) :
  fileFilter mimetype originalname = true ->
  is_Some (getFileType (Some mimetype) originalname)
  /\ (mimetype ∈ allowedMimes ->
      forall other, getFileType (Some mimetype) other
                    = getFileType (Some mimetype) originalname).
Proof.
  intros Hok. split.
  - unfold fileFilter in Hok. cbv zeta in Hok.
    unfold getFileType.
    apply orb_true_iff in Hok as [Hmime|Hext].
    + apply bool_decide_eq_true_1 in Hmime.
      assert (Hne : truthy (Some mimetype) = true).
      { unfold allowedMimes in Hmime. rewrite !elem_of_cons, elem_of_nil in Hmime.
        destruct Hmime as [->|[->|[->|[->|[]]]]]; reflexivity. }
      rewrite Hne. change (default [] (Some mimetype)) with mimetype.
      destruct (type_of_mimetype_allowed mimetype Hmime) as [t ->]. eauto.
    + apply bool_decide_eq_true_1 in Hext.
      destruct (if truthy (Some mimetype) then type_of_mimetype (default [] (Some mimetype))
                else None) as [t|]; [eauto|].
      rewrite last_segment_lower. apply type_of_extension_allowed. exact Hext.
  - intros Hmime other. unfold getFileType.
    assert (Hne : truthy (Some mimetype) = true).
    { unfold allowedMimes in Hmime. rewrite !elem_of_cons, elem_of_nil in Hmime.
      destruct Hmime as [->|[->|[->|[->|[]]]]]; reflexivity. }
    rewrite Hne. change (default [] (Some mimetype)) with mimetype.
    destruct (type_of_mimetype_allowed mimetype Hmime) as [t ->]. reflexivity.
Qed.

Lemma accepted_upload_has_type_witness :
  fileFilter (js "application/octet-stream") (js "Notes.v2.PDF") = true
  /\ getFileType (Some (js "application/octet-stream")) (js "Notes.v2.PDF") = Some pdf.
Proof.
  assert (Hok : fileFilter (js "application/octet-stream") (js "Notes.v2.PDF") = true)
    by (vm_compute; reflexivity).
  split; [exact Hok|].
  destruct (accepted_upload_has_type (js "application/octet-stream") (js "Notes.v2.PDF") Hok)
    as [[t Ht] _].
  rewrite Ht. vm_compute in Ht. symmetry. exact Ht.
Defined.

End AcceptedUploads.

(* ------------------------------------------------------------------ *)
(** ** The knowledge base read from a file: what is returned *)
(* ------------------------------------------------------------------ *)

Section RelevantSections.

Import KB FileKB.

Lemma count_word_ge text score word : score <= count_word text score word.
Proof.
  unfold count_word.
  destruct (negb _ || _); [lia|]. destruct (includes _ _); lia.
Qed.

Lemma foldl_count_word_ge text ws : forall acc, acc <= foldl (count_word text) acc ws.
Proof.
  induction ws as [|w ws IH]; intros acc; simpl; [lia|].
  pose proof (count_word_ge text acc w). pose proof (IH (count_word text acc w)). lia.
Qed.

Lemma count_word_gt text score word :
  score < count_word text score word <-> 2 <= jslen word /\ includes text word = true.
Proof.
  unfold count_word.
  destruct word as [|c word]; [simpl; unfold jslen; simpl; lia|].
  cbn [truthy negb orb].
  destruct (Z.ltb_spec (jslen (c :: word)) 2); [lia|].
  destruct (includes text (c :: word)); split; first [lia | intros [_ H]; discriminate | auto].
Qed.

Lemma foldl_count_word_gt text ws :
  forall acc,
    acc < foldl (count_word text) acc ws
    <-> exists word, word ∈ ws /\ 2 <= jslen word /\ includes text word = true.
Proof.
  induction ws as [|w ws IH]; intros acc; simpl.
  - split; [lia|]. intros (word & Hin & _). apply elem_of_nil in Hin. contradiction.
  - split.
    + intros Hlt.
      destruct (Z.lt_ge_cases acc (count_word text acc w)) as [Hw|Hw].
      * exists w. split; [left|]. apply count_word_gt in Hw. exact Hw.
      * pose proof (count_word_ge text acc w).
        assert (count_word text acc w = acc) as Heq by lia. rewrite Heq in Hlt.
        apply IH in Hlt as (word & Hin & Hlen & Hinc).
        exists word. split; [right; exact Hin | auto].
    + intros (word & Hin & Hlen & Hinc).
      apply elem_of_cons in Hin as [->|Hin].
      * assert (acc < count_word text acc w) by (apply count_word_gt; auto).
        pose proof (foldl_count_word_ge text ws (count_word text acc w)). lia.
      * pose proof (count_word_ge text acc w).
        assert (count_word text acc w < foldl (count_word text) (count_word text acc w) ws)
          by (apply IH; eauto).
        lia.
Qed.

(** A section scores above zero when it is heading-like or holds a
    word of the query, and only then. *)
Lemma score_section_positive query section idx :
  0 < score (score_section (toLowerCase query) section idx)
  <-> heading_like section = true \/ holds_word query section.
Proof.
  unfold score_section, holds_word. cbv zeta. cbn [score].
  pose proof (foldl_count_word_ge (toLowerCase section)
                (split_whitespace (toLowerCase query)) 0) as Hge.
  pose proof (foldl_count_word_gt (toLowerCase section)
                (split_whitespace (toLowerCase query)) 0) as Hgt.
  destruct (heading_like section).
  - split; [auto | lia].
  - rewrite Hgt. split; [auto|]. intros [H|H]; [discriminate | exact H].
Qed.

Lemma slice_all {A} (l : list A) k :
  Z.of_nat (length l) <= k -> slice l 0 (Some k) = l.
Proof.
  intros Hk. unfold slice, slice_index. rewrite Z.ltb_irrefl.
  destruct (Z.ltb_spec k 0); [lia|].
  rewrite (Z.min_l 0) by lia. rewrite Z.min_r by lia.
  rewrite Z.sub_0_r, Nat2Z.id. change (Z.to_nat 0) with 0%nat. rewrite drop_0.
  apply take_ge. lia.
Qed.

Lemma length_map_indexed {A B} (f : A -> Z -> B) l : forall z, length (map_indexed f z l) = length l.
Proof. induction l as [|x l IH]; intros z; simpl; [reflexivity | rewrite IH; reflexivity]. Qed.

(** X24. [findRelevantSections] returns at most [maxSections] sections,
    each one a section of the knowledge base that is heading-like or
    holds, as a substring and in any case, a word of the query of two
    characters or more. With as many places as sections, it returns
    every such section: a heading-like section is returned for every
    query that is not empty, whatever the query asks. *)
Theorem findRelevantSections_returns (kbSections : list jsstring) (query : jsstring)
    (maxSections : Z) :
  0 <= maxSections ->
  let r := findRelevantSections kbSections (Some query) maxSections in
  Z.of_nat (length r) <= maxSections
  /\ Forall (fun s => s ∈ kbSections
                      /\ (heading_like s = true \/ holds_word query s)) r
  /\ (query <> [] -> Z.of_nat (length kbSections) <= maxSections ->
      forall s, s ∈ kbSections ->
                heading_like s = true \/ holds_word query s -> s ∈ r).
Proof.
  intros Hmax. cbv zeta. unfold findRelevantSections.
  change (default [] (Some query)) with query.
  destruct ((Z.of_nat (length kbSections) =? 0) || negb (truthy (Some query))) eqn:Hguard.
  - split; [simpl; lia|]. split; [constructor|].
    intros Hq Hlen s Hs _. exfalso.
    apply orb_true_iff in Hguard as [H0|Hempty].
    + apply Z.eqb_eq in H0. destruct kbSections; [|simpl in H0; lia].
      apply elem_of_nil in Hs. exact Hs.
    + destruct query; [congruence | discriminate].
  - cbv zeta.
    set (scored := sort_scored (map_indexed (score_section (toLowerCase query)) 0 kbSections)).
    split; [rewrite length_map; apply slice_from_start_length; exact Hmax|].
    split.
    + destruct (slice_from_start (filter (fun item => 0 < score item) scored) maxSections)
        as [n ->].
      apply Forall_forall. intros s Hs.
      apply list_elem_of_fmap in Hs as (e & -> & He).
      apply subseteq_take in He. apply list_elem_of_filter in He as [Hpos He].
      unfold scored in He. rewrite sort_scored_perm in He.
      apply map_indexed_elem in He as (i & x & Hi & ->).
      cbn [chunk score_section]. split.
      * apply list_elem_of_lookup. eauto.
      * apply (score_section_positive query x (0 + Z.of_nat i)). exact Hpos.
    + intros Hq Hlen s Hs Hrel.
      rewrite slice_all.
      * apply list_elem_of_lookup in Hs as [i Hi].
        apply list_elem_of_fmap.
        exists (score_section (toLowerCase query) s (0 + Z.of_nat i)).
        split; [reflexivity|].
        apply list_elem_of_filter. split.
        -- apply score_section_positive. exact Hrel.
        -- unfold scored. rewrite sort_scored_perm.
           apply list_elem_of_lookup. exists i.
           apply map_indexed_lookup. exact Hi.
      * pose proof (length_filter (fun item => 0 < score item) scored) as Hf.
        assert (length scored = length kbSections) as Hl.
        { unfold scored. rewrite (Permutation_length (sort_scored_perm _)).
          apply length_map_indexed. }
        lia.
Qed.

Lemma findRelevantSections_returns_witness :
  let kbSections := [js "We deliver on Sunday."; js "Pricing:"; js "Closed on Monday."] in
  0 <= 3
  /\ js "Pricing:" ∈ findRelevantSections kbSections (Some (js "Sun")) 3
  /\ js "Closed on Monday." ∉ findRelevantSections kbSections (Some (js "Sun")) 3.
Proof.
  intros kbSections.
  assert (Hmax : 0 <= 3) by lia.
  split; [exact Hmax|].
  destruct (findRelevantSections_returns kbSections (js "Sun") 3 Hmax) as (_ & _ & Hall).
  split.
  - apply Hall; [discriminate | simpl; lia | right; left | left; reflexivity].
  - apply (bool_decide_eq_true_1 _). vm_compute. reflexivity.
Defined.

End RelevantSections.

(* ------------------------------------------------------------------ *)
(** ** The log buffer: what it keeps and what the route returns *)
(* ------------------------------------------------------------------ *)

Section LogBuffer.

Import Monitoring.

Lemma push_log_spec (logBuffer : list LogEntry) (logEntry : LogEntry) :
  Z.of_nat (length logBuffer) <= maxLogBufferSize ->
  push_log logBuffer logEntry
  = drop (Z.to_nat (Z.of_nat (length logBuffer) + 1 - maxLogBufferSize))
      (logBuffer ++ [logEntry]).
Proof.
  intros Hlen. unfold push_log. cbv zeta. rewrite length_app. simpl length.
  destruct (Z.ltb_spec maxLogBufferSize (Z.of_nat (length logBuffer + 1))) as [Hfull|Hroom].
  - replace (Z.to_nat (Z.of_nat (length logBuffer) + 1 - maxLogBufferSize)) with 1%nat by lia.
    reflexivity.
  - replace (Z.to_nat (Z.of_nat (length logBuffer) + 1 - maxLogBufferSize)) with 0%nat by lia.
    reflexivity.
Qed.

(** X25. The log buffer never holds more than 1000 entries, and holds
    the latest ones: after any number of entries are pushed on a buffer
    of at most 1000, in order, the buffer is the last 1000 entries of
    the old buffer followed by the new entries, or all of them when
    they are fewer. *)
Theorem log_buffer_keeps_latest (logBuffer entries : list LogEntry) :
  Z.of_nat (length logBuffer) <= maxLogBufferSize ->
  let all := logBuffer ++ entries in
  foldl push_log logBuffer entries
  = drop (Z.to_nat (Z.of_nat (length all) - maxLogBufferSize)) all
  /\ Z.of_nat (length (foldl push_log logBuffer entries)) <= maxLogBufferSize.
Proof.
  cbv zeta. revert logBuffer.
  induction entries as [|e entries IH]; intros logBuffer Hlen.
  - simpl foldl. rewrite app_nil_r.
    replace (Z.to_nat (Z.of_nat (length logBuffer) - maxLogBufferSize)) with 0%nat by lia.
    rewrite drop_0. auto.
  - simpl foldl.
    assert (Hpush : Z.of_nat (length (push_log logBuffer e)) <= maxLogBufferSize).
    { rewrite push_log_spec by exact Hlen. rewrite length_drop, length_app. simpl length. lia. }
    destruct (IH (push_log logBuffer e) Hpush) as [Heq Hle].
    split; [|exact Hle].
    rewrite Heq. rewrite push_log_spec by exact Hlen.
    set (k := Z.to_nat (Z.of_nat (length logBuffer) + 1 - maxLogBufferSize)).
    assert (Hk : (k <= length (logBuffer ++ [e]))%nat)
      by (rewrite length_app; simpl length; lia).
    rewrite <- (drop_app_le _ entries) by exact Hk.
    rewrite <- (assoc_L (++)). simpl app.
    rewrite drop_drop. f_equal.
    rewrite length_drop, !length_app. simpl length.
    unfold maxLogBufferSize in *. lia.
Qed.

Lemma log_buffer_keeps_latest_witness :
  let e := fun t => mkLogEntry t (js "system") (js "info") (js "tick") [] in
  Z.of_nat (length (map e (seqZ 0 1000))) <= maxLogBufferSize
  /\ foldl push_log (map e (seqZ 0 1000)) [e 1000; e 1001]
     = drop 2 (map e (seqZ 0 1000) ++ [e 1000; e 1001]).
Proof.
  intros e.
  assert (Hlen : Z.of_nat (length (map e (seqZ 0 1000))) <= maxLogBufferSize)
    by (rewrite length_map, length_seqZ; unfold maxLogBufferSize; lia).
  split; [exact Hlen|].
  destruct (log_buffer_keeps_latest (map e (seqZ 0 1000)) [e 1000; e 1001] Hlen) as [Heq _].
  rewrite Heq. f_equal.
Defined.

Lemma insert_with_perm {A} (compare : A -> A -> Z) x l :
  insert_with compare x l ≡ₚ x :: l.
Proof.
  induction l as [|y l IH]; simpl; [reflexivity|].
  destruct (compare x y <=? 0); [reflexivity|].
  rewrite IH. apply Permutation_swap.
Qed.

Lemma sort_with_perm {A} (compare : A -> A -> Z) l : sort_with compare l ≡ₚ l.
Proof.
  induction l as [|x l IH]; simpl; [reflexivity|].
  rewrite insert_with_perm, IH. reflexivity.
Qed.

Lemma insert_newest_first x l :
  StronglySorted newest_first_rel l ->
  StronglySorted newest_first_rel (insert_with (fun a b => timestamp b - timestamp a) x l).
Proof.
  induction l as [|y l IH]; intros Hs; simpl.
  - repeat constructor.
  - apply StronglySorted_inv in Hs as [Hs Hy].
    destruct (Z.leb_spec (timestamp y - timestamp x) 0) as [Hle|Hgt].
    + constructor; [constructor; assumption|].
      constructor; [unfold newest_first_rel; lia|].
      eapply Forall_impl; [exact Hy|]. unfold newest_first_rel. intros z Hz. lia.
    + constructor; [apply IH; exact Hs|].
      rewrite insert_with_perm. constructor; [unfold newest_first_rel; lia | exact Hy].
Qed.

Lemma sort_newest_first l :
  StronglySorted newest_first_rel (sort_with (fun a b => timestamp b - timestamp a) l).
Proof.
  induction l as [|x l IH]; simpl; [constructor|]. apply insert_newest_first. exact IH.
Qed.

Lemma StronglySorted_take {A} (R : A -> A -> Prop) l n :
  StronglySorted R l -> StronglySorted R (take n l).
Proof.
  revert n. induction l as [|x l IH]; intros [|n] Hs; simpl; try constructor.
  - apply IH. apply StronglySorted_inv in Hs as [Hs _]. exact Hs.
  - apply StronglySorted_inv in Hs as [_ Hx].
    apply Forall_forall. intros y Hy. apply subseteq_take in Hy.
    rewrite Forall_forall in Hx. apply Hx. exact Hy.
Qed.

Lemma StronglySorted_lookup {A} (R : A -> A -> Prop) l :
  StronglySorted R l ->
  forall (i j : nat) a b, (i < j)%nat -> l !! i = Some a -> l !! j = Some b -> R a b.
Proof.
  induction 1 as [|x l Hs IH Hx]; intros i j a b Hij Hi Hj; [discriminate|].
  destruct j as [|j]; [lia|]. simpl in Hj.
  destruct i as [|i]; simpl in Hi.
  - injection Hi as <-. rewrite Forall_forall in Hx. apply Hx.
    apply list_elem_of_lookup. eauto.
  - apply (IH i j); [lia | assumption | assumption].
Qed.

Lemma slice_length {A} (l : list A) (k : Z) :
  Z.of_nat (length (slice l 0 (Some k)))
  = if k <? 0 then Z.max 0 (Z.of_nat (length l) + k) else Z.min k (Z.of_nat (length l)).
Proof.
  unfold slice, slice_index. rewrite Z.ltb_irrefl.
  rewrite (Z.min_l 0) by lia. change (Z.to_nat 0) with 0%nat. rewrite drop_0, Z.sub_0_r.
  rewrite length_take. destruct (k <? 0) eqn:Hk; lia.
Qed.

Lemma getRecentLogs_perm logBuffer callId :
  sort_with (fun a b => timestamp b - timestamp a)
    (if truthy callId
     then filter (fun log => Monitoring.callId log = default [] callId) logBuffer
     else logBuffer)
  ≡ₚ asked_for callId logBuffer.
Proof.
  rewrite sort_with_perm. unfold asked_for.
  destruct (truthy callId).
  - induction logBuffer as [|e l IH]; [reflexivity|].
    destruct (decide (Monitoring.callId e = default [] callId)) as [He|He].
    + rewrite !filter_cons_True by auto. rewrite IH. reflexivity.
    + rewrite !filter_cons_False by (intros H; apply He; first [exact H | exact (H eq_refl)]).
      exact IH.
  - induction logBuffer as [|e l IH]; [reflexivity|].
    rewrite filter_cons_True by discriminate. rewrite <- IH. reflexivity.
Qed.

Lemma asked_for_all callId logBuffer :
  truthy callId = false -> asked_for callId logBuffer = logBuffer.
Proof.
  intros Ht. unfold asked_for.
  induction logBuffer as [|e l IH]; [reflexivity|].
  rewrite filter_cons_True by congruence. rewrite IH. reflexivity.
Qed.

(** X26. The logs that GET /monitoring/logs returns stand newest
    first, and each one is an entry of the buffer, of the call asked
    for when a call is named. Their number is the limit, or the number
    of such entries when they are fewer; a limit that is missing, not a
    number or 0 counts as 100, and a negative limit [-k] returns all
    such entries but the [k] oldest. *)
Theorem logs_route_returns (logBuffer : list LogEntry) (limit : option Z)
    (callId : option jsstring) :
  let logs := logs_route logBuffer limit callId in
  let about := asked_for callId logBuffer in
  let n := Z.of_nat (length about) in
  (forall (i j : nat) a b, (i < j)%nat -> logs !! i = Some a -> logs !! j = Some b ->
     timestamp b <= timestamp a)
  /\ Forall (fun log => log ∈ about) logs
  /\ Z.of_nat (length logs) =
       match limit with
       | Some k => if k =? 0 then Z.min 100 n
                   else if k <? 0 then Z.max 0 (n + k) else Z.min k n
       | None => Z.min 100 n
       end.
Proof.
  cbv zeta. unfold logs_route. cbv zeta.
  set (lim := match limit with Some n => if n =? 0 then 100 else n | None => 100 end).
  assert (Hid : asked_for (if truthy callId then callId else None) logBuffer
                = asked_for callId logBuffer).
  { destruct (truthy callId) eqn:Ht; [reflexivity|].
    rewrite !asked_for_all by (first [exact Ht | reflexivity]). reflexivity. }
  pose proof (getRecentLogs_perm logBuffer (if truthy callId then callId else None)) as Hperm.
  rewrite Hid in Hperm.
  unfold getRecentLogs. cbv zeta.
  set (sorted := sort_with _ _) in *.
  split; [|split].
  - destruct (slice_from_start sorted lim) as [m ->].
    apply (StronglySorted_lookup newest_first_rel).
    apply StronglySorted_take. apply sort_newest_first.
  - destruct (slice_from_start sorted lim) as [m ->].
    apply Forall_forall. intros e He. apply subseteq_take in He.
    rewrite Hperm in He. exact He.
  - rewrite slice_length. rewrite (Permutation_length Hperm).
    unfold lim. destruct limit as [k|]; [|reflexivity].
    destruct (Z.eqb_spec k 0) as [->|Hk]; [reflexivity|]. reflexivity.
Qed.

End LogBuffer.

(* ------------------------------------------------------------------ *)
(** ** The stream of the language model: lines are put together again *)
(* ------------------------------------------------------------------ *)

Section StreamLines.

Import Sse.

Variable line_tokens : jsstring -> list jsstring.
Variable last_token : jsstring -> option jsstring.

Lemma split_newline_go_nonempty s cur : split_newline_go s cur <> [].
Proof.
  revert cur. induction s as [|c s IH]; intros cur; simpl; [discriminate|].
  destruct (c =? 10)%N; [discriminate | apply IH].
Qed.

Lemma split_newline_go_cur s cur :
  10%N ∉ cur -> split_newline_go s cur = split_newline_go (rev cur ++ s) [].
Proof.
  revert s. induction cur as [|c cur IH]; intros s Hc; [reflexivity|].
  simpl rev. rewrite <- (assoc_L (++)). simpl app.
  rewrite <- IH by (intros H; apply Hc; right; exact H).
  simpl. destruct (N.eqb_spec c 10) as [->|Hne]; [|reflexivity].
  exfalso. apply Hc. left.
Qed.

Lemma last_split_newline_go s :
  forall cur, 10%N ∉ cur ->
    exists rest, last (split_newline_go s cur) = Some rest /\ 10%N ∉ rest.
Proof.
  induction s as [|c s IH]; intros cur Hc; simpl.
  - exists (rev cur). split; [reflexivity|]. rewrite list_elem_of_In, <- in_rev, <- list_elem_of_In. exact Hc.
  - destruct (N.eqb_spec c 10) as [->|Hne].
    + destruct (IH [] (not_elem_of_nil _)) as (rest & Hl & Hr).
      exists rest. split; [|exact Hr].
      rewrite last_cons, Hl. reflexivity.
    + apply IH. intros H. apply elem_of_cons in H as [H|H]; [congruence | exact (Hc H)].
Qed.

(** Splitting a text in two pieces, then the lines of each. *)
Lemma split_newline_go_app a b :
  forall cur, 10%N ∉ cur ->
    split_newline_go (a ++ b) cur
    = removelast (split_newline_go a cur)
      ++ split_newline_go (default [] (last (split_newline_go a cur)) ++ b) [].
Proof.
  induction a as [|c a IH]; intros cur Hc.
  - simpl. apply split_newline_go_cur. exact Hc.
  - simpl app. cbn [split_newline_go].
    destruct (N.eqb_spec c 10) as [->|Hne].
    + rewrite (IH [] (not_elem_of_nil _)).
      pose proof (split_newline_go_nonempty a []) as Hne.
      destruct (split_newline_go a []) as [|x l] eqn:Hs; [congruence|].
      change (last (rev cur :: x :: l)) with (last (x :: l)).
      change (removelast (rev cur :: x :: l)) with (rev cur :: removelast (x :: l)).
      reflexivity.
    + apply IH. intros H. apply elem_of_cons in H as [H|H]; [congruence | exact (Hc H)].
Qed.

Lemma split_newline_plain s : 10%N ∉ s -> split_newline s = [s].
Proof.
  unfold split_newline. intros Hs.
  assert (H : forall cur, split_newline_go s cur = [rev cur ++ s]).
  { induction s as [|c s IH]; intros cur; simpl; [rewrite app_nil_r; reflexivity|].
    destruct (N.eqb_spec c 10) as [->|Hne]; [exfalso; apply Hs; left|].
    rewrite IH by (intros H; apply Hs; right; exact H).
    simpl. rewrite <- (assoc_L (++)). reflexivity. }
  apply (H []).
Qed.

(** The loop hands over the tokens of the complete lines of the whole
    text, and keeps what follows the last line feed. *)
Lemma read_all_spec values :
  forall buffer, 10%N ∉ buffer ->
    read_all line_tokens buffer values
    = (flat_map (tokens_of_line line_tokens)
         (removelast (split_newline (buffer ++ concat values))),
       default [] (last (split_newline (buffer ++ concat values)))).
Proof.
  induction values as [|value rest IH]; intros buffer Hb.
  - simpl. rewrite app_nil_r, (split_newline_plain buffer Hb). reflexivity.
  - cbn [read_all concat]. unfold read. cbv zeta.
    destruct (last_split_newline_go (buffer ++ value) [] (not_elem_of_nil _))
      as (kept & Hl & Hkept).
    fold (split_newline (buffer ++ value)) in Hl. rewrite Hl. cbn [default from_option id].
    rewrite (IH kept Hkept).
    rewrite (assoc_L (++) buffer value (concat rest)).
    unfold split_newline at 4 5.
    rewrite (split_newline_go_app (buffer ++ value) (concat rest) [] (not_elem_of_nil _)).
    fold (split_newline (buffer ++ value)). rewrite Hl. cbn [default from_option id].
    fold (split_newline (kept ++ concat rest)).
    pose proof (split_newline_go_nonempty (kept ++ concat rest) []) as Hne.
    fold (split_newline (kept ++ concat rest)) in Hne.
    rewrite removelast_app by exact Hne.
    rewrite flat_map_app.
    rewrite last_app.
    destruct (last (split_newline (kept ++ concat rest))) as [x|] eqn:Hx; [reflexivity|].
    apply last_None in Hx. congruence.
Qed.

(** X27. The tokens that [generateWithGeminiStreaming] hands to
    [onToken] do not depend on how the network cuts the response into
    pieces: they are the tokens of the complete lines of the whole
    text, in order, followed by what the text after the last line feed
    gives. A line that arrives in several pieces is put together before
    it is read. *)
Theorem stream_tokens_of_whole_text (values : list jsstring) :
  let text := concat values in
  stream_tokens line_tokens last_token values
  = flat_map (tokens_of_line line_tokens) (removelast (split_newline text))
    ++ remaining last_token (default [] (last (split_newline text)))
  /\ stream_tokens line_tokens last_token values
     = stream_tokens line_tokens last_token [text].
Proof.
  cbv zeta.
  assert (H : forall vs,
             stream_tokens line_tokens last_token vs
             = flat_map (tokens_of_line line_tokens) (removelast (split_newline (concat vs)))
               ++ remaining last_token (default [] (last (split_newline (concat vs))))).
  { intros vs. unfold stream_tokens.
    rewrite (read_all_spec vs [] (not_elem_of_nil _)). reflexivity. }
  split; [apply H|].
  rewrite (H values), (H [concat values]). simpl concat. rewrite app_nil_r. reflexivity.
Qed.

End StreamLines.

(* ------------------------------------------------------------------ *)
(** ** Transcription: what is sent and what is returned *)
(* ------------------------------------------------------------------ *)

Section Transcription.

Import Stt.

Lemma trimStart_fixed s c : head s = Some c -> is_whitespace c = false -> trimStart s = s.
Proof.
  destruct s as [|d s]; [discriminate|]. simpl. intros [= ->] ->. reflexivity.
Qed.

Lemma trim_trim s : trim (trim s) = trim s.
Proof.
  destruct (trim s) as [|c t] eqn:Ht; [reflexivity|]. rewrite <- Ht.
  assert (Hhead : head (trim s) = Some c) by (rewrite Ht; reflexivity).
  destruct (last (trim s)) as [d|] eqn:Hlast.
  - unfold trim at 1.
    rewrite (trimStart_fixed (trim s) c Hhead (trim_head s c Hhead)).
    apply (trimEnd_fixed (trim s) d Hlast (trim_last s d Hlast)).
  - apply last_None in Hlast. congruence.
Qed.

(** X28. [transcribePCM] sends at most one request. Without a key or
    without audio it sends none and returns null. The body of the
    request is the WAV file of the audio: 44 bytes of header, then the
    PCM unchanged. A text that it returns is never empty and is already
    trimmed, so that the turn which asked for it never finds it blank. *)
Theorem transcribePCM_returns (deepgramApiKey : option jsstring)
    (deepgram : Buffer -> Answer) (pcmBuffer : Buffer) (sampleRate : Z) :
  let r := transcribePCM deepgramApiKey deepgram pcmBuffer sampleRate in
  (truthy deepgramApiKey = false \/ pcmBuffer = [] -> r = (None, []))
  /\ (snd r = []
      \/ exists audioBuffer,
           snd r = [audioBuffer]
           /\ buflen audioBuffer = 44 + buflen pcmBuffer
           /\ drop 44 audioBuffer = pcmBuffer)
  /\ (forall text, fst r = Some text ->
        text <> [] /\ trim text = text
        /\ exists audioBuffer transcript,
             snd r = [audioBuffer]
             /\ deepgram audioBuffer = Results (Some transcript)
             /\ text = trim transcript).
Proof.
  cbv zeta. unfold transcribePCM, transcribeWithDeepgram.
  destruct (truthy deepgramApiKey) eqn:Hkey; cbn [negb].
  2:{ split; [auto|]. split; [left; reflexivity|]. intros text H. discriminate. }
  destruct (Z.eqb_spec (buflen pcmBuffer) 0) as [Hempty|Hsome].
  { split; [auto|]. split; [left; reflexivity|]. intros text H. discriminate. }
  split.
  { intros [H|H]; [discriminate|]. subst. unfold buflen in Hsome. simpl in Hsome. lia. }
  destruct (Wav.pcmToWavFile pcmBuffer sampleRate) as [audioBuffer|] eqn:Hwav.
  2:{ split; [left; reflexivity|]. intros text H. discriminate. }
  split.
  - right. exists audioBuffer. split; [reflexivity|].
    unfold Wav.pcmToWavFile in Hwav.
    destruct (Wav.wavHeader sampleRate (buflen pcmBuffer)) as [h|] eqn:Hh; [|discriminate].
    cbn [mbind option_bind] in Hwav. injection Hwav as <-.
    assert (Hlen : length h = 44%nat) by (apply (wavHeader_length _ _ _ Hh)).
    split.
    + unfold buflen. rewrite length_app. lia.
    + rewrite drop_app_length'; [reflexivity | symmetry; exact Hlen].
  - intros text Htext. cbn [fst snd] in *.
    destruct (deepgram audioBuffer) as [[transcript|]| |] eqn:Hd; try discriminate.
    assert (Htrim : Some text = Some (trim transcript) /\ trim transcript <> []).
    { change (trim <$> Some transcript) with (Some (trim transcript)) in Htext.
      remember (trim transcript) as trimmed eqn:Ht.
      destruct trimmed as [|c t]; simpl in Htext; [discriminate|].
      split; [symmetry; exact Htext | congruence]. }
    destruct Htrim as [[= ->] Hne].
    split; [exact Hne|]. split; [apply trim_trim|].
    exists audioBuffer, transcript. auto.
Qed.

End Transcription.

(* ------------------------------------------------------------------ *)
(** ** The cache of the knowledge base: what a load leaves behind *)
(* ------------------------------------------------------------------ *)

Section KnowledgeBaseCache.

Import KB ChunkCache.

Lemma document_chunks_total doc : exists cs, document_chunks doc = Some cs.
Proof.
  unfold document_chunks.
  destruct (chunks doc) as [[|c cs]|]; eauto;
    (destruct (truthy (content doc)); [apply chunkText_total | eauto]).
Qed.

Lemma combine_chunks_total documents :
  forall allChunks, exists r, combine_chunks documents allChunks = Some r.
Proof.
  induction documents as [|doc rest IH]; intros allChunks; simpl; [eauto|].
  destruct (document_chunks_total doc) as [cs ->]. simpl. apply IH.
Qed.

(** X29. [loadAllChunks] always returns, and what it returns is what
    it leaves in the cache. A load that fails is cached like any other:
    the knowledge base is then empty. Until ten minutes have passed
    since the cache was written, every further load returns the cached
    chunks without asking the store, whatever the store holds by then;
    after [clearKnowledgebaseCache], the next load asks the store. *)
Theorem loadAllChunks_caches (cache : Cache) (now : Z) (store : Store) (later : Z) :
  exists r c asked,
    loadAllChunks cache now store later = Some (r, c, asked)
    /\ cachedChunks c = Some r
    /\ (asked = true -> cacheTimestamp c = Some later)
    /\ (asked = true -> store = Unavailable -> r = [])
    /\ (forall timestamp now' store' later',
          cacheTimestamp c = Some timestamp -> timestamp <> 0 ->
          now' - timestamp < CACHE_TTL_MS ->
          loadAllChunks c now' store' later' = Some (r, c, false))
    /\ (cache = clearKnowledgebaseCache -> asked = true).
Proof.
  assert (Hagain : forall r ts,
            forall timestamp now' store' later',
              cacheTimestamp (mkCache (Some r) ts) = Some timestamp -> timestamp <> 0 ->
              now' - timestamp < CACHE_TTL_MS ->
              loadAllChunks (mkCache (Some r) ts) now' store' later'
              = Some (r, mkCache (Some r) ts, false)).
  { intros r ts timestamp now' store' later' Hts Hnz Hlt. simpl in Hts. subst ts.
    unfold loadAllChunks, fresh. cbn [cachedChunks cacheTimestamp].
    destruct (Z.eqb_spec timestamp 0); [contradiction|].
    destruct (Z.ltb_spec (now' - timestamp) CACHE_TTL_MS); [|lia]. reflexivity. }
  unfold loadAllChunks.
  destruct (fresh cache now) eqn:Hfresh.
  - unfold fresh in Hfresh.
    destruct cache as [[cached|] [ts|]]; cbn [cachedChunks cacheTimestamp] in *;
      try discriminate.
    exists cached, (mkCache (Some cached) (Some ts)), false.
    split; [reflexivity|]. split; [reflexivity|].
    split; [discriminate|]. split; [discriminate|].
    split; [apply Hagain | discriminate].
  - destruct store as [|documents].
    + exists [], (mkCache (Some []) (Some later)), true.
      split; [reflexivity|]. split; [reflexivity|]. split; [reflexivity|].
      split; [reflexivity|]. split; [apply Hagain | reflexivity].
    + destruct (Z.of_nat (length documents) =? 0).
      * exists [], (mkCache (Some []) (Some later)), true.
        split; [reflexivity|]. split; [reflexivity|]. split; [reflexivity|].
        split; [discriminate|]. split; [apply Hagain | reflexivity].
      * destruct (combine_chunks_total documents []) as [r ->].
        exists r, (mkCache (Some r) (Some later)), true.
        split; [reflexivity|]. split; [reflexivity|]. split; [reflexivity|].
        split; [discriminate|]. split; [apply Hagain | reflexivity].
Qed.

End KnowledgeBaseCache.
